(** * timed-cache: a cache whose items live for a configured number of seconds

    Shallow embedding of [timed-cache/timed-cache] (src/main.go) together with
    the part of Go's [container/list] it calls.  The Go heap is explicit:
    list elements live at addresses, the map [items] stores pointers to them,
    and every list operation is the sequence of pointer assignments that
    [container/list] performs.  The mutex is not modelled: operations are
    taken one at a time, which is what [Lock]/[Unlock] guarantee. *)

From Stdlib Require Import ZArith Lia.
From stdpp Require Import base option list gmap strings.

Open Scope Z_scope.

(** ** 64-bit signed arithmetic ([int64]) *)

Definition wrap64 (z : Z) : Z := (z + 2 ^ 63) mod 2 ^ 64 - 2 ^ 63.

(** [a - b] on [int64], with Go's silent wrap-around. *)
Definition sub64 (a b : Z) : Z := wrap64 (a - b).

(** The values of [int64]. *)
Definition in_int64 (z : Z) : Prop := - 2 ^ 63 <= z < 2 ^ 63.

(** ** Outcomes of running Go code *)

Inductive Res (A : Type) : Type :=
| Ok (a : A)      (* normal return *)
| Panic           (* run-time panic: nil dereference, failed type assertion, index out of range *)
| Timeout.        (* the loop budget of the model ran out *)
Arguments Ok {A} a.
Arguments Panic {A}.
Arguments Timeout {A}.

(** ** Pointers and heap cells *)

Definition addr := nat.

(** A [*list.Element]: nil, the address of the list's sentinel [&l.root], or
    the address of a heap-allocated element. *)
Inductive ptr : Type :=
| Nil
| Root
| Elem (a : addr).

Global Instance ptr_eq_dec : EqDecision ptr.
Proof. solve_decision. Defined.

(** A [*list.List].  The cache owns the only list there is, so such a pointer
    is either nil or that list. *)
Inductive lref : Type :=
| NoList
| EvictList.

Global Instance lref_eq_dec : EqDecision lref.
Proof. solve_decision. Defined.

(** ** Keys

    The keys of the cache are [interface{}] values, and [c.items] finds a
    key by hashing it and comparing with [==].  The type [K] of the keys
    holds the values that can be hashed, two values that are [==] being the
    same key (with a slice, a map or a function as key every operation that
    takes a key panics in [c.items[key]], right after its sweep).  On almost
    every key [==] is reflexive; the exceptions are the floating-point NaN
    and the values that hold one, which are equal to no value, themselves
    included. *)

(** [k == k] *)
Class GoKey (K : Type) := selfEqual : K → bool.

Section Cache.

Context {K : Type} `{Countable K} `{!GoKey K} {V W : Type}.

(** [type entry struct { tm int64; key, value interface{} }] *)
Record entry : Type := mk_entry {
  tm : Z;
  key : K;
  value : V
}.

(** [type Element struct { next, prev *Element; list *List; Value interface{} }].
    [Value] holds a [*entry]; the pointer is created in [Add] and stored
    nowhere else, so the pointee is kept inside the cell, [None] being the
    nil pointer.  The Go field [list] is spelled [elist] here. *)
Record Element : Type := mk_Element {
  next : ptr;
  prev : ptr;
  elist : lref;
  Value : option entry
}.

(** [type List struct { root Element; len int }].  [len] counts cells that
    are in memory, so the 64-bit [int] cannot wrap; it is kept as a plain
    integer. *)
Record List : Type := mk_List {
  root : Element;
  len : Z
}.

(** [type EvictCallback func(key interface{}, value interface{})]: Go code run
    for its effect on the caller's world [W]. *)
Definition EvictCallback : Type := K → V → W → W.

(** [map[interface{}]*list.Element].  Under a key that is equal to itself
    there is at most one entry ([keyed]).  A key that is not equal to itself
    is never found in the map, so every assignment under it adds an entry
    and no [delete] removes one ([loose], the latest first); [len] and
    [range] see these entries like the others. *)
Record GoMap : Type := mk_GoMap {
  keyed : gmap K ptr;
  loose : list (K * ptr)
}.

(** [m[k]], read *)
Global Instance GoMap_lookup : Lookup K ptr GoMap :=
  λ k m, if selfEqual k then keyed m !! k else None.

(** [m[k] = p] *)
Global Instance GoMap_insert : Insert K ptr GoMap :=
  λ k p m, if selfEqual k then mk_GoMap (<[k := p]> (keyed m)) (loose m)
           else mk_GoMap (keyed m) ((k, p) :: loose m).

(** [delete(m, k)] *)
Global Instance GoMap_delete : Delete K GoMap :=
  λ k m, if selfEqual k then mk_GoMap (delete k (keyed m)) (loose m) else m.

(** [len(m)] *)
Global Instance GoMap_size : Size GoMap :=
  λ m, (size (keyed m) + length (loose m))%nat.

(** [make(map[interface{}]*list.Element)] *)
Global Instance GoMap_empty : Empty GoMap := mk_GoMap ∅ [].

(** The keys under which the map has an entry. *)
Global Instance GoMap_dom : Dom GoMap (gset K) :=
  λ m, dom (keyed m) ∪ list_to_set (loose m).*1.

(** [type TimedCache struct] *)
Record TimedCache : Type := mk_TimedCache {
  evictList : List;
  items : GoMap;
  duration : Z;
  onEvictCall : option EvictCallback
}.

(** The memory a run acts on: the cache object, the heap of list elements
    with its allocation pointer, and the caller's world. *)
Record State : Type := mk_State {
  cache : TimedCache;
  heap : gmap addr Element;
  brk : addr;
  world : W
}.

(** ** The monad of Go statements *)

Definition M (A : Type) : Type := State → Res (A * State).

Definition ret {A} (a : A) : M A := λ s, Ok (a, s).

Definition bind {A B} (m : M A) (f : A → M B) : M B :=
  λ s, match m s with
       | Ok (a, s') => f a s'
       | Panic => Panic
       | Timeout => Timeout
       end.

Global Instance M_ret : MRet M := @ret.
Global Instance M_bind : MBind M := λ A B f m, bind m f.

Definition panic {A} : M A := λ _, Panic.
Definition timeout {A} : M A := λ _, Timeout.

Definition gets {A} (f : State → A) : M A := λ s, Ok (f s, s).
Definition modify (f : State → State) : M unit := λ s, Ok (tt, f s).

(** Read through a pointer: a panic when there is nothing behind it. *)
Definition read {A} (f : State → option A) : M A :=
  λ s, match f s with Some a => Ok (a, s) | None => Panic end.

(** Write through a pointer: a panic when there is nothing behind it. *)
Definition write (f : State → option State) : M unit :=
  λ s, match f s with Some s' => Ok (tt, s') | None => Panic end.

(** ** Memory access *)

Definition set_root (e : Element) (s : State) : State :=
  let c := cache s in
  mk_State (mk_TimedCache (mk_List e (len (evictList c)))
                          (items c) (duration c) (onEvictCall c))
           (heap s) (brk s) (world s).

Definition set_len (n : Z) (s : State) : State :=
  let c := cache s in
  mk_State (mk_TimedCache (mk_List (root (evictList c)) n)
                          (items c) (duration c) (onEvictCall c))
           (heap s) (brk s) (world s).

Definition set_items (m : GoMap) (s : State) : State :=
  let c := cache s in
  mk_State (mk_TimedCache (evictList c) m (duration c) (onEvictCall c))
           (heap s) (brk s) (world s).

Definition set_world (w : W) (s : State) : State :=
  mk_State (cache s) (heap s) (brk s) w.

(** The cell behind a pointer. *)
Definition elemP (s : State) (p : ptr) : option Element :=
  match p with
  | Nil => None
  | Root => Some (root (evictList (cache s)))
  | Elem a => heap s !! a
  end.

(** Overwrite the cell behind a pointer. *)
Definition updElem (p : ptr) (f : Element → Element) (s : State) : option State :=
  match p with
  | Nil => None
  | Root => Some (set_root (f (root (evictList (cache s)))) s)
  | Elem a =>
      match heap s !! a with
      | Some e => Some (mk_State (cache s) (<[a := f e]> (heap s)) (brk s) (world s))
      | None => None
      end
  end.

Definition with_next (q : ptr) (e : Element) : Element :=
  mk_Element q (prev e) (elist e) (Value e).
Definition with_prev (q : ptr) (e : Element) : Element :=
  mk_Element (next e) q (elist e) (Value e).
Definition with_list (l : lref) (e : Element) : Element :=
  mk_Element (next e) (prev e) l (Value e).
Definition with_Value (v : option entry) (e : Element) : Element :=
  mk_Element (next e) (prev e) (elist e) v.

Definition rd_next (p : ptr) : M ptr := read (λ s, next <$> elemP s p).
Definition rd_prev (p : ptr) : M ptr := read (λ s, prev <$> elemP s p).
Definition rd_list (p : ptr) : M lref := read (λ s, elist <$> elemP s p).
Definition rd_Value (p : ptr) : M (option entry) := read (λ s, Value <$> elemP s p).
Definition wr_next (p q : ptr) : M unit := write (updElem p (with_next q)).
Definition wr_prev (p q : ptr) : M unit := write (updElem p (with_prev q)).
Definition wr_list (p : ptr) (l : lref) : M unit := write (updElem p (with_list l)).
Definition wr_Value (p : ptr) (v : option entry) : M unit := write (updElem p (with_Value v)).

Definition rd_len : M Z := gets (λ s, len (evictList (cache s))).
Definition wr_len (n : Z) : M unit := modify (set_len n).

(** [&Element{Value: v}]: a fresh cell, every other field zero. *)
Definition new_Element (v : option entry) : M ptr :=
  λ s, Ok (Elem (brk s),
           mk_State (cache s) (<[brk s := mk_Element Nil Nil NoList v]> (heap s))
                    (S (brk s)) (world s)).

(** [p.Value] asserted to be a [*entry]: the sentinel's [Value] is the nil
    interface, on which the type assertion panics. *)
Definition asEntry (p : ptr) : M (option entry) :=
  match p with
  | Root => panic
  | _ => rd_Value p
  end.

(** Following a [*entry] to read one of its fields. *)
Definition deref (ent : option entry) : M entry :=
  match ent with
  | Some x => mret x
  | None => panic
  end.

(** ** container/list

    The methods of Go's standard library package (list.go) that the cache
    calls, statement by statement.  [l] is always [c.evictList]. *)

(** [func (l *List) Init() *List]:
    [l.root.next = &l.root; l.root.prev = &l.root; l.len = 0] *)
Definition List_Init : M unit :=
  wr_next Root Root;;
  wr_prev Root Root;;
  wr_len 0.

(** [func (l *List) Len() int] *)
Definition List_Len : M Z := rd_len.

(** [func (l *List) Front() *Element]:
    [if l.len == 0 { return nil }; return l.root.next] *)
Definition List_Front : M ptr :=
  n ← rd_len;
  if decide (n = 0) then mret Nil else rd_next Root.

(** [func (l *List) Back() *Element]:
    [if l.len == 0 { return nil }; return l.root.prev] *)
Definition List_Back : M ptr :=
  n ← rd_len;
  if decide (n = 0) then mret Nil else rd_prev Root.

(** [func (e *Element) Next() *Element]:
    [if p := e.next; e.list != nil && p != &e.list.root { return p }; return nil] *)
Definition Element_Next (e : ptr) : M ptr :=
  p ← rd_next e;
  l ← rd_list e;
  if decide (l ≠ NoList ∧ p ≠ Root) then mret p else mret Nil.

(** [func (e *Element) Prev() *Element]:
    [if p := e.prev; e.list != nil && p != &e.list.root { return p }; return nil] *)
Definition Element_Prev (e : ptr) : M ptr :=
  p ← rd_prev e;
  l ← rd_list e;
  if decide (l ≠ NoList ∧ p ≠ Root) then mret p else mret Nil.

(** [func (l *List) lazyInit()]: [if l.root.next == nil { l.Init() }] *)
Definition List_lazyInit : M unit :=
  n ← rd_next Root;
  if decide (n = Nil) then List_Init else mret tt.

(** [func (l *List) insert(e, at *Element) *Element]:
    [e.prev = at; e.next = at.next; e.prev.next = e; e.next.prev = e;
     e.list = l; l.len++; return e] *)
Definition List_insert (e at_ : ptr) : M ptr :=
  wr_prev e at_;;
  n ← rd_next at_; wr_next e n;;
  p ← rd_prev e; wr_next p e;;
  n ← rd_next e; wr_prev n e;;
  wr_list e EvictList;;
  n ← rd_len; wr_len (n + 1);;
  mret e.

(** [func (l *List) insertValue(v interface{}, at *Element) *Element]:
    [return l.insert(&Element{Value: v}, at)] *)
Definition List_insertValue (v : option entry) (at_ : ptr) : M ptr :=
  e ← new_Element v;
  List_insert e at_.

(** [func (l *List) remove(e *Element)]:
    [e.prev.next = e.next; e.next.prev = e.prev; e.next = nil; e.prev = nil;
     e.list = nil; l.len--] *)
Definition List_remove (e : ptr) : M unit :=
  p ← rd_prev e; n ← rd_next e; wr_next p n;;
  n ← rd_next e; p ← rd_prev e; wr_prev n p;;
  wr_next e Nil;;
  wr_prev e Nil;;
  wr_list e NoList;;
  n ← rd_len; wr_len (n - 1).

(** [func (l *List) move(e, at *Element)]:
    [if e == at { return }; e.prev.next = e.next; e.next.prev = e.prev;
     e.prev = at; e.next = at.next; e.prev.next = e; e.next.prev = e] *)
Definition List_move (e at_ : ptr) : M unit :=
  if decide (e = at_) then mret tt else
  p ← rd_prev e; n ← rd_next e; wr_next p n;;
  n ← rd_next e; p ← rd_prev e; wr_prev n p;;
  wr_prev e at_;;
  n ← rd_next at_; wr_next e n;;
  p ← rd_prev e; wr_next p e;;
  n ← rd_next e; wr_prev n e.

(** [func (l *List) Remove(e *Element) interface{}]:
    [if e.list == l { l.remove(e) }; return e.Value] *)
Definition List_Remove (e : ptr) : M (option entry) :=
  l ← rd_list e;
  (if decide (l = EvictList) then List_remove e else mret tt);;
  rd_Value e.

(** [func (l *List) PushFront(v interface{}) *Element]:
    [l.lazyInit(); return l.insertValue(v, &l.root)] *)
Definition List_PushFront (v : option entry) : M ptr :=
  List_lazyInit;;
  List_insertValue v Root.

(** [func (l *List) MoveToFront(e *Element)]:
    [if e.list != l || l.root.next == e { return }; l.move(e, &l.root)] *)
Definition List_MoveToFront (e : ptr) : M unit :=
  l ← rd_list e;
  if decide (l ≠ EvictList) then mret tt else
  n ← rd_next Root;
  if decide (n = e) then mret tt else
  List_move e Root.

(** ** timed_cache *)

(** [time.Now().Unix()] is an input of the run: every operation takes the
    clock readings it makes as arguments, in the order it makes them. *)

(** [func NewTimedCache(duration int64, onEvictCall EvictCallback) *TimedCache]
    on an empty heap, [list.New()] being [new(List).Init()]. *)
Definition NewTimedCache (duration : Z) (onEvictCall : option EvictCallback)
    (w : W) : State :=
  mk_State
    (mk_TimedCache (mk_List (mk_Element Root Root NoList None) 0) ∅
                   duration onEvictCall)
    ∅ O w.

(** Calling the function value [c.onEvictCall]: calling nil panics. *)
Definition call (f : option EvictCallback) (k : K) (v : V) : M unit :=
  match f with
  | Some g => modify (λ s, set_world (g k v (world s)) s)
  | None => panic
  end.

(** [delete(c.items, k)] *)
Definition delete_item (k : K) : M unit :=
  modify (λ s, set_items (delete k (items (cache s))) s).

(** [func (c *TimedCache) removeElement(e *list.Element)] *)
Definition removeElement (e : ptr) : M unit :=
  List_Remove e;;
  kv ← asEntry e;
  x ← deref kv;
  delete_item (key x);;
  cb ← gets (λ s, onEvictCall (cache s));
  if decide (cb ≠ None) then call cb (key x) (value x) else mret tt.

(** The loop of [purgeExpired],
    [for e := c.evictList.Back(); e != nil; e = e.Prev()], entered with [e]
    and at most [fuel] turns of the body left.  The step [e = e.Prev()] is
    taken on the element the body has just removed. *)
Fixpoint purgeLoop (fuel : nat) (now : Z) (e : ptr) : M unit :=
  match e with
  | Nil => mret tt
  | _ =>
      match fuel with
      | O => timeout
      | S fuel' =>
          ent ← asEntry e;
          x ← deref ent;
          d ← gets (λ s, duration (cache s));
          if decide (sub64 now (tm x) > d) then
            removeElement e;;
            e' ← Element_Prev e;
            purgeLoop fuel' now e'
          else
            (* previous list elements are only newer *)
            mret tt
      end
  end.

(** [func (c *TimedCache) purgeExpired()], the clock reading [now].  The
    budget is one turn per element and one to spare; it is never used up
    ([purgeExpired_budget]). *)
Definition purgeExpired (now : Z) : M unit :=
  n ← rd_len;
  e ← List_Back;
  purgeLoop (S (Z.to_nat n)) now e.

(** [func (c *TimedCache) PurgeExpired()] *)
Definition PurgeExpired (now : Z) : M unit :=
  purgeExpired now.

(** Entry number [i], counted from 0, among the entries of [es] under the
    key [k], and the other entries. *)
Fixpoint pick (k : K) (i : nat) (es : list (K * ptr))
    : option ((K * ptr) * list (K * ptr)) :=
  match es with
  | [] => None
  | e :: es' =>
      if decide (e.1 = k) then
        match i with
        | O => Some (e, es')
        | S i' =>
            match pick k i' es' with
            | Some (x, rest) => Some (x, e :: rest)
            | None => None
            end
        end
      else
        match pick k i es' with
        | Some (x, rest) => Some (x, e :: rest)
        | None => None
        end
  end.

(** The entries [es] in the order [order] asks for: for each [(k, i)] of
    [order] in turn, entry number [i] among the entries under [k] that have
    not been produced yet, if there is one; and then the entries that are
    left. *)
Fixpoint rangeBy (order : list (K * nat)) (es : list (K * ptr))
    : list (K * ptr) :=
  match order with
  | [] => es
  | (k, i) :: order' =>
      match pick k i es with
      | Some (e, rest) => e :: rangeBy order' rest
      | None => rangeBy order' es
      end
  end.

(** The order in which [range c.items] produces the entries is the
    runtime's choice; [order] is that choice, and every order of the
    entries is the choice of some [order] ([rangeBy_complete]).  Under a
    key that is equal to itself there is one entry, number 0; among the
    entries under a key that is not, the number chooses. *)
Definition rangeOrder (order : list (K * nat)) (m : GoMap) : list (K * ptr) :=
  rangeBy order (map_to_list (keyed m) ++ loose m).

(** The loop of [Purge] over the entries still to be produced.  The body
    deletes no entry but the one just produced, so every entry the map had
    when the loop began is produced. *)
Fixpoint purgeRange (es : list (K * ptr)) : M unit :=
  match es with
  | [] => mret tt
  | (k, v) :: es' =>
      cb ← gets (λ s, onEvictCall (cache s));
      (if decide (cb ≠ None) then
         ent ← asEntry v;
         x ← deref ent;
         call cb k (value x)
       else mret tt);;
      delete_item k;;
      purgeRange es'
  end.

(** The choice that produces the entries under the keys [ks] in turn. *)
Definition inTurn (ks : list K) : list (K * nat) := (λ k, (k, O)) <$> ks.

(** [func (c *TimedCache) Purge()] *)
Definition Purge (order : list (K * nat)) : M unit :=
  m ← gets (λ s, items (cache s));
  purgeRange (rangeOrder order m);;
  List_Init.

(** [func (c *TimedCache) Add(key, value interface{}) bool]: [now] is read by
    the sweep, [now'] when the entry is built. *)
Definition Add (now now' : Z) (k : K) (v : V) : M bool :=
  purgeExpired now;;
  m ← gets (λ s, items (cache s));
  match m !! k with
  | Some _ => mret false
  | None =>
      e ← List_PushFront (Some (mk_entry now' k v));
      modify (λ s, set_items (<[k := e]> (items (cache s))) s);;
      mret true
  end.

(** [func (c *TimedCache) Update(key, value interface{}) bool] *)
Definition Update (now now' : Z) (k : K) (v : V) : M bool :=
  purgeExpired now;;
  m ← gets (λ s, items (cache s));
  match m !! k with
  | Some ent =>
      List_MoveToFront ent;;
      x ← asEntry ent; x ← deref x;
      wr_Value ent (Some (mk_entry (tm x) (key x) v));;
      x ← asEntry ent; x ← deref x;
      wr_Value ent (Some (mk_entry now' (key x) (value x)));;
      mret true
  | None => mret false
  end.

(** [func (c *TimedCache) Get(key interface{}) (interface{}, bool)] *)
Definition Get (now now' : Z) (k : K) : M (option V * bool) :=
  purgeExpired now;;
  m ← gets (λ s, items (cache s));
  match m !! k with
  | Some ent =>
      List_MoveToFront ent;;
      x ← asEntry ent;
      match x with
      | None => mret (None, false)
      | Some _ =>
          x ← asEntry ent; x ← deref x;
          wr_Value ent (Some (mk_entry now' (key x) (value x)));;
          x ← asEntry ent; x ← deref x;
          mret (Some (value x), true)
      end
  | None => mret (None, false)
  end.

(** [func (c *TimedCache) Contains(key interface{}) bool] *)
Definition Contains (now : Z) (k : K) : M bool :=
  purgeExpired now;;
  m ← gets (λ s, items (cache s));
  mret (bool_decide (is_Some (m !! k))).

(** [func (c *TimedCache) Peek(key interface{}) (interface{}, bool)] *)
Definition Peek (now : Z) (k : K) : M (option V * bool) :=
  purgeExpired now;;
  m ← gets (λ s, items (cache s));
  match m !! k with
  | Some ent =>
      x ← asEntry ent; x ← deref x;
      mret (Some (value x), true)
  | None => mret (None, false)
  end.

(** [func (c *TimedCache) Remove(key interface{}) bool] *)
Definition Remove (now : Z) (k : K) : M bool :=
  purgeExpired now;;
  m ← gets (λ s, items (cache s));
  match m !! k with
  | Some ent => removeElement ent;; mret true
  | None => mret false
  end.


(** The loop of [Keys]: [keys[i] = ...; i++] from [e] towards the front.
    A slot of the slice is [None] while it holds the nil interface. *)
Fixpoint keysLoop (fuel : nat) (e : ptr) (i : nat) (keys : list (option K))
    : M (list (option K)) :=
  match e with
  | Nil => mret keys
  | _ =>
      match fuel with
      | O => timeout
      | S fuel' =>
          ent ← asEntry e;
          x ← deref ent;
          if decide (i < length keys)%nat then
            e' ← Element_Prev e;
            keysLoop fuel' e' (S i) (<[i := Some (key x)]> keys)
          else panic
      end
  end.

(** [func (c *TimedCache) Keys() []interface{}]: the slice is made with
    [len(c.items)] slots.  The body runs at most [len(c.items)] times before
    the index leaves the slice, which bounds the loop. *)
Definition Keys (now : Z) : M (list (option K)) :=
  purgeExpired now;;
  m ← gets (λ s, items (cache s));
  e ← List_Back;
  keysLoop (S (size m)) e O (replicate (size m) None).

(** [func (c *TimedCache) Len() int] *)
Definition Len (now : Z) : M Z :=
  purgeExpired now;;
  List_Len.

(** The loop of [Print], collecting what it prints. *)
Fixpoint printLoop (fuel : nat) (e : ptr) : M (list entry) :=
  match e with
  | Nil => mret []
  | _ =>
      match fuel with
      | O => timeout
      | S fuel' =>
          ent ← asEntry e;
          x ← deref ent;
          e' ← Element_Next e;
          rest ← printLoop fuel' e';
          mret (x :: rest)
      end
  end.

(** [func (c *TimedCache) Print()]: the lines printed, front to back, each
    as the entry it shows. *)
Definition Print : M (list entry) :=
  n ← rd_len;
  e ← List_Front;
  printLoop (S (Z.to_nat n)) e.

End Cache.

(** ** Specification vocabulary *)

Section Vocabulary.

Context {K : Type} `{Countable K} `{!GoKey K} {V W : Type}.

Local Abbreviation State := (State (K:=K) (V:=V) (W:=W)).
Local Abbreviation M := (M (K:=K) (V:=V) (W:=W)).
Local Abbreviation entry := (entry (K:=K) (V:=V)).

(** [m], run from [s], returns normally, and [Q] holds of what it returns. *)
Definition wp {A} (m : M A) (s : State) (Q : A → State → Prop) : Prop :=
  match m s with
  | Ok (a, s') => Q a s'
  | _ => False
  end.

(** [m], run from [s], does not exhaust the loop budget, and [Q] holds of
    what it returns if it returns. *)
Definition wlp {A} (m : M A) (s : State) (Q : A → State → Prop) : Prop :=
  match m s with
  | Ok (a, s') => Q a s'
  | Panic => True
  | Timeout => False
  end.

Definition nextP (s : State) (p : ptr) : option ptr := next <$> elemP s p.
Definition prevP (s : State) (p : ptr) : option ptr := prev <$> elemP s p.
Definition listP (s : State) (p : ptr) : option lref := elist <$> elemP s p.
Definition valP (s : State) (p : ptr) : option (option entry) :=
  Value <$> elemP s p.

(** A field of every cell after one assignment through [p]. *)
Definition fupd {A} (p : ptr) (x : A) (f : ptr → option A) : ptr → option A :=
  λ r, if decide (r = p) then Some x else f r.

(** [s] is [s0] with the four fields of the cells and the length of the
    list replaced by the given ones. *)
Record Views (s0 s : State) (n p : ptr → option ptr) (l : ptr → option lref)
    (v : ptr → option (option entry)) (k : Z) : Prop := mk_Views {
  vw_next : ∀ r, nextP s r = n r;
  vw_prev : ∀ r, prevP s r = p r;
  vw_list : ∀ r, listP s r = l r;
  vw_val : ∀ r, valP s r = v r;
  vw_len : len (evictList (cache s)) = k;
  vw_items : items (cache s) = items (cache s0);
  vw_duration : duration (cache s) = duration (cache s0);
  vw_cb : onEvictCall (cache s) = onEvictCall (cache s0);
  vw_brk : brk s = brk s0;
  vw_world : world s = world s0
}.

(** The pointer that precedes the end of [l] when [l] is entered from [p]. *)
Fixpoint lastp (p : ptr) (l : list addr) : ptr :=
  match l with
  | [] => p
  | a :: l' => lastp (Elem a) l'
  end.

(** The pointer that opens [l] when [l] is followed by [q]. *)
Definition headp (l : list addr) (q : ptr) : ptr :=
  match l with
  | [] => q
  | a :: _ => Elem a
  end.

(** The cells at [l] are doubly linked, in this order, between [p] and [q]. *)
Fixpoint seg (s : State) (p : ptr) (l : list addr) (q : ptr) : Prop :=
  match l with
  | [] => nextP s p = Some q ∧ prevP s q = Some p
  | a :: l' =>
      nextP s p = Some (Elem a) ∧ prevP s (Elem a) = Some p ∧
      seg s (Elem a) l' q
  end.

(** The list object is a well-formed ring through the sentinel whose
    elements, front to back, are the cells at [ls]. *)
Record LRep (ls : list addr) (s : State) : Prop := mk_LRep {
  lr_nodup : NoDup ls;
  lr_seg : seg s Root ls Root;
  lr_elem : ∀ a, a ∈ ls → listP s (Elem a) = Some EvictList;
  lr_fresh : ∀ a, (brk s ≤ a)%nat → nextP s (Elem a) = None;
  lr_len : len (evictList (cache s)) = Z.of_nat (length ls)
}.

(** The cache is well formed over [ls]: the list is, every element carries
    an entry, and [items] maps exactly the keys of those entries that are
    equal to themselves, each to its element.  Under the other keys it has
    an entry for every element of the list, and may have entries for
    elements that have left the list; all of them point to cells that carry
    an entry with their key, no two to the same cell. *)
Record Rep (ls : list addr) (s : State) : Prop := mk_Rep {
  rep_list : LRep ls s;
  rep_vals : ∀ a, a ∈ ls → ∃ x, valP s (Elem a) = Some (Some x);
  rep_items : ∀ k p, keyed (items (cache s)) !! k = Some p ↔
               ∃ a x, p = Elem a ∧ a ∈ ls ∧
                      valP s (Elem a) = Some (Some x) ∧ key x = k ∧
                      selfEqual k = true;
  rep_loose : ∀ k p, (k, p) ∈ loose (items (cache s)) →
               ∃ a x, p = Elem a ∧ valP s (Elem a) = Some (Some x) ∧
                      key x = k ∧ selfEqual k = false;
  rep_listed : ∀ a x, a ∈ ls → valP s (Elem a) = Some (Some x) →
               selfEqual (key x) = false →
               (key x, Elem a) ∈ loose (items (cache s));
  rep_apart : NoDup (loose (items (cache s))).*2
}.

Definition wf (s : State) : Prop := ∃ ls, Rep ls s.

(** What every call preserves. *)
Definition Kept (s s' : State) : Prop :=
  wf s' ∧ duration (cache s') = duration (cache s) ∧
  onEvictCall (cache s') = onEvictCall (cache s) ∧
  (onEvictCall (cache s) = None → world s' = world s).

(** [s'] differs from [s] at most in the links of the list and its length. *)
Record Frame (s s' : State) : Prop := mk_Frame {
  fr_val : ∀ r, valP s' r = valP s r;
  fr_items : items (cache s') = items (cache s);
  fr_duration : duration (cache s') = duration (cache s);
  fr_cb : onEvictCall (cache s') = onEvictCall (cache s);
  fr_brk : brk s' = brk s;
  fr_world : world s' = world s
}.

(** The entries carried by the cells at [ls], in order. *)
Definition Ents (s : State) (ls : list addr) (xs : list entry) : Prop :=
  Forall2 (λ a x, valP s (Elem a) = Some (Some x)) ls xs.

(** The pointer a traversal holds when the cells at [l] are still ahead. *)
Definition optp (l : list addr) : ptr :=
  match l with
  | [] => Nil
  | a :: _ => Elem a
  end.

(** The world after the eviction callback, if there is one, has been called
    on [(k, v)]. *)
Definition fire (cb : option EvictCallback) (k : K) (v : V) (w : W) : W :=
  match cb with
  | Some f => f k v w
  | None => w
  end.

(** The age of an entry as the sweep computes it. *)
Definition age (now : Z) (x : entry) : Z := sub64 now (tm x).

(** An entry is expired at [now] for the duration [d]. *)
Definition expired (now d : Z) (x : entry) : Prop := age now x > d.

(** What one run of the sweep at [now] makes of a well-formed cache over
    [ls]: nothing when the list is empty or its back entry is not expired;
    otherwise the back entry, and nothing else, is gone from list and map
    and the callback has been called on it. *)
Definition SweepPost (now : Z) (ls : list addr) (s : State)
    (ls' : list addr) (s' : State) : Prop :=
  (ls = [] ∧ ls' = [] ∧ s' = s) ∨
  ∃ l1 a x, ls = l1 ++ [a] ∧ valP s (Elem a) = Some (Some x) ∧
    ((¬ expired now (duration (cache s)) x ∧ ls' = ls ∧ s' = s) ∨
     (expired now (duration (cache s)) x ∧ ls' = l1 ∧
      (∀ r, valP s' r = valP s r) ∧
      items (cache s') = delete (key x) (items (cache s)) ∧
      duration (cache s') = duration (cache s) ∧
      onEvictCall (cache s') = onEvictCall (cache s) ∧
      brk s' = brk s ∧
      world s' = fire (onEvictCall (cache s)) (key x) (value x) (world s))).

(** The entries of the recency list from front to back, as [Print] shows
    them. *)
Definition contents (s : State) : list entry :=
  match Print s with
  | Ok (l, _) => l
  | _ => []
  end.

(** A call of the public interface, with the clock readings it makes and,
    for [Purge], the order the runtime ranges over the map in. *)
Inductive Op : Type :=
| OpAdd (now now' : Z) (k : K) (v : V)
| OpUpdate (now now' : Z) (k : K) (v : V)
| OpGet (now now' : Z) (k : K)
| OpContains (now : Z) (k : K)
| OpPeek (now : Z) (k : K)
| OpRemove (now : Z) (k : K)
| OpKeys (now : Z)
| OpLen (now : Z)
| OpPurge (order : list (K * nat))
| OpPurgeExpired (now : Z).

Definition exec (o : Op) : M unit :=
  match o with
  | OpAdd now now' k v => Add now now' k v;; mret tt
  | OpUpdate now now' k v => Update now now' k v;; mret tt
  | OpGet now now' k => Get now now' k;; mret tt
  | OpContains now k => Contains now k;; mret tt
  | OpPeek now k => Peek now k;; mret tt
  | OpRemove now k => Remove now k;; mret tt
  | OpKeys now => Keys now;; mret tt
  | OpLen now => Len now;; mret tt
  | OpPurge order => Purge order
  | OpPurgeExpired now => PurgeExpired now
  end.

(** A sequence of calls, one after the other. *)
Fixpoint run (ops : list Op) (s : State) : Res State :=
  match ops with
  | [] => Ok s
  | o :: ops' =>
      match exec o s with
      | Ok (_, s') => run ops' s'
      | Panic => Panic
      | Timeout => Timeout
      end
  end.

(** The states the public interface can bring a new cache to. *)
Definition reachable (s : State) : Prop :=
  ∃ d cb w ops, run ops (NewTimedCache d cb w) = Ok s.

(** [op] begins with the sweep: at every clock reading and from every
    state it does what the sweep followed by some logic of its own does. *)
Definition sweeps_first {A} (op : Z → M A) : Prop :=
  ∃ rest : M A, ∀ now s, op now s = (purgeExpired now ≫= λ _, rest) s.

(** The state a sequence of calls leaves ([s] itself if it does not
    return). *)
Definition state_after (ops : list Op) (s : State) : State :=
  match run ops s with
  | Ok s' => s'
  | _ => s
  end.

(** The clock readings a call makes, in the order it makes them. *)
Definition readings (o : Op) : list Z :=
  match o with
  | OpAdd now now' _ _ => [now; now']
  | OpUpdate now now' _ _ => [now; now']
  | OpGet now now' _ => [now; now']
  | OpContains now _ => [now]
  | OpPeek now _ => [now]
  | OpRemove now _ => [now]
  | OpKeys now => [now]
  | OpLen now => [now]
  | OpPurge _ => []
  | OpPurgeExpired now => [now]
  end.

(** The readings [ts] start at [lo] or later, never go back, and are
    values [time.Now().Unix()] can have without the subtraction of the
    sweep wrapping around. *)
Fixpoint ticking (lo : Z) (ts : list Z) : Prop :=
  match ts with
  | [] => True
  | t :: ts' => lo ≤ t < 2 ^ 63 ∧ ticking t ts'
  end.

(** The calls [ops] are made under a clock that starts at 0 or later and
    never goes back. *)
Definition clocked (ops : list Op) : Prop := ticking 0 (ops ≫= readings).

(** The last of the readings [ts], [lo] if there is none. *)
Definition lastTick (lo : Z) (ts : list Z) : Z := foldl (λ _ t, t) lo ts.

(** From front to back the stamps of [xs] do not increase, and they lie
    between 0 and [hi]. *)
Fixpoint newestFirst (hi : Z) (xs : list entry) : Prop :=
  match xs with
  | [] => True
  | x :: rest => 0 ≤ tm x ≤ hi ∧ newestFirst (tm x) rest
  end.

(** The world after the callback has been called on the entry [x]. *)
Definition notify (cb : option EvictCallback) (w : W) (x : entry) : W :=
  fire cb (key x) (value x) w.

(** The entry behind a pointer that the map holds. *)
Definition entryAt (s : State) (p : ptr) : option entry :=
  match valP s p with
  | Some (Some x) => Some x
  | _ => None
  end.

(** What the body of [Purge] does to the world when [range] produces the
    entry [e] of the map in the state [s]. *)
Definition notifyItem (s : State) (w : W) (e : K * ptr) : W :=
  match entryAt s e.2 with
  | Some x => fire (onEvictCall (cache s)) e.1 (value x) w
  | None => w
  end.



(** [PurgeExpired] called [n] times in a row within the second [now]. *)
Fixpoint sweeps (n : nat) (now : Z) : M unit :=
  match n with
  | O => mret tt
  | S n' => PurgeExpired now;; sweeps n' now
  end.

End Vocabulary.

(** ** The demonstration program (package main) *)

(** The keys of the demonstration are integers, each equal to itself. *)
Global Instance Z_GoKey : GoKey Z := λ _, true.

(** [purgeCall] prints the pair it is given; the world is what has been
    printed. *)
Definition purgeCall :
    EvictCallback (K:=Z) (V:=string) (W:=list (Z * string)) :=
  λ k v out, out ++ [(k, v)].

(** [tc := timed_cache.NewTimedCache(4, purgeCall)] *)
Definition tc : State (K:=Z) (V:=string) (W:=list (Z * string)) :=
  NewTimedCache 4 (Some purgeCall) [].

(** The four calls of [Add] of [main], two seconds apart. *)
Definition fourAdds : list (Op (K:=Z) (V:=string)) :=
  [OpAdd 0 0 1 "a"; OpAdd 2 2 2 "b"; OpAdd 4 4 3 "c"; OpAdd 6 6 4 "d"].

(** Two entries put in within the same second. *)
Definition twoAdds : list (Op (K:=Z) (V:=string)) :=
  [OpAdd 0 0 1 "a"; OpAdd 0 0 2 "b"].

(** Two entries one second apart. *)
Definition twoAddsApart : list (Op (K:=Z) (V:=string)) :=
  [OpAdd 0 0 1 "a"; OpAdd 1 1 2 "b"].

(** An entry that has expired at time 6 behind one that has not. *)
Definition oldAndNew : list (Op (K:=Z) (V:=string)) :=
  [OpAdd 0 0 1 "a"; OpAdd 4 4 2 "b"].

(** A cache of duration zero holding one entry put in at time 5. *)
Definition zeroDuration : State (K:=Z) (V:=string) (W:=list (Z * string)) :=
  state_after [OpAdd 5 5 1 "a"] (NewTimedCache 0 (Some purgeCall) []).

(** A cache without callback holding two entries. *)
Definition noCallback : State (K:=Z) (V:=string) (W:=list (Z * string)) :=
  state_after twoAdds (NewTimedCache 4 None []).

(** [float64] keys: the integers among them, and NaN. *)
Inductive float64 : Type :=
| Num (z : Z)
| NaN.

Global Instance float64_eq_dec : EqDecision float64.
Proof. solve_decision. Defined.

Global Instance float64_countable : Countable float64 :=
  inj_countable'
    (λ x, match x with Num z => Some z | NaN => None end)
    (λ o, match o with Some z => Num z | None => NaN end)
    (λ x, match x with Num _ => eq_refl | NaN => eq_refl end).

(** [x == x] on [float64] *)
Global Instance float64_GoKey : GoKey float64 :=
  λ x, match x with Num _ => true | NaN => false end.

(** A callback that prints the pair it is given. *)
Definition printCall :
    EvictCallback (K:=float64) (V:=string) (W:=list (float64 * string)) :=
  λ k v out, out ++ [(k, v)].

(** [timed_cache.NewTimedCache(4, printCall)], its keys of type [float64] *)
Definition tcFloat :
    State (K:=float64) (V:=string) (W:=list (float64 * string)) :=
  NewTimedCache 4 (Some printCall) [].

(** Two entries put in under the key NaN within the same second. *)
Definition twoNaNs : list (Op (K:=float64) (V:=string)) :=
  [OpAdd 0 0 NaN "a"; OpAdd 0 0 NaN "b"].


(** The cache holding those two entries. *)
Definition nanCache :
    State (K:=float64) (V:=string) (W:=list (float64 * string)) :=
  state_after twoNaNs tcFloat.

(** ** Rules for runs *)

Section WpRules.

Context {K : Type} `{Countable K} `{!GoKey K} {V W : Type}.

Local Abbreviation State := (State (K:=K) (V:=V) (W:=W)).
Local Abbreviation M := (M (K:=K) (V:=V) (W:=W)).
Local Abbreviation Element := (Element (K:=K) (V:=V)).
Local Abbreviation entry := (entry (K:=K) (V:=V)).

Lemma wp_ok {A} (m : M A) s Q :
  wp m s Q ↔ ∃ a s', m s = Ok (a, s') ∧ Q a s'.
Proof.
  unfold wp. destruct (m s) as [[a s']| |]; split.
  - eauto.
  - by intros (? & ? & [= <- <-] & ?).
  - done.
  - by intros (? & ? & ? & ?).
  - done.
  - by intros (? & ? & ? & ?).
Qed.

Lemma wp_mono {A} (m : M A) s (Q Q' : A → State → Prop) :
  wp m s Q → (∀ a s', Q a s' → Q' a s') → wp m s Q'.
Proof. unfold wp. destruct (m s) as [[a s']| |]; eauto. Qed.

Lemma wp_ret {A} (a : A) s (Q : A → State → Prop) : Q a s → wp (mret a) s Q.
Proof. done. Qed.

Lemma wp_bind {A B} (m : M A) (f : A → M B) s (Q : B → State → Prop) :
  wp m s (λ a s', wp (f a) s' Q) → wp (m ≫= f) s Q.
Proof.
  unfold wp, mbind, M_bind, bind. by destruct (m s) as [[a s']| |].
Qed.

Lemma wp_bind_inv {A B} (m : M A) (f : A → M B) s (Q : B → State → Prop) :
  wp (m ≫= f) s Q → wp m s (λ a s', wp (f a) s' Q).
Proof.
  unfold wp, mbind, M_bind, bind. by destruct (m s) as [[a s']| |].
Qed.

Lemma wp_gets {A} (f : State → A) s (Q : A → State → Prop) :
  Q (f s) s → wp (gets f) s Q.
Proof. done. Qed.

Lemma wp_modify (f : State → State) s (Q : unit → State → Prop) :
  Q tt (f s) → wp (modify f) s Q.
Proof. done. Qed.

Lemma wp_read {A} (f : State → option A) s a (Q : A → State → Prop) :
  f s = Some a → Q a s → wp (read f) s Q.
Proof. unfold wp, read. by intros ->. Qed.

Lemma wp_write (f : State → option State) s s' (Q : unit → State → Prop) :
  f s = Some s' → Q tt s' → wp (write f) s Q.
Proof. unfold wp, write. by intros ->. Qed.

(** What a write through [p] leaves behind. *)
Lemma updElem_Some p (f : Element → Element) (s : State) e :
  elemP s p = Some e →
  ∃ s', updElem p f s = Some s' ∧
    (∀ r, elemP s' r = if decide (r = p) then Some (f e) else elemP s r) ∧
    len (evictList (cache s')) = len (evictList (cache s)) ∧
    items (cache s') = items (cache s) ∧
    duration (cache s') = duration (cache s) ∧
    onEvictCall (cache s') = onEvictCall (cache s) ∧
    brk s' = brk s ∧ world s' = world s.
Proof.
  destruct p as [| |a]; simpl; intros He; [done| |].
  - injection He as <-. eexists; split; [done|]. split; [|done].
    intros [| |b]; by repeat case_decide.
  - rewrite He. eexists; split; [done|]. split; [|done].
    intros [| |b]; simpl; repeat case_decide; simplify_eq; try done.
    + by rewrite lookup_insert_eq.
    + rewrite lookup_insert_ne; [done|congruence].
Qed.

Implicit Types (s : State) (p q r : ptr).

Lemma elemP_nextP s p : is_Some (nextP s p) ↔ is_Some (elemP s p).
Proof. unfold nextP. by rewrite fmap_is_Some. Qed.

Lemma Views_refl s :
  Views s s (nextP s) (prevP s) (listP s) (valP s) (len (evictList (cache s))).
Proof. by split. Qed.

Lemma wp_asEntry s a x (Q : option entry → State → Prop) :
  valP s (Elem a) = Some x → Q x s → wp (asEntry (Elem a)) s Q.
Proof. intros Hx HQ. by eapply wp_read. Qed.

Lemma wp_deref s x (Q : entry → State → Prop) :
  Q x s → wp (deref (Some x)) s Q.
Proof. done. Qed.

Section Chain.

Context (s0 s : State) (n p : ptr → option ptr) (l : ptr → option lref)
  (v : ptr → option (option entry)) (k : Z).
Context (Hv : Views s0 s n p l v k).

Lemma wp_rd_next x q (Q : ptr → State → Prop) :
  n x = Some q → Q q s → wp (rd_next x) s Q.
Proof.
  intros Hx. apply wp_read. by rewrite <-(vw_next _ _ _ _ _ _ _ Hv) in Hx.
Qed.

Lemma wp_rd_prev x q (Q : ptr → State → Prop) :
  p x = Some q → Q q s → wp (rd_prev x) s Q.
Proof.
  intros Hx. apply wp_read. by rewrite <-(vw_prev _ _ _ _ _ _ _ Hv) in Hx.
Qed.

Lemma wp_rd_list x y (Q : lref → State → Prop) :
  l x = Some y → Q y s → wp (rd_list x) s Q.
Proof.
  intros Hx. apply wp_read. by rewrite <-(vw_list _ _ _ _ _ _ _ Hv) in Hx.
Qed.

Lemma wp_rd_Value x y (Q : option entry → State → Prop) :
  v x = Some y → Q y s → wp (rd_Value x) s Q.
Proof.
  intros Hx. apply wp_read. by rewrite <-(vw_val _ _ _ _ _ _ _ Hv) in Hx.
Qed.

Lemma wp_rd_len (Q : Z → State → Prop) : Q k s → wp rd_len s Q.
Proof. intros HQ. apply wp_gets. by rewrite (vw_len _ _ _ _ _ _ _ Hv). Qed.

Lemma wp_wr_len k' (Q : unit → State → Prop) :
  (∀ s', Views s0 s' n p l v k' → Q tt s') → wp (wr_len k') s Q.
Proof. intros HQ. apply wp_modify, HQ. by destruct Hv. Qed.

Lemma wp_wr_field x (f : Element → Element) (Q : unit → State → Prop) :
  is_Some (n x) →
  (∀ s' e, elemP s x = Some e →
     (∀ r, elemP s' r = if decide (r = x) then Some (f e) else elemP s r) →
     Views s0 s' (nextP s') (prevP s') (listP s') (valP s') k → Q tt s') →
  wp (write (updElem x f)) s Q.
Proof.
  intros Hx HQ. rewrite <-(vw_next _ _ _ _ _ _ _ Hv), elemP_nextP in Hx.
  destruct Hx as [e He].
  destruct (updElem_Some x f s e He) as (s' & Hu & Hs' & ? & ? & ? & ? & ? & ?).
  eapply wp_write; [done|]. apply (HQ s' e); [done..|].
  destruct Hv. split; try done; congruence.
Qed.

Lemma wp_wr_next x q (Q : unit → State → Prop) :
  is_Some (n x) →
  (∀ s', Views s0 s' (fupd x q n) p l v k → Q tt s') →
  wp (wr_next x q) s Q.
Proof.
  intros Hx HQ. apply wp_wr_field; [done|]. intros s' e He Hs' Hv'.
  apply HQ. destruct Hv, Hv'. split; try done; intros r;
    unfold nextP, prevP, listP, valP, fupd in *; rewrite Hs';
    case_decide; subst; rewrite ?He; simpl; try done.
  - by rewrite <-vw_prev0, He.
  - by rewrite <-vw_list0, He.
  - by rewrite <-vw_val0, He.
Qed.

Lemma wp_wr_prev x q (Q : unit → State → Prop) :
  is_Some (n x) →
  (∀ s', Views s0 s' n (fupd x q p) l v k → Q tt s') →
  wp (wr_prev x q) s Q.
Proof.
  intros Hx HQ. apply wp_wr_field; [done|]. intros s' e He Hs' Hv'.
  apply HQ. destruct Hv, Hv'. split; try done; intros r;
    unfold nextP, prevP, listP, valP, fupd in *; rewrite Hs';
    case_decide; subst; rewrite ?He; simpl; try done.
  - by rewrite <-vw_next0, He.
  - by rewrite <-vw_list0, He.
  - by rewrite <-vw_val0, He.
Qed.

Lemma wp_wr_list x y (Q : unit → State → Prop) :
  is_Some (n x) →
  (∀ s', Views s0 s' n p (fupd x y l) v k → Q tt s') →
  wp (wr_list x y) s Q.
Proof.
  intros Hx HQ. apply wp_wr_field; [done|]. intros s' e He Hs' Hv'.
  apply HQ. destruct Hv, Hv'. split; try done; intros r;
    unfold nextP, prevP, listP, valP, fupd in *; rewrite Hs';
    case_decide; subst; rewrite ?He; simpl; try done.
  - by rewrite <-vw_next0, He.
  - by rewrite <-vw_prev0, He.
  - by rewrite <-vw_val0, He.
Qed.

Lemma wp_wr_Value x y (Q : unit → State → Prop) :
  is_Some (n x) →
  (∀ s', Views s0 s' n p l (fupd x y v) k → Q tt s') →
  wp (wr_Value x y) s Q.
Proof.
  intros Hx HQ. apply wp_wr_field; [done|]. intros s' e He Hs' Hv'.
  apply HQ. destruct Hv, Hv'. split; try done; intros r;
    unfold nextP, prevP, listP, valP, fupd in *; rewrite Hs';
    case_decide; subst; rewrite ?He; simpl; try done.
  - by rewrite <-vw_next0, He.
  - by rewrite <-vw_prev0, He.
  - by rewrite <-vw_list0, He.
Qed.

End Chain.

End WpRules.

(** ** The loop budget of the sweep *)

Section Budget.

Context {K : Type} `{Countable K} `{!GoKey K} {V W : Type}.

Local Abbreviation State := (State (K:=K) (V:=V) (W:=W)).
Local Abbreviation M := (M (K:=K) (V:=V) (W:=W)).
Local Abbreviation Element := (Element (K:=K) (V:=V)).

Implicit Types (s : State) (e p : ptr).

Lemma sub64_exact a b : in_int64 (a - b) → sub64 a b = a - b.
Proof.
  unfold in_int64, sub64, wrap64. intros Hr.
  rewrite Z.mod_small by lia. lia.
Qed.

Lemma wlp_bind {A B} (m : M A) (f : A → M B) s (Q : B → State → Prop) :
  wlp m s (λ a s', wlp (f a) s' Q) → wlp (m ≫= f) s Q.
Proof.
  unfold wlp, mbind, M_bind, bind. by destruct (m s) as [[a s']| |].
Qed.

Lemma wlp_mono {A} (m : M A) s (Q Q' : A → State → Prop) :
  wlp m s Q → (∀ a s', Q a s' → Q' a s') → wlp m s Q'.
Proof. unfold wlp. destruct (m s) as [[a s']| |]; eauto. Qed.

Lemma wlp_ret {A} (a : A) s (Q : A → State → Prop) : Q a s → wlp (mret a) s Q.
Proof. done. Qed.

Lemma wlp_gets {A} (f : State → A) s (Q : A → State → Prop) :
  Q (f s) s → wlp (gets f) s Q.
Proof. done. Qed.

Lemma wlp_modify (f : State → State) s (Q : unit → State → Prop) :
  Q tt (f s) → wlp (modify f) s Q.
Proof. done. Qed.

Lemma wlp_read {A} (f : State → option A) s (Q : A → State → Prop) :
  (∀ a, f s = Some a → Q a s) → wlp (read f) s Q.
Proof. unfold wlp, read. destruct (f s); auto. Qed.

Lemma wlp_write (f : State → option State) s (Q : unit → State → Prop) :
  (∀ s', f s = Some s' → Q tt s') → wlp (write f) s Q.
Proof. unfold wlp, write. destruct (f s); auto. Qed.

Lemma updElem_inv p (f : Element → Element) s s' :
  updElem p f s = Some s' →
  ∃ x, elemP s p = Some x ∧
    ∀ r, elemP s' r = if decide (r = p) then Some (f x) else elemP s r.
Proof.
  intros Hu. destruct (elemP s p) as [x|] eqn:Hx.
  - destruct (updElem_Some p f s x Hx) as (s'' & Hu' & He & _).
    assert (s'' = s') as -> by congruence.
    exists x. by split.
  - destruct p as [| |a]; simpl in *; [done..|]. by rewrite Hx in Hu.
Qed.

(** Whatever the state, an element that [l.remove] returns from is in no
    list any more. *)
Lemma List_remove_detaches e s :
  wlp (List_remove e) s (λ _ s', listP s' e = Some NoList).
Proof.
  unfold List_remove.
  apply wlp_bind, wlp_read. intros p _.
  apply wlp_bind, wlp_read. intros n _.
  apply wlp_bind, wlp_write. intros s1 _.
  apply wlp_bind, wlp_read. intros n' _.
  apply wlp_bind, wlp_read. intros p' _.
  apply wlp_bind, wlp_write. intros s2 _.
  apply wlp_bind, wlp_write. intros s3 _.
  apply wlp_bind, wlp_write. intros s4 _.
  apply wlp_bind, wlp_write. intros s5 (x & _ & He)%updElem_inv.
  apply wlp_bind, wlp_gets, wlp_modify. unfold listP.
  assert (elemP (set_len (len (evictList (cache s5)) - 1) s5) e = elemP s5 e)
    as -> by (by destruct e).
  rewrite He. by rewrite decide_True.
Qed.

Lemma List_Remove_detaches e s :
  wlp (List_Remove e) s (λ _ s', listP s' e = Some NoList).
Proof.
  unfold List_Remove. apply wlp_bind, wlp_read. intros l Hl.
  apply wlp_bind. destruct (decide (l = EvictList)) as [->|Hne].
  - eapply wlp_mono; [apply List_remove_detaches|].
    intros [] s' Hs'. by apply wlp_read.
  - apply wlp_ret, wlp_read. intros _ _.
    unfold listP. rewrite Hl. by destruct l.
Qed.

Lemma removeElement_detaches e s :
  wlp (removeElement e) s (λ _ s', listP s' e = Some NoList).
Proof.
  unfold removeElement. apply wlp_bind.
  eapply wlp_mono; [apply List_Remove_detaches|]. intros ? s1 Hs1.
  apply wlp_bind.
  assert (wlp (asEntry e) s1 (λ _ s', s' = s1)) as Has.
  { destruct e; [|done|]; by apply wlp_read. }
  eapply wlp_mono; [exact Has|]. intros kv ? ->.
  destruct kv as [x|]; [|done]. apply wlp_bind, wlp_ret.
  apply wlp_bind, wlp_modify. apply wlp_bind, wlp_gets.
  destruct (decide _) as [Hcb|Hcb]; [|by destruct e].
  unfold call. simpl. destruct (onEvictCall (cache s1)); [|done].
  apply wlp_modify. by destruct e.
Qed.

(** Whatever the state, the loop of the sweep is left after at most one
    removal: the element it has removed has no predecessor to offer. *)
Lemma purgeLoop_budget fuel now e s :
  wlp (purgeLoop (S fuel) now e) s (λ _ _, True).
Proof.
  destruct e as [| |a]; [done|done|]. simpl.
  apply wlp_bind, wlp_read. intros ent _.
  destruct ent as [x|]; [|done]. apply wlp_bind, wlp_ret.
  apply wlp_bind, wlp_gets.
  destruct (decide (sub64 now (tm x) > duration (cache s))); [|done].
  apply wlp_bind.
  eapply wlp_mono; [apply removeElement_detaches|]. intros [] s1 Hs1.
  apply wlp_bind. unfold Element_Prev.
  apply wlp_bind, wlp_read. intros p _.
  apply wlp_bind, wlp_read. intros l Hl.
  assert (l = NoList) as -> by (unfold listP in Hs1; congruence).
  rewrite decide_False by tauto. apply wlp_ret. by destruct fuel.
Qed.

Lemma purgeExpired_budget now s : purgeExpired now s ≠ Timeout.
Proof.
  assert (wlp (purgeExpired now) s (λ _ _, True)) as Hw.
  { unfold purgeExpired. apply wlp_bind, wlp_gets.
    apply wlp_bind. unfold List_Back. apply wlp_bind, wlp_gets.
    destruct (decide (len (evictList (cache s)) = 0)).
    - by apply wlp_ret.
    - apply wlp_read. intros e _. apply purgeLoop_budget. }
  unfold wlp in Hw. intros Heq. by rewrite Heq in Hw.
Qed.

End Budget.

(** Symbolic execution of straight-line code over the fields. *)
Ltac fields := unfold fupd; repeat case_decide; simplify_eq; eauto; done.

Ltac step :=
  lazymatch goal with
  | |- wp (mbind _ _) _ _ => apply wp_bind
  | |- wp (mret _) _ _ => apply wp_ret
  | |- wp (rd_next _) _ _ => eapply wp_rd_next; [eassumption|fields|]
  | |- wp (rd_prev _) _ _ => eapply wp_rd_prev; [eassumption|fields|]
  | |- wp (rd_list _) _ _ => eapply wp_rd_list; [eassumption|fields|]
  | |- wp (rd_Value _) _ _ => eapply wp_rd_Value; [eassumption|fields|]
  | |- wp (asEntry (Elem _)) _ _ => eapply wp_rd_Value; [eassumption|fields|]
  | |- wp (deref (Some _)) _ _ => apply wp_deref
  | |- wp rd_len _ _ => eapply wp_rd_len; [eassumption|]
  | |- wp (wr_len _) _ _ => eapply wp_wr_len; [eassumption|intros ? ?]
  | |- wp (wr_next _ _) _ _ => eapply wp_wr_next; [eassumption|fields|intros ? ?]
  | |- wp (wr_prev _ _) _ _ => eapply wp_wr_prev; [eassumption|fields|intros ? ?]
  | |- wp (wr_list _ _) _ _ => eapply wp_wr_list; [eassumption|fields|intros ? ?]
  | |- wp (wr_Value _ _) _ _ => eapply wp_wr_Value; [eassumption|fields|intros ? ?]
  | |- _ => progress cbv beta
  end.

(** ** Doubly linked segments *)

Section Segments.

Context {K : Type} `{Countable K} `{!GoKey K} {V W : Type}.

Local Abbreviation State := (State (K:=K) (V:=V) (W:=W)).

Implicit Types (s : State) (p q : ptr) (l : list addr).

Lemma lastp_app p l1 l2 : lastp p (l1 ++ l2) = lastp (lastp p l1) l2.
Proof. revert p. induction l1 as [|a l1 IH]; intros p; simpl; auto. Qed.

Lemma lastp_snoc p l a : lastp p (l ++ [a]) = Elem a.
Proof. by rewrite lastp_app. Qed.

Lemma lastp_cases p l :
  (l = [] ∧ lastp p l = p) ∨ (∃ a, a ∈ l ∧ lastp p l = Elem a).
Proof.
  revert p. induction l as [|a l IH]; intros p; simpl; [by left|right].
  destruct (IH (Elem a)) as [[-> ?]|(b & ? & ?)].
  - exists a. split; [left|done].
  - exists b. split; [by right|done].
Qed.

Lemma headp_cases l q :
  (l = [] ∧ headp l q = q) ∨ (∃ a, a ∈ l ∧ headp l q = Elem a).
Proof.
  destruct l as [|a l]; [by left|right]. exists a. split; [left|done].
Qed.

Lemma lastp_cons_ne p a l : NoDup (a :: l) → l ≠ [] → lastp p (a :: l) ≠ Elem a.
Proof.
  intros Hnd Hl. simpl. apply NoDup_cons in Hnd as [Hnin _].
  destruct (lastp_cases (Elem a) l) as [[? ?]|(b & ? & ->)]; [done|].
  intros [= ->]. done.
Qed.

Lemma seg_head s p l q :
  seg s p l q → nextP s p = Some (headp l q) ∧ prevP s (headp l q) = Some p.
Proof. destruct l; simpl; tauto. Qed.

Lemma seg_last s p l q :
  seg s p l q → nextP s (lastp p l) = Some q ∧ prevP s q = Some (lastp p l).
Proof.
  revert p. induction l as [|a l IH]; intros p; simpl; [tauto|].
  intros (_ & _ & Hs). by apply IH.
Qed.

Lemma seg_app s p l1 l2 q :
  seg s p (l1 ++ l2) q ↔ seg s p l1 (headp l2 q) ∧ seg s (lastp p l1) l2 q.
Proof.
  revert p. induction l1 as [|a l1 IH]; intros p; simpl.
  - split; [|tauto]. intros Hs. split; [|done]. by apply seg_head.
  - rewrite IH. tauto.
Qed.

(** A segment survives a change of memory that gives it new ends, provided
    the links in its interior are untouched. *)
Lemma seg_change s s' p p' l q q' :
  seg s p l q →
  NoDup l →
  nextP s' p' = Some (headp l q') →
  prevP s' (headp l q') = Some p' →
  nextP s' (lastp p' l) = Some q' →
  prevP s' q' = Some (lastp p' l) →
  (∀ a, a ∈ l → Elem a ≠ lastp p' l → nextP s' (Elem a) = nextP s (Elem a)) →
  (∀ a, a ∈ l → Elem a ≠ headp l q' → prevP s' (Elem a) = prevP s (Elem a)) →
  seg s' p' l q'.
Proof.
  revert p p'. induction l as [|a l IH]; intros p p'; simpl.
  - tauto.
  - intros (Hn & Hp & Hs) Hnd Hn' Hp' Hln Hlp Hfn Hfp.
    split; [done|]. split; [done|].
    pose proof Hnd as Hnd'. apply NoDup_cons in Hnd' as [Hnin Hndl].
    apply (IH (Elem a)); try done.
    + destruct l as [|c l]; [done|]. simpl headp.
      rewrite Hfn; [by destruct (seg_head _ _ _ _ Hs)|left|].
      intros Heq. by apply (lastp_cons_ne p' a (c :: l)).
    + destruct l as [|c l]; [done|]. simpl headp.
      rewrite Hfp; [by destruct (seg_head _ _ _ _ Hs)|right; left|].
      intros [= ->]. apply Hnin. left.
    + intros b Hb. apply Hfn. by right.
    + intros b Hb Hne. apply Hfp; [by right|].
      intros [= ->]. done.
Qed.

End Segments.

(** ** container/list on the fields of the cells *)

Section ListFields.

Context {K : Type} `{Countable K} `{!GoKey K} {V W : Type}.

Local Abbreviation State := (State (K:=K) (V:=V) (W:=W)).
Local Abbreviation entry := (entry (K:=K) (V:=V)).

Implicit Types (s : State) (e : ptr).

Lemma Views_root s0 s n p l (v : ptr → option (option entry)) k :
  Views s0 s n p l v k → is_Some (n Root).
Proof. intros Hv. rewrite <-(vw_next _ _ _ _ _ _ _ Hv). by eexists. Qed.

Lemma List_Init_views s0 s n p l (v : ptr → option (option entry)) k :
  Views s0 s n p l v k →
  wp List_Init s (λ _ s',
    Views s0 s' (fupd Root Root n) (fupd Root Root p) l v 0).
Proof.
  intros Hv. pose proof (Views_root _ _ _ _ _ _ _ Hv).
  unfold List_Init. repeat step. done.
Qed.

Lemma List_remove_views s0 s n p l (v : ptr → option (option entry)) k e pe ne :
  Views s0 s n p l v k →
  p e = Some pe → n e = Some ne → is_Some (n pe) → is_Some (n ne) →
  wp (List_remove e) s (λ _ s',
    Views s0 s' (fupd e Nil (fupd pe ne n)) (fupd e Nil (fupd ne pe p))
          (fupd e NoList l) v (k - 1)).
Proof.
  intros Hv Hpe Hne Hp Hn. unfold List_remove. repeat step. done.
Qed.

Lemma List_insert_views s0 s n p l (v : ptr → option (option entry)) k e at_ nx :
  Views s0 s n p l v k →
  e ≠ at_ → is_Some (n e) → n at_ = Some nx → is_Some (n nx) →
  wp (List_insert e at_) s (λ r s',
    r = e ∧
    Views s0 s' (fupd at_ e (fupd e nx n)) (fupd nx e (fupd e at_ p))
          (fupd e EvictList l) v (k + 1)).
Proof.
  intros Hv Hne He Hat Hnx. unfold List_insert. repeat step. done.
Qed.

Lemma List_move_views s0 s n p l (v : ptr → option (option entry)) k
    e at_ pe ne nx :
  Views s0 s n p l v k →
  e ≠ at_ → at_ ≠ pe →
  p e = Some pe → n e = Some ne → is_Some (n pe) → is_Some (n ne) →
  n at_ = Some nx → is_Some (n nx) →
  wp (List_move e at_) s (λ _ s',
    Views s0 s' (fupd at_ e (fupd e nx (fupd pe ne n)))
          (fupd nx e (fupd e at_ (fupd ne pe p))) l v k).
Proof.
  intros Hv Hne Hat Hpe Hnxt Hp Hn Hnx Hx. unfold List_move.
  rewrite decide_False by done. repeat step. done.
Qed.

End ListFields.

(** ** container/list on well-formed lists *)

Section ListRep.

Context {K : Type} `{Countable K} `{!GoKey K} {V W : Type}.

Local Abbreviation State := (State (K:=K) (V:=V) (W:=W)).
Local Abbreviation entry := (entry (K:=K) (V:=V)).

Implicit Types (s : State) (ls : list addr).

Lemma elem_of_mid (l1 l2 : list addr) a : a ∈ l1 ++ a :: l2.
Proof. apply elem_of_app. right. left. Qed.

Lemma elem_of_app_mid (l1 l2 : list addr) a b : b ∈ l1 ++ l2 → b ∈ l1 ++ a :: l2.
Proof.
  intros [?|?]%elem_of_app; apply elem_of_app; [by left|right; by right].
Qed.

Lemma elem_of_front_mid (l1 l2 : list addr) a b :
  b ∈ a :: l1 ++ l2 → b ∈ l1 ++ a :: l2.
Proof.
  intros [->|?]%elem_of_cons; [apply elem_of_mid|by apply elem_of_app_mid].
Qed.

Lemma cell_next_list s p : is_Some (nextP s p) ↔ is_Some (listP s p).
Proof. unfold nextP, listP. by rewrite !fmap_is_Some. Qed.

Lemma cell_next_prev s p : is_Some (nextP s p) ↔ is_Some (prevP s p).
Proof. unfold nextP, prevP. by rewrite !fmap_is_Some. Qed.

Lemma cell_next_val s p : is_Some (nextP s p) ↔ is_Some (valP s p).
Proof. unfold nextP, valP. by rewrite !fmap_is_Some. Qed.

Lemma LRep_cell ls s a : LRep ls s → a ∈ ls → is_Some (nextP s (Elem a)).
Proof.
  intros Hr Ha. apply cell_next_list. rewrite (lr_elem _ _ Hr a Ha). by eexists.
Qed.

Lemma LRep_lt ls s a : LRep ls s → a ∈ ls → (a < brk s)%nat.
Proof.
  intros Hr Ha. destruct (decide (a < brk s)%nat) as [|Hge]; [done|].
  destruct (LRep_cell _ _ _ Hr Ha) as [x Hx].
  rewrite (lr_fresh _ _ Hr a) in Hx; [done|lia].
Qed.

Lemma lastp_cell ls s l : LRep ls s → l ⊆ ls → is_Some (nextP s (lastp Root l)).
Proof.
  intros Hr Hl. destruct (lastp_cases Root l) as [[_ ->]|(a & Ha & ->)].
  - by eexists.
  - apply (LRep_cell ls); [done|]. by apply Hl.
Qed.

Lemma headp_cell ls s l : LRep ls s → l ⊆ ls → is_Some (nextP s (headp l Root)).
Proof.
  intros Hr Hl. destruct (headp_cases l Root) as [[_ ->]|(a & Ha & ->)].
  - by eexists.
  - apply (LRep_cell ls); [done|]. by apply Hl.
Qed.

(** The neighbourhood of an element of a well-formed list. *)
Lemma LRep_at l1 a l2 s :
  LRep (l1 ++ a :: l2) s →
  seg s Root l1 (Elem a) ∧ seg s (Elem a) l2 Root ∧
  prevP s (Elem a) = Some (lastp Root l1) ∧
  nextP s (Elem a) = Some (headp l2 Root) ∧
  (a ∉ l1) ∧ (a ∉ l2) ∧ NoDup l1 ∧ NoDup l2 ∧ (∀ b, b ∈ l1 → b ∉ l2).
Proof.
  intros Hr. pose proof (lr_seg _ _ Hr) as Hs.
  apply seg_app in Hs as [Hs1 Hs2]. simpl in Hs1, Hs2.
  destruct Hs2 as (_ & Hp & Hs2).
  pose proof (lr_nodup _ _ Hr) as Hnd.
  apply NoDup_app in Hnd as (Hnd1 & Hd & Hnd2).
  apply NoDup_cons in Hnd2 as [Ha2 Hnd2].
  repeat split; try done.
  - by apply seg_head in Hs2 as [? ?].
  - intros Ha1. apply (Hd a Ha1). left.
  - intros b Hb1 Hb2. apply (Hd b Hb1). by right.
Qed.

Lemma headp_irrel l q q' : l ≠ [] → headp l q = headp l q'.
Proof. by destruct l. Qed.

Lemma lastp_irrel p p' l : l ≠ [] → lastp p l = lastp p' l.
Proof. by destruct l. Qed.

Lemma Views_Frame s s' n p l k :
  Views s s' n p l (valP s) k → Frame s s'.
Proof. intros []. by split. Qed.

Lemma List_Remove_spec l1 a l2 s :
  LRep (l1 ++ a :: l2) s →
  wp (List_Remove (Elem a)) s (λ _ s',
    LRep (l1 ++ l2) s' ∧ Frame s s' ∧
    prevP s' (Elem a) = Some Nil ∧ listP s' (Elem a) = Some NoList).
Proof.
  intros Hr.
  destruct (LRep_at _ _ _ _ Hr) as (Hs1 & Hs2 & Hp & Hn & Ha1 & Ha2 & Hnd1 & Hnd2 & Hd).
  assert (is_Some (nextP s (lastp Root l1))) as Hpe.
  { apply (lastp_cell _ _ _ Hr). set_solver. }
  assert (is_Some (nextP s (headp l2 Root))) as Hne.
  { apply (headp_cell _ _ _ Hr). set_solver. }
  pose proof (Views_refl s) as Hv.
  unfold List_Remove. apply wp_bind.
  eapply wp_rd_list; [done|apply (lr_elem _ _ Hr); set_solver|].
  rewrite decide_True by done. apply wp_bind.
  eapply wp_mono; [by eapply (List_remove_views s s)|].
  simpl. intros _ s' Hv'.
  assert (lastp Root l1 ≠ Elem a) as Hpa.
  { destruct (lastp_cases Root l1) as [[_ ->]|(b & Hb & ->)]; [done|].
    intros [= ->]. done. }
  assert (headp l2 Root ≠ Elem a) as Hna.
  { destruct (headp_cases l2 Root) as [[_ ->]|(b & Hb & ->)]; [done|].
    intros [= ->]. done. }
  assert (∀ b, b ∈ l1 → Elem b ≠ headp l2 Root) as H12.
  { intros b Hb. destruct (headp_cases l2 Root) as [[_ ->]|(c & Hc & ->)]; [done|].
    intros [= ->]. by apply (Hd c). }
  assert (∀ c, c ∈ l2 → Elem c ≠ lastp Root l1) as H21.
  { intros c Hc. destruct (lastp_cases Root l1) as [[_ ->]|(b & Hb & ->)]; [done|].
    intros [= ->]. by apply (Hd b). }
  assert (is_Some (valP s (Elem a))) as [va Hva].
  { apply cell_next_val. by eexists. }
  eapply wp_rd_Value; [done|exact Hva|].
  pose proof (vw_next _ _ _ _ _ _ _ Hv') as HN.
  pose proof (vw_prev _ _ _ _ _ _ _ Hv') as HP.
  pose proof (vw_list _ _ _ _ _ _ _ Hv') as HL.
  split; [|split; [by eapply Views_Frame|split]].
  - split.
    + apply NoDup_app. done.
    + apply seg_app. split.
      * eapply (seg_change s s' Root Root l1 (Elem a)); try done.
        -- rewrite HN. unfold fupd. rewrite decide_False by done.
           destruct l1 as [|c l1]; simpl lastp; simpl headp.
           ++ by rewrite decide_True.
           ++ rewrite decide_False; [by destruct Hs1|].
              destruct (lastp_cases (Elem c) l1) as [[_ ->]|(b & _ & ->)]; done.
        -- rewrite HP. unfold fupd.
           destruct l1 as [|c l1]; simpl lastp; simpl headp.
           ++ rewrite decide_False by done. by rewrite decide_True.
           ++ rewrite decide_False.
              2:{ intros [= ->]. apply Ha1. left. }
              rewrite decide_False; [by destruct Hs1 as (_ & ? & _)|].
              apply H12. left.
        -- rewrite HN. unfold fupd. rewrite decide_False by done.
           by rewrite decide_True.
        -- rewrite HP. unfold fupd. rewrite decide_False by done.
           by rewrite decide_True.
        -- intros b Hb Hne'. rewrite HN. unfold fupd.
           rewrite decide_False; [by rewrite decide_False|].
           intros [= ->]. done.
        -- intros b Hb _. rewrite HP. unfold fupd.
           rewrite decide_False; [rewrite decide_False; [done|by apply H12]|].
           intros [= ->]. done.
      * eapply (seg_change s s' (Elem a) _ l2 Root Root); try done.
        -- rewrite HN. unfold fupd. rewrite decide_False by done.
           by rewrite decide_True.
        -- rewrite HP. unfold fupd. rewrite decide_False by done.
           by rewrite decide_True.
        -- rewrite HN. unfold fupd.
           destruct l2 as [|c l2]; simpl lastp; simpl headp.
           ++ rewrite decide_False by done. by rewrite decide_True.
           ++ apply seg_last in Hs2 as [Hs2 _]. simpl in Hs2.
              destruct (lastp_cases (Elem c) l2) as [[-> Hl]|(b & Hb & Hl)];
                rewrite Hl in *.
              ** rewrite decide_False.
                 2:{ intros [= ->]. apply Ha2. left. }
                 rewrite decide_False; [done|]. apply H21. left.
              ** rewrite decide_False.
                 2:{ intros [= ->]. apply Ha2. by right. }
                 rewrite decide_False; [done|]. apply H21. by right.
        -- rewrite HP. unfold fupd. rewrite decide_False by done.
           destruct l2 as [|c l2]; simpl lastp; simpl headp.
           ++ by rewrite decide_True.
           ++ rewrite decide_False by done.
              by apply seg_last in Hs2 as [_ Hs2].
        -- intros c Hc _. rewrite HN. unfold fupd.
           rewrite decide_False; [rewrite decide_False; [done|by apply H21]|].
           intros [= ->]. done.
        -- intros c Hc Hne'. rewrite HP. unfold fupd.
           rewrite decide_False; [by rewrite decide_False|].
           intros [= ->]. done.
    + intros b Hb. rewrite HL. unfold fupd. rewrite decide_False.
      * apply (lr_elem _ _ Hr). by apply elem_of_app_mid.
      * intros [= ->]. apply elem_of_app in Hb as [?|?]; done.
    + intros b Hb. rewrite (vw_brk _ _ _ _ _ _ _ Hv') in Hb.
      pose proof (lr_fresh _ _ Hr b Hb) as Hfb.
      rewrite HN. unfold fupd. rewrite decide_False.
      * rewrite decide_False; [done|]. intros Heq. rewrite <-Heq, Hfb in Hpe.
        by destruct Hpe.
      * intros [= ->]. rewrite Hfb in Hn. done.
    + rewrite (vw_len _ _ _ _ _ _ _ Hv'), (lr_len _ _ Hr).
      rewrite !length_app. simpl. lia.
  - rewrite HP. unfold fupd. by rewrite decide_True.
  - rewrite HL. unfold fupd. by rewrite decide_True.
Qed.

Lemma List_MoveToFront_spec l1 a l2 s :
  LRep (l1 ++ a :: l2) s →
  wp (List_MoveToFront (Elem a)) s (λ _ s',
    LRep (a :: l1 ++ l2) s' ∧ Frame s s').
Proof.
  intros Hr.
  destruct (LRep_at _ _ _ _ Hr) as (Hs1 & Hs2 & Hp & Hn & Ha1 & Ha2 & Hnd1 & Hnd2 & Hd).
  assert (is_Some (nextP s (lastp Root l1))) as Hpe.
  { apply (lastp_cell _ _ _ Hr). set_solver. }
  assert (is_Some (nextP s (headp l2 Root))) as Hne.
  { apply (headp_cell _ _ _ Hr). set_solver. }
  pose proof (Views_refl s) as Hv.
  unfold List_MoveToFront. apply wp_bind.
  eapply wp_rd_list; [done|apply (lr_elem _ _ Hr); set_solver|].
  rewrite decide_False by (by intros ?). apply wp_bind.
  destruct l1 as [|c l1].
  { eapply wp_rd_next; [done|by destruct Hs1|].
    rewrite decide_True by done. apply wp_ret. split; [done|]. by split. }
  eapply wp_rd_next; [done|by destruct Hs1|].
  rewrite decide_False.
  2:{ intros [= ->]. apply Ha1. left. }
  set (pe := lastp Root (c :: l1)) in *. set (ne := headp l2 Root) in *.
  assert (pe ≠ Elem a) as Hpa.
  { destruct (lastp_cases Root (c :: l1)) as [[? _]|(b & Hb & Hl)]; [done|].
    fold pe in Hl. rewrite Hl. intros [= ->]. done. }
  assert (pe ≠ Root) as Hpr.
  { destruct (lastp_cases Root (c :: l1)) as [[? _]|(b & Hb & Hl)]; [done|].
    fold pe in Hl. by rewrite Hl. }
  assert (ne ≠ Elem a) as Hna.
  { destruct (headp_cases l2 Root) as [[_ Hl]|(b & Hb & Hl)];
      fold ne in Hl; rewrite Hl; [done|]. intros [= ->]. done. }
  assert (∀ b, b ∈ c :: l1 → Elem b ≠ ne) as H12.
  { intros b Hb. destruct (headp_cases l2 Root) as [[_ Hl]|(d & Hd' & Hl)];
      fold ne in Hl; rewrite Hl; [done|]. intros [= ->]. by apply (Hd d). }
  assert (∀ d, d ∈ l2 → Elem d ≠ pe) as H21.
  { intros d Hd'.
    destruct (lastp_cases Root (c :: l1)) as [[? _]|(b & Hb & Hl)]; [done|].
    fold pe in Hl. rewrite Hl. intros [= ->]. by apply (Hd b). }
  assert (c ≠ a) as Hca.
  { intros ->. apply Ha1. left. }
  assert (is_Some (nextP s (Elem c))) as Hc.
  { apply (LRep_cell _ _ _ Hr). apply elem_of_app. left. left. }
  eapply wp_mono.
  { apply (List_move_views s s _ _ _ _ _ (Elem a) Root pe ne (Elem c) Hv);
      [done|done|done|done|done|done|by destruct Hs1|done]. }
  simpl. intros _ s' Hv'.
  pose proof (vw_next _ _ _ _ _ _ _ Hv') as HN.
  pose proof (vw_prev _ _ _ _ _ _ _ Hv') as HP.
  pose proof (vw_list _ _ _ _ _ _ _ Hv') as HL.
  split; [|by eapply Views_Frame].
  split.
  - apply NoDup_cons. split; [|by apply (NoDup_app (c :: l1) l2)].
    intros [?|?]%(elem_of_app (c :: l1) l2); done.
  - change (nextP s' Root = Some (Elem a) ∧ prevP s' (Elem a) = Some Root ∧
            seg s' (Elem a) ((c :: l1) ++ l2) Root).
    split; [|split].
    + rewrite HN. unfold fupd. by rewrite decide_True.
    + rewrite HP. unfold fupd. rewrite decide_False by congruence.
      by rewrite decide_True.
    + apply seg_app. split.
      * eapply (seg_change s s' Root (Elem a) (c :: l1) (Elem a) ne);
          [exact Hs1|done|..].
        all: change (lastp (Elem a) (c :: l1)) with pe.
        all: try (intros b Hb Hx; pose proof (H12 b Hb);
                  assert (b ≠ a) by (by intros ->)).
        all: pose proof (H12 c ltac:(left)).
        all: rewrite ?HN, ?HP; unfold fupd; simpl headp in *.
        all: repeat case_decide; try congruence.
      * change (lastp (Elem a) (c :: l1)) with pe.
        pose proof (seg_last _ _ _ _ Hs2) as [Hl1 Hl2].
        pose proof (Hd c ltac:(left)) as Hc2.
        destruct l2 as [|d l2].
        { subst ne. simpl in *. rewrite HN, HP. unfold fupd.
          repeat case_decide; try congruence. done. }
        eapply (seg_change s s' (Elem a) pe (d :: l2) Root Root);
          [exact Hs2|done|..].
        all: change (lastp pe (d :: l2)) with (lastp (Elem a) (d :: l2)) in *.
        all: destruct (lastp_cases (Elem a) (d :: l2)) as [[? _]|(x & Hx & Hl)];
          [done|]; rewrite Hl in *.
        all: pose proof (H21 x Hx);
          assert (x ≠ a) by (by intros ->);
          assert (x ≠ c) by (by intros ->).
        all: try (intros b Hb Hy; pose proof (H21 b Hb);
                  assert (b ≠ a) by (by intros ->);
                  assert (b ≠ c) by (by intros ->)).
        all: assert (d ≠ c) by (intros ->; apply Hc2; left).
        all: subst ne; simpl headp in *.
        all: rewrite ?HN, ?HP; unfold fupd.
        all: repeat case_decide; congruence.
  - intros b Hb. rewrite HL. apply (lr_elem _ _ Hr).
    by apply (elem_of_front_mid (c :: l1) l2).
  - intros b Hb. rewrite (vw_brk _ _ _ _ _ _ _ Hv') in Hb.
    pose proof (lr_fresh _ _ Hr b Hb) as Hfb.
    rewrite HN. unfold fupd. rewrite decide_False by done.
    rewrite decide_False.
    2:{ intros [= ->]. rewrite Hfb in Hn. done. }
    rewrite decide_False; [done|]. intros Heq. rewrite <-Heq, Hfb in Hpe.
    by destruct Hpe.
  - rewrite (vw_len _ _ _ _ _ _ _ Hv'), (lr_len _ _ Hr).
    simpl. rewrite !length_app. simpl. lia.
Qed.

Lemma new_Element_spec s (v : option entry) (Q : ptr → State → Prop) :
  (∀ s1,
     (∀ r, nextP s1 r = fupd (Elem (brk s)) Nil (nextP s) r) →
     (∀ r, prevP s1 r = fupd (Elem (brk s)) Nil (prevP s) r) →
     (∀ r, listP s1 r = fupd (Elem (brk s)) NoList (listP s) r) →
     (∀ r, valP s1 r = fupd (Elem (brk s)) v (valP s) r) →
     cache s1 = cache s → brk s1 = S (brk s) → world s1 = world s →
     Q (Elem (brk s)) s1) →
  wp (new_Element v) s Q.
Proof.
  intros HQ. unfold wp, new_Element. apply HQ; try done.
  all: intros [| |b]; unfold nextP, prevP, listP, valP, fupd; simpl; try done.
  all: case_decide; simplify_eq;
    [by rewrite lookup_insert_eq|rewrite lookup_insert_ne; [done|congruence]].
Qed.

Lemma List_PushFront_spec ls s (v : option entry) :
  LRep ls s →
  wp (List_PushFront v) s (λ r s',
    r = Elem (brk s) ∧ LRep (brk s :: ls) s' ∧
    (∀ r, valP s' r = fupd (Elem (brk s)) v (valP s) r) ∧
    items (cache s') = items (cache s) ∧
    duration (cache s') = duration (cache s) ∧
    onEvictCall (cache s') = onEvictCall (cache s) ∧
    brk s' = S (brk s) ∧ world s' = world s).
Proof.
  intros Hr. pose proof (lr_seg _ _ Hr) as Hs.
  pose proof (seg_head _ _ _ _ Hs) as [Hh1 Hh2].
  pose proof (seg_last _ _ _ _ Hs) as [Hl1 Hl2].
  pose proof (Views_refl s) as Hv.
  set (b := brk s).
  assert (b ∉ ls) as Hb.
  { intros Hb. apply (LRep_lt _ _ _ Hr) in Hb. unfold b in Hb. lia. }
  assert (nextP s (Elem b) = None) as Hfb by (by apply (lr_fresh _ _ Hr)).
  assert (headp ls Root ≠ Elem b) as Hnb.
  { destruct (headp_cases ls Root) as [[_ ->]|(x & Hx & ->)]; [done|].
    by intros [= ->]. }
  assert (headp ls Root ≠ Nil) as Hnn.
  { destruct (headp_cases ls Root) as [[_ ->]|(x & Hx & ->)]; done. }
  unfold List_PushFront, List_lazyInit. apply wp_bind, wp_bind.
  eapply wp_rd_next; [done|exact Hh1|].
  rewrite decide_False by done. apply wp_ret.
  unfold List_insertValue. apply wp_bind, new_Element_spec. fold b.
  intros s1 HN1 HP1 HL1 HV1 Hc1 Hb1 Hw1.
  pose proof (Views_refl s1) as Hv1.
  eapply wp_mono.
  { apply (List_insert_views s1 s1 _ _ _ _ _ (Elem b) Root (headp ls Root) Hv1).
    - done.
    - rewrite HN1. unfold fupd. rewrite decide_True by done. by eexists.
    - rewrite HN1. unfold fupd. by rewrite decide_False.
    - rewrite HN1. unfold fupd. rewrite decide_False by done.
      by apply (headp_cell _ _ _ Hr). }
  simpl. intros r s2 [-> Hv2].
  pose proof (vw_next _ _ _ _ _ _ _ Hv2) as HN.
  pose proof (vw_prev _ _ _ _ _ _ _ Hv2) as HP.
  pose proof (vw_list _ _ _ _ _ _ _ Hv2) as HL.
  split; [done|]. split.
  - split.
    + apply NoDup_cons. split; [done|]. apply (lr_nodup _ _ Hr).
    + change (nextP s2 Root = Some (Elem b) ∧ prevP s2 (Elem b) = Some Root ∧
              seg s2 (Elem b) ls Root).
      split; [|split].
      * rewrite HN. unfold fupd. by rewrite decide_True.
      * rewrite HP. unfold fupd. rewrite decide_False by done.
        by rewrite decide_True.
      * destruct ls as [|c ls].
        { simpl in *. rewrite HN, HP. unfold fupd.
          repeat case_decide; try congruence. done. }
        eapply (seg_change s s2 Root (Elem b) (c :: ls) Root Root);
          [exact Hs|apply (lr_nodup _ _ Hr)|..].
        all: change (lastp (Elem b) (c :: ls)) with (lastp Root (c :: ls)) in *.
        all: destruct (lastp_cases Root (c :: ls)) as [[? _]|(x & Hx & Hl)];
          [done|]; rewrite Hl in *.
        all: assert (x ≠ b) by (by intros ->);
          assert (c ≠ b) by (intros ->; apply Hb; left).
        all: try (intros a Ha Hy; assert (a ≠ b) by (by intros ->)).
        all: simpl headp in *.
        all: rewrite ?HN, ?HP; unfold fupd; rewrite ?HN1, ?HP1; unfold fupd.
        all: repeat case_decide; congruence.
    + intros a Ha. rewrite HL. unfold fupd. case_decide; [done|].
      rewrite HL1. unfold fupd. rewrite decide_False by done.
      apply (lr_elem _ _ Hr). apply elem_of_cons in Ha as [->|Ha]; done.
    + intros a Ha. rewrite (vw_brk _ _ _ _ _ _ _ Hv2), Hb1 in Ha.
      rewrite HN. unfold fupd. rewrite decide_False by done.
      rewrite decide_False by (intros [= ->]; lia).
      rewrite HN1. unfold fupd. rewrite decide_False by (intros [= ->]; lia).
      apply (lr_fresh _ _ Hr). lia.
    + rewrite (vw_len _ _ _ _ _ _ _ Hv2), Hc1, (lr_len _ _ Hr).
      simpl length. lia.
  - rewrite (vw_items _ _ _ _ _ _ _ Hv2), (vw_duration _ _ _ _ _ _ _ Hv2),
      (vw_cb _ _ _ _ _ _ _ Hv2), (vw_brk _ _ _ _ _ _ _ Hv2),
      (vw_world _ _ _ _ _ _ _ Hv2), Hc1.
    repeat split; try done.
    intros r. by rewrite (vw_val _ _ _ _ _ _ _ Hv2).
Qed.

End ListRep.

(** ** The cache on well-formed states *)

Section CacheRep.

Context {K : Type} `{Countable K} `{!GoKey K} {V W : Type}.

Local Abbreviation State := (State (K:=K) (V:=V) (W:=W)).
Local Abbreviation entry := (entry (K:=K) (V:=V)).
Local Abbreviation GoMap := (GoMap (K:=K)).

Implicit Types (s : State) (ls : list addr) (xs : list entry).

Lemma seg_ext s s' p l q :
  (∀ r, nextP s' r = nextP s r) → (∀ r, prevP s' r = prevP s r) →
  seg s p l q → seg s' p l q.
Proof.
  intros Hn Hp. revert p. induction l as [|a l IH]; intros p; simpl;
    rewrite !Hn, !Hp; [done|]. intros (? & ? & ?). auto.
Qed.

Lemma LRep_ext ls s s' :
  (∀ r, nextP s' r = nextP s r) → (∀ r, prevP s' r = prevP s r) →
  (∀ r, listP s' r = listP s r) → brk s' = brk s →
  len (evictList (cache s')) = len (evictList (cache s)) →
  LRep ls s → LRep ls s'.
Proof.
  intros Hn Hp Hl Hb Hk [].
  split; [done|by eapply seg_ext|..].
  - intros a Ha. rewrite Hl. auto.
  - intros a Ha. rewrite Hn. apply lr_fresh0. lia.
  - congruence.
Qed.

Lemma Ents_ext s s' ls xs :
  (∀ a, a ∈ ls → valP s' (Elem a) = valP s (Elem a)) →
  Ents s ls xs → Ents s' ls xs.
Proof.
  intros Hv Hx. unfold Ents in *. induction Hx as [|a x ls xs Ha Hx IH].
  - constructor.
  - constructor.
    + rewrite Hv; [done|left].
    + apply IH. intros b Hb. apply Hv. by right.
Qed.

Lemma Rep_Ents ls s : Rep ls s → ∃ xs, Ents s ls xs.
Proof.
  intros Hr. pose proof (rep_vals _ _ Hr) as Hv. clear Hr.
  induction ls as [|a ls IH].
  - exists []. constructor.
  - destruct (Hv a) as [x Hx]; [left|].
    destruct IH as [xs Hxs]; [intros b Hb; apply Hv; by right|].
    exists (x :: xs). by constructor.
Qed.

Lemma Ents_app_inv s l1 l2 xs :
  Ents s (l1 ++ l2) xs →
  ∃ xs1 xs2, xs = xs1 ++ xs2 ∧ Ents s l1 xs1 ∧ Ents s l2 xs2.
Proof.
  intros Hx. apply Forall2_app_inv_l in Hx as (xs1 & xs2 & ? & ? & ->).
  by exists xs1, xs2.
Qed.

Lemma Ents_lookup s ls xs a :
  Ents s ls xs → a ∈ ls → ∃ x, x ∈ xs ∧ valP s (Elem a) = Some (Some x).
Proof.
  intros Hx Ha. induction Hx as [|b x ls xs Hb Hx IH]; [by inversion Ha|].
  apply elem_of_cons in Ha as [->|Ha].
  - exists x. split; [left|done].
  - destruct (IH Ha) as (y & ? & ?). exists y. split; [by right|done].
Qed.

(** [e.Next()] and [e.Prev()] inside a well-formed list. *)
Lemma Element_Next_spec l1 a l2 s :
  LRep (l1 ++ a :: l2) s →
  wp (Element_Next (Elem a)) s (λ r s', s' = s ∧ r = optp l2).
Proof.
  intros Hr.
  destruct (LRep_at _ _ _ _ Hr) as (_ & _ & _ & Hn & _).
  pose proof (Views_refl s) as Hv.
  unfold Element_Next. apply wp_bind. eapply wp_rd_next; [done..|].
  apply wp_bind. eapply wp_rd_list; [done|apply (lr_elem _ _ Hr); set_solver|].
  destruct l2 as [|c l2]; simpl in *; by apply wp_ret.
Qed.

Lemma Element_Prev_spec l1 a l2 s :
  LRep (l1 ++ a :: l2) s →
  wp (Element_Prev (Elem a)) s (λ r s',
    s' = s ∧ r = if decide (l1 = []) then Nil else lastp Root l1).
Proof.
  intros Hr.
  destruct (LRep_at _ _ _ _ Hr) as (_ & _ & Hp & _).
  pose proof (Views_refl s) as Hv.
  unfold Element_Prev. apply wp_bind. eapply wp_rd_prev; [done..|].
  apply wp_bind. eapply wp_rd_list; [done|apply (lr_elem _ _ Hr); set_solver|].
  destruct (lastp_cases Root l1) as [[-> Hl]|(b & Hb & Hl)]; rewrite Hl.
  - rewrite decide_False by tauto. by apply wp_ret.
  - rewrite decide_True by done. rewrite decide_False; [by apply wp_ret|].
    by intros ->; inversion Hb.
Qed.

Lemma List_Front_spec ls s :
  LRep ls s → wp List_Front s (λ r s', s' = s ∧ r = optp ls).
Proof.
  intros Hr. pose proof (Views_refl s) as Hv.
  pose proof (seg_head _ _ _ _ (lr_seg _ _ Hr)) as [Hh _].
  unfold List_Front. apply wp_bind. eapply wp_rd_len; [done|].
  rewrite (lr_len _ _ Hr). destruct ls as [|a ls]; simpl length.
  - rewrite decide_True by done. by apply wp_ret.
  - rewrite decide_False by lia. by eapply wp_rd_next.
Qed.

Lemma List_Back_spec ls s :
  LRep ls s →
  wp List_Back s (λ r s',
    s' = s ∧ r = if decide (ls = []) then Nil else lastp Root ls).
Proof.
  intros Hr. pose proof (Views_refl s) as Hv.
  pose proof (seg_last _ _ _ _ (lr_seg _ _ Hr)) as [_ Hl].
  unfold List_Back. apply wp_bind. eapply wp_rd_len; [done|].
  rewrite (lr_len _ _ Hr). destruct ls as [|a ls]; simpl length.
  - rewrite !decide_True by done. by apply wp_ret.
  - rewrite !decide_False by (done || lia). by eapply wp_rd_prev.
Qed.

Lemma printLoop_spec l1 l2 xs2 s fuel :
  LRep (l1 ++ l2) s → Ents s l2 xs2 → (length l2 < fuel)%nat →
  wp (printLoop fuel (optp l2)) s (λ r s', s' = s ∧ r = xs2).
Proof.
  intros Hr Hx. revert l1 fuel Hr.
  induction Hx as [|a x l2 xs2 Ha Hx IH]; intros l1 fuel Hr Hf.
  - by destruct fuel.
  - destruct fuel as [|fuel]; [simpl in Hf; lia|]. simpl in Hf.
    simpl. apply wp_bind. eapply wp_asEntry; [done|].
    apply wp_bind, wp_deref. apply wp_bind.
    eapply wp_mono; [by apply (Element_Next_spec l1 a l2)|].
    intros r s' [-> ->]. apply wp_bind.
    eapply wp_mono.
    { apply (IH (l1 ++ [a])); [by rewrite <-app_assoc|lia]. }
    intros r s' [-> ->]. by apply wp_ret.
Qed.

Lemma Print_spec ls xs s :
  LRep ls s → Ents s ls xs → Print s = Ok (xs, s).
Proof.
  intros Hr Hx. pose proof (Views_refl s) as Hv.
  assert (wp Print s (λ r s', s' = s ∧ r = xs)) as Hw.
  { unfold Print. apply wp_bind. eapply wp_rd_len; [done|].
    apply wp_bind. eapply wp_mono; [by apply List_Front_spec|].
    intros r s' [-> ->]. apply (printLoop_spec [] ls); [done..|].
    rewrite (lr_len _ _ Hr). lia. }
  apply wp_ok in Hw as (r & s' & -> & -> & ->). done.
Qed.

Lemma contents_Ents ls xs s : Rep ls s → Ents s ls xs → contents s = xs.
Proof.
  intros Hr Hx. unfold contents.
  by rewrite (Print_spec ls xs s (rep_list _ _ Hr) Hx).
Qed.

Lemma keysLoop_spec l1 l2 xs1 s fuel i keys :
  LRep (l1 ++ l2) s → Ents s l1 xs1 →
  (length l1 < fuel)%nat → (i + length l1 ≤ length keys)%nat →
  wp (keysLoop fuel (if decide (l1 = []) then Nil else lastp Root l1) i keys) s
     (λ r s', s' = s ∧
        r = take i keys ++ (Some ∘ key <$> reverse xs1) ++
            drop (i + length l1) keys).
Proof.
  revert l2 xs1 fuel i keys.
  induction l1 as [|a l1 IH] using rev_ind; intros l2 xs1 fuel i keys Hr Hx Hf Hi.
  - apply Forall2_nil_inv_l in Hx as ->. simpl.
    destruct fuel; simpl; apply wp_ret; (split; [done|]);
      by rewrite Nat.add_0_r, take_drop.
  - apply Ents_app_inv in Hx as (ys & zs & -> & Hys & Hzs).
    apply Forall2_cons_inv_l in Hzs as (x & zs' & Hx & Hnil & ->).
    apply Forall2_nil_inv_l in Hnil as ->.
    rewrite length_app in Hf, Hi. simpl in Hf, Hi.
    rewrite decide_False by (by destruct l1). rewrite lastp_snoc.
    destruct fuel as [|fuel]; [lia|]. simpl.
    apply wp_bind. eapply wp_asEntry; [done|].
    apply wp_bind, wp_deref. rewrite decide_True by lia.
    apply wp_bind. rewrite <-app_assoc in Hr.
    eapply wp_mono; [by apply (Element_Prev_spec l1 a l2)|].
    intros r s' [-> ->].
    eapply wp_mono.
    { apply (IH (a :: l2) ys); [done..|lia|rewrite length_insert; lia]. }
    intros r s' [-> ->]. split; [done|].
    rewrite reverse_app, length_app. simpl.
    rewrite drop_insert_lt by lia.
    rewrite (take_S_r _ _ (Some (key x))).
    2:{ apply list_lookup_insert_eq. lia. }
    rewrite take_insert_ge by lia.
    replace (i + (length l1 + 1))%nat with (S (i + length l1)) by lia.
    by rewrite <-!app_assoc.
Qed.

(** The map's operations, part by part. *)
Lemma lookup_GoMap (m : GoMap) k :
  m !! k = if selfEqual k then keyed m !! k else None.
Proof. done. Qed.

Lemma lookup_GoMap_Some (m : GoMap) k p :
  m !! k = Some p ↔ selfEqual k = true ∧ keyed m !! k = Some p.
Proof. rewrite lookup_GoMap. destruct (selfEqual k); naive_solver. Qed.

Lemma lookup_GoMap_None (m : GoMap) k :
  m !! k = None ↔ selfEqual k = false ∨ keyed m !! k = None.
Proof. rewrite lookup_GoMap. destruct (selfEqual k); naive_solver. Qed.

Lemma keyed_delete (m : GoMap) k :
  keyed (delete k m) = if selfEqual k then delete k (keyed m) else keyed m.
Proof. unfold delete, GoMap_delete. by destruct (selfEqual k). Qed.

Lemma loose_delete (m : GoMap) k : loose (delete k m) = loose m.
Proof. unfold delete, GoMap_delete. by destruct (selfEqual k). Qed.

Lemma keyed_insert (m : GoMap) k p :
  keyed (<[k := p]> m) = if selfEqual k then <[k := p]> (keyed m) else keyed m.
Proof. unfold insert, GoMap_insert. by destruct (selfEqual k). Qed.

Lemma loose_insert (m : GoMap) k p :
  loose (<[k := p]> m) = if selfEqual k then loose m else (k, p) :: loose m.
Proof. unfold insert, GoMap_insert. by destruct (selfEqual k). Qed.

Lemma lookup_GoMap_delete (m : GoMap) k : delete k m !! k = None.
Proof.
  rewrite lookup_GoMap, keyed_delete. destruct (selfEqual k); [|done].
  apply lookup_delete_eq.
Qed.

Lemma lookup_GoMap_delete_ne (m : GoMap) k k' :
  k ≠ k' → delete k m !! k' = m !! k'.
Proof.
  intros Hne. rewrite !lookup_GoMap, keyed_delete.
  destruct (selfEqual k'); [|done]. destruct (selfEqual k); [|done].
  by apply lookup_delete_ne.
Qed.

Lemma dom_GoMap_insert (m : GoMap) k p : dom (<[k := p]> m) = {[k]} ∪ dom m.
Proof.
  unfold dom, GoMap_dom. rewrite keyed_insert, loose_insert.
  destruct (selfEqual k).
  - rewrite dom_insert_L. set_solver.
  - rewrite fmap_cons, list_to_set_cons. set_solver.
Qed.

Lemma size_GoMap (m : GoMap) :
  size m = (size (keyed m) + length (loose m))%nat.
Proof. done. Qed.

(** What [c.items[k]] finds in a well-formed cache. *)
Lemma Rep_items ls s k p :
  Rep ls s →
  items (cache s) !! k = Some p ↔
  ∃ a x, p = Elem a ∧ a ∈ ls ∧ valP s (Elem a) = Some (Some x) ∧
         key x = k ∧ selfEqual k = true.
Proof.
  intros Hr. rewrite lookup_GoMap_Some, (rep_items _ _ Hr). naive_solver.
Qed.

(** A cell that carries an entry has been allocated. *)
Lemma Rep_val_lt ls s a y :
  Rep ls s → valP s (Elem a) = Some y → (a < brk s)%nat.
Proof.
  intros Hr Hy. destruct (decide (a < brk s)%nat) as [|Hge]; [done|].
  assert (is_Some (nextP s (Elem a))) as [n Hn].
  { apply cell_next_val. by eexists. }
  rewrite (lr_fresh _ _ (rep_list _ _ Hr) a) in Hn; [done|lia].
Qed.

(** An entry of [loose] points to no cell whose key is equal to itself. *)
Lemma Rep_loose_ne ls s k p a x :
  Rep ls s → (k, p) ∈ loose (items (cache s)) →
  valP s (Elem a) = Some (Some x) → selfEqual (key x) = true → p ≠ Elem a.
Proof.
  intros Hr Hin Hx Hse ->.
  destruct (rep_loose _ _ Hr _ _ Hin) as (b & y & [= <-] & Hy & Hk & Hf).
  congruence.
Qed.

(** Well-formedness depends on the state through the list, the entries in
    the cells and the map only. *)
Lemma Rep_ext ls s s' :
  (∀ r, nextP s' r = nextP s r) → (∀ r, prevP s' r = prevP s r) →
  (∀ r, listP s' r = listP s r) → (∀ r, valP s' r = valP s r) →
  brk s' = brk s →
  len (evictList (cache s')) = len (evictList (cache s)) →
  items (cache s') = items (cache s) →
  Rep ls s → Rep ls s'.
Proof.
  intros Hn Hp Hl Hv Hb Hk Hi [Hls Hvs Hit Hlo Hli Hap]. split.
  - by eapply LRep_ext.
  - intros a Ha. rewrite Hv. auto.
  - intros k p. rewrite Hi, Hit. by setoid_rewrite Hv.
  - intros k p. rewrite Hi. setoid_rewrite Hv. auto.
  - intros a x Ha. rewrite Hi, Hv. auto.
  - by rewrite Hi.
Qed.

Lemma Rep_key_inj ls s a b x y :
  Rep ls s → a ∈ ls → b ∈ ls →
  valP s (Elem a) = Some (Some x) → valP s (Elem b) = Some (Some y) →
  key x = key y → selfEqual (key x) = true → a = b.
Proof.
  intros Hr Ha Hb Hx Hy Hk Hse.
  assert (items (cache s) !! key x = Some (Elem a)) as H1.
  { apply (Rep_items _ _ _ _ Hr). by exists a, x. }
  assert (items (cache s) !! key x = Some (Elem b)) as H2.
  { apply (Rep_items _ _ _ _ Hr). exists b, y. by rewrite <-Hk. }
  congruence.
Qed.

Lemma removeElement_spec l1 a l2 x s :
  Rep (l1 ++ a :: l2) s → valP s (Elem a) = Some (Some x) →
  wp (removeElement (Elem a)) s (λ _ s',
    Rep (l1 ++ l2) s' ∧ (∀ r, valP s' r = valP s r) ∧
    items (cache s') = delete (key x) (items (cache s)) ∧
    duration (cache s') = duration (cache s) ∧
    onEvictCall (cache s') = onEvictCall (cache s) ∧
    brk s' = brk s ∧
    world s' = fire (onEvictCall (cache s)) (key x) (value x) (world s) ∧
    prevP s' (Elem a) = Some Nil ∧ listP s' (Elem a) = Some NoList).
Proof.
  intros Hr Hx. pose proof (rep_list _ _ Hr) as Hl.
  destruct (LRep_at _ _ _ _ Hl) as (_ & _ & _ & _ & Ha1 & Ha2 & _).
  unfold removeElement. apply wp_bind.
  eapply wp_mono; [by apply List_Remove_spec|].
  intros _ s1 (Hl1 & Hf & Hp1 & Hli1). destruct Hf.
  apply wp_bind. eapply wp_asEntry; [by rewrite fr_val0|].
  apply wp_bind, wp_deref. apply wp_bind, wp_modify. apply wp_bind, wp_gets.
  set (s2 := set_items _ s1).
  assert (∀ b, b ∈ l1 ++ l2 → b ∈ l1 ++ a :: l2 ∧ b ≠ a) as Hsub.
  { intros b Hb. split; [by apply elem_of_app_mid|]. intros ->.
    apply elem_of_app in Hb as [?|?]; done. }
  assert (Rep (l1 ++ l2) s2) as Hr2.
  { split.
    - eapply LRep_ext; [| | | | |exact Hl1]; by try intros [| |?].
    - intros b Hb. change (valP s2 (Elem b)) with (valP s1 (Elem b)).
      rewrite fr_val0. apply (rep_vals _ _ Hr). by apply Hsub.
    - intros k p. change (valP s2) with (valP s1). simpl.
      rewrite fr_items0, keyed_delete. setoid_rewrite fr_val0.
      destruct (selfEqual (key x)) eqn:Hse.
      + rewrite lookup_delete_Some, (rep_items _ _ Hr). split.
        * intros (Hk & b & y & -> & Hb & Hy & <- & Hsy).
          exists b, y. repeat split; try done.
          apply elem_of_app in Hb as [?|Hb]; [set_solver|].
          apply elem_of_cons in Hb as [->|?]; [|set_solver].
          congruence.
        * intros (b & y & -> & Hb & Hy & <- & Hsy).
          destruct (Hsub b Hb) as [Hb' Hne].
          split; [|by exists b, y].
          intros Hk. apply Hne. symmetry.
          by apply (Rep_key_inj _ _ a b x y Hr); [apply elem_of_mid|..].
      + rewrite (rep_items _ _ Hr). split.
        * intros (b & y & -> & Hb & Hy & <- & Hsy).
          exists b, y. repeat split; try done.
          apply elem_of_app in Hb as [?|Hb]; [set_solver|].
          apply elem_of_cons in Hb as [->|?]; [|set_solver].
          congruence.
        * intros (b & y & -> & Hb & Hy & <- & Hsy).
          exists b, y. repeat split; try done. by apply Hsub.
    - intros k p. change (valP s2) with (valP s1). simpl.
      rewrite fr_items0, loose_delete. setoid_rewrite fr_val0.
      apply (rep_loose _ _ Hr).
    - intros b y Hb. change (valP s2) with (valP s1). simpl.
      rewrite fr_items0, loose_delete, fr_val0.
      apply (rep_listed _ _ Hr). by apply Hsub.
    - simpl. rewrite fr_items0, loose_delete. apply (rep_apart _ _ Hr). }
  simpl. rewrite fr_cb0.
  destruct (onEvictCall (cache s)) as [f|] eqn:Hcb; simpl.
  - apply wp_modify. simpl. rewrite fr_world0.
    split.
    { eapply Rep_ext; [..|exact Hr2]; by try intros [| |?]. }
    repeat split; try done; try (by rewrite fr_items0);
      try (intros r; rewrite <-fr_val0; by destruct r).
  - apply wp_ret. split; [done|]. simpl.
    repeat split; try done; try (by rewrite fr_items0);
      try (intros r; rewrite <-fr_val0; by destruct r).
Qed.

Lemma purgeExpired_spec now ls s :
  Rep ls s →
  wp (purgeExpired now) s (λ _ s', ∃ ls', SweepPost now ls s ls' s' ∧ Rep ls' s').
Proof.
  intros Hr. pose proof (rep_list _ _ Hr) as Hl.
  pose proof (Views_refl s) as Hv.
  unfold purgeExpired. apply wp_bind. eapply wp_rd_len; [done|].
  apply wp_bind. eapply wp_mono; [by apply List_Back_spec|].
  intros r s' [-> ->].
  destruct ls as [|a l1 _] using rev_ind.
  { rewrite decide_True by done. simpl. apply wp_ret.
    exists []. split; [by left|done]. }
  rewrite decide_False by (by destruct l1). rewrite lastp_snoc.
  destruct (rep_vals _ _ Hr a) as [x Hx]; [set_solver|].
  simpl. apply wp_bind. eapply wp_asEntry; [done|].
  apply wp_bind, wp_deref. apply wp_bind, wp_gets.
  destruct (decide (sub64 now (tm x) > duration (cache s))) as [He|He].
  - apply wp_bind. eapply wp_mono; [by apply (removeElement_spec l1 a [] x)|].
    intros _ s1 (Hr1 & Hv1 & Hi1 & Hd1 & Hc1 & Hb1 & Hw1 & Hp1 & Hli1).
    rewrite app_nil_r in Hr1.
    pose proof (Views_refl s1) as Hvs1.
    apply wp_bind. unfold Element_Prev.
    apply wp_bind. eapply wp_rd_prev; [done..|].
    apply wp_bind. eapply wp_rd_list; [done..|].
    rewrite decide_False by tauto. apply wp_ret.
    destruct (Z.to_nat _); apply wp_ret.
    all: exists l1; split; [|done].
    all: right; exists l1, a, x; split; [done|]; split; [done|]; right; done.
  - apply wp_ret. exists (l1 ++ [a]). split; [|done].
    right. exists l1, a, x. split; [done|]. split; [done|]. by left.
Qed.

Lemma purgeExpired_wf now s :
  wf s → ∃ s1, purgeExpired now s = Ok (tt, s1) ∧ wf s1.
Proof.
  intros [ls Hr]. pose proof (purgeExpired_spec now ls s Hr) as Hw.
  apply wp_ok in Hw as ([] & s1 & Hs1 & ls' & _ & Hr').
  exists s1. split; [done|]. by exists ls'.
Qed.

Lemma bind_Ok {A B} (m : M (K:=K) (V:=V) (W:=W) A) (f : A → M B) s a s1 :
  m s = Ok (a, s1) → (m ≫= f) s = f a s1.
Proof. unfold mbind, M_bind, bind. by intros ->. Qed.

Lemma gets_bind {A B} (g : State → A) (f : A → M (K:=K) (V:=V) (W:=W) B) s :
  (gets g ≫= f) s = f (g s) s.
Proof. done. Qed.

Lemma Ents_lookup_r s ls xs x :
  Ents s ls xs → x ∈ xs → ∃ a, a ∈ ls ∧ valP s (Elem a) = Some (Some x).
Proof.
  intros Hx Hin. induction Hx as [|b y ls xs Hb Hx IH]; [by inversion Hin|].
  apply elem_of_cons in Hin as [->|Hin].
  - exists b. split; [left|done].
  - destruct (IH Hin) as (a & ? & ?). exists a. split; [by right|done].
Qed.

Lemma filter_all {A} (P : A → Prop) `{!∀ x, Decision (P x)} (l : list A) :
  (∀ x, x ∈ l → P x) → filter P l = l.
Proof.
  induction l as [|x l IH]; intros Hall; [done|].
  rewrite filter_cons_True by (apply Hall; by left).
  f_equal. apply IH. intros y Hy. apply Hall. by right.
Qed.

Lemma filter_none {A} (P : A → Prop) `{!∀ x, Decision (P x)} (l : list A) :
  (∀ x, x ∈ l → ¬ P x) → filter P l = [].
Proof.
  induction l as [|x l IH]; intros Hall; [done|].
  rewrite filter_cons_False by (apply Hall; by left).
  apply IH. intros y Hy. apply Hall. by right.
Qed.

(** No two entries of the list have the same key, if the key is equal to
    itself. *)
Lemma Rep_keys_NoDup ls xs s :
  Rep ls s → Ents s ls xs →
  NoDup (filter (λ k, selfEqual k = true) (key <$> xs)).
Proof.
  intros Hr Hx.
  assert (∀ a b x y, a ∈ ls → b ∈ ls →
            valP s (Elem a) = Some (Some x) → valP s (Elem b) = Some (Some y) →
            key x = key y → selfEqual (key x) = true → a = b) as Hinj.
  { intros a b x y ?????. by apply (Rep_key_inj ls s a b x y). }
  pose proof (lr_nodup _ _ (rep_list _ _ Hr)) as Hnd. clear Hr.
  induction Hx as [|a x ls xs Ha Hx IH]; [constructor|].
  apply NoDup_cons in Hnd as [Hnin Hnd]. rewrite fmap_cons.
  assert (NoDup (filter (λ k, selfEqual k = true) (key <$> xs))) as IH'.
  { apply IH; [|done]. intros b c y z Hb Hc. apply Hinj; by right. }
  destruct (selfEqual (key x)) eqn:Hse.
  - rewrite filter_cons_True by done. apply NoDup_cons. split; [|done].
    intros [_ (y & Hk & Hy)%list_elem_of_fmap]%list_elem_of_filter.
    destruct (Ents_lookup_r _ _ _ _ Hx Hy) as (b & Hb & Hyb).
    assert (a = b) as ->; [|done].
    apply (Hinj a b x y); [left|by right|done..].
  - rewrite filter_cons_False by congruence. done.
Qed.

(** The keys of the list that are equal to themselves are the keys that
    [items] finds. *)
Lemma Rep_keyed_dom ls xs s :
  Rep ls s → Ents s ls xs →
  dom (keyed (items (cache s))) =
    list_to_set (filter (λ k, selfEqual k = true) (key <$> xs)).
Proof.
  intros Hr Hx. apply set_eq. intros k.
  rewrite elem_of_dom, elem_of_list_to_set, list_elem_of_filter,
    list_elem_of_fmap.
  split.
  - intros [p Hp].
    apply (rep_items _ _ Hr) in Hp as (a & x & -> & Ha & Hv & <- & Hse).
    destruct (Ents_lookup _ _ _ _ Hx Ha) as (y & Hy & Hv').
    split; [done|]. exists y. split; [congruence|done].
  - intros (Hse & x & -> & Hin).
    destruct (Ents_lookup_r _ _ _ _ Hx Hin) as (a & Ha & Hv).
    exists (Elem a). apply (rep_items _ _ Hr). by exists a, x.
Qed.

Lemma Rep_keyed_size ls xs s :
  Rep ls s → Ents s ls xs →
  size (keyed (items (cache s))) =
    length (filter (λ k, selfEqual k = true) (key <$> xs)).
Proof.
  intros Hr Hx. rewrite <-size_dom, (Rep_keyed_dom ls xs s Hr Hx).
  apply size_list_to_set. by eapply Rep_keys_NoDup.
Qed.

(** Entries under keys that are not equal to themselves, each found at its
    own cell in [L], are no more than [L] has entries. *)
Lemma Ents_loose_length s ls xs (L : list (K * ptr)) :
  Ents s ls xs → NoDup ls →
  (∀ a x, a ∈ ls → valP s (Elem a) = Some (Some x) →
     selfEqual (key x) = false → (key x, Elem a) ∈ L) →
  (length (filter (λ k, ¬ selfEqual k = true) (key <$> xs)) ≤ length L)%nat.
Proof.
  intros Hx. revert L.
  induction Hx as [|a x ls xs Ha Hx IH]; intros L Hnd HL; [simpl; lia|].
  apply NoDup_cons in Hnd as [Hnin Hnd]. rewrite fmap_cons.
  destruct (selfEqual (key x)) eqn:Hse.
  - rewrite filter_cons_False by (intros Hn; by apply Hn).
    apply IH; [done|]. intros b y Hb. apply HL. by right.
  - rewrite filter_cons_True by congruence.
    assert ((key x, Elem a) ∈ L) as Hin by (apply HL; [left|done..]).
    apply elem_of_Permutation in Hin as [L' HL'].
    rewrite HL'. simpl. apply le_n_S, IH; [done|].
    intros b y Hb Hy Hsy.
    assert ((key y, Elem b) ∈ L) as Hin by (apply HL; [by right|done..]).
    rewrite HL' in Hin. apply elem_of_cons in Hin as [[= _ ->]|?]; done.
Qed.

(** [len(c.items)] is at least the length of the list. *)
Lemma Rep_size_le ls xs s :
  Rep ls s → Ents s ls xs → (length xs ≤ size (items (cache s)))%nat.
Proof.
  intros Hr Hx. rewrite size_GoMap, (Rep_keyed_size ls xs s Hr Hx).
  pose proof (Ents_loose_length s ls xs (loose (items (cache s))) Hx
                (lr_nodup _ _ (rep_list _ _ Hr)) (rep_listed _ _ Hr)) as Hle.
  pose proof (filter_app_complement (λ k, selfEqual k = true) (key <$> xs))
    as Hperm.
  apply Permutation_length in Hperm.
  rewrite length_app, length_fmap in Hperm. lia.
Qed.





Lemma Ents_length s ls xs : Ents s ls xs → length ls = length xs.
Proof. apply Forall2_length. Qed.

Lemma NewTimedCache_Rep d cb (w : W) :
  Rep [] (NewTimedCache (K:=K) (V:=V) d cb w).
Proof.
  split; [split|..]; try done.
  - constructor.
  - intros a Ha. by inversion Ha.
  - intros a Ha. by inversion Ha.
  - intros k p. split; [done|]. intros (a & x & _ & Ha & _). by inversion Ha.
  - intros k p Hin. by inversion Hin.
  - constructor.
Qed.

Lemma set_items_LRep ls m s : LRep ls s → LRep ls (set_items m s).
Proof. intros Hl. eapply LRep_ext; [| | | | |exact Hl]; by try intros [| |?]. Qed.

(** [Add] after the sweep has left [s1]. *)
Lemma Add_rest ls xs now' k v s1 :
  Rep ls s1 → Ents s1 ls xs → items (cache s1) !! k = None →
  wp (e ← List_PushFront (Some (mk_entry now' k v));
      modify (λ s, set_items (<[k := e]> (items (cache s))) s);;
      mret true) s1
     (λ r s2, r = true ∧
        Rep (brk s1 :: ls) s2 ∧ Ents s2 (brk s1 :: ls) (mk_entry now' k v :: xs) ∧
        items (cache s2) = <[k := Elem (brk s1)]> (items (cache s1)) ∧
        duration (cache s2) = duration (cache s1) ∧
        onEvictCall (cache s2) = onEvictCall (cache s1) ∧
        world s2 = world s1).
Proof.
  intros Hr Hx Hk. pose proof (rep_list _ _ Hr) as Hl.
  apply wp_bind. eapply wp_mono; [by apply List_PushFront_spec|].
  intros r s2 (-> & Hl2 & Hv2 & Hi2 & Hd2 & Hc2 & Hb2 & Hw2).
  apply wp_bind, wp_modify, wp_ret. set (b := brk s1) in *.
  assert (b ∉ ls) as Hb.
  { intros Hb. apply (LRep_lt _ _ _ Hl) in Hb. unfold b in Hb. lia. }
  assert (∀ a y, valP s1 (Elem a) = Some y →
            valP s2 (Elem a) = valP s1 (Elem a)) as Hkeep.
  { intros a y Hy. rewrite Hv2. unfold fupd. rewrite decide_False; [done|].
    intros [= ->]. apply (Rep_val_lt _ _ _ _ Hr) in Hy. unfold b in Hy. lia. }
  assert (∀ a, a ∈ ls → valP s2 (Elem a) = valP s1 (Elem a)) as Hold.
  { intros a Ha. rewrite Hv2. unfold fupd. rewrite decide_False; [done|].
    by intros [= ->]. }
  assert (valP s2 (Elem b) = Some (Some (mk_entry now' k v))) as Hnew.
  { rewrite Hv2. unfold fupd. by rewrite decide_True. }
  split; [done|]. split; [|split; [|by rewrite Hi2]].
  - split.
    + by apply set_items_LRep.
    + intros a Ha. change (valP (set_items _ s2)) with (valP s2).
      apply elem_of_cons in Ha as [->|Ha]; [by eexists|].
      rewrite Hold by done. by apply (rep_vals _ _ Hr).
    + intros k' p. change (valP (set_items _ s2)) with (valP s2). simpl.
      rewrite Hi2, keyed_insert. destruct (selfEqual k) eqn:Hse.
      * destruct (decide (k = k')) as [<-|Hne].
        -- rewrite lookup_insert_eq. split.
           ++ intros [= <-]. exists b, (mk_entry now' k v).
              repeat split; [left|done..].
           ++ intros (a & x & -> & Ha & Hx' & Hk' & _).
              apply elem_of_cons in Ha as [->|Ha]; [done|].
              rewrite Hold in Hx' by done.
              assert (items (cache s1) !! k = Some (Elem a)) as Hc; [|congruence].
              apply (Rep_items _ _ _ _ Hr). by exists a, x.
        -- rewrite lookup_insert_ne by done. rewrite (rep_items _ _ Hr). split.
           ++ intros (a & x & -> & Ha & Hx' & Hk' & Hs'). exists a, x.
              rewrite Hold by done. repeat split; [by right|done..].
           ++ intros (a & x & -> & Ha & Hx' & Hk' & Hs').
              apply elem_of_cons in Ha as [->|Ha].
              ** rewrite Hnew in Hx'. injection Hx' as <-. done.
              ** rewrite Hold in Hx' by done. by exists a, x.
      * rewrite (rep_items _ _ Hr). split.
        -- intros (a & x & -> & Ha & Hx' & Hk' & Hs'). exists a, x.
           rewrite Hold by done. repeat split; [by right|done..].
        -- intros (a & x & -> & Ha & Hx' & Hk' & Hs').
           apply elem_of_cons in Ha as [->|Ha].
           ++ rewrite Hnew in Hx'. injection Hx' as <-. simpl in *. congruence.
           ++ rewrite Hold in Hx' by done. by exists a, x.
    + intros k' p. change (valP (set_items _ s2)) with (valP s2). simpl.
      rewrite Hi2, loose_insert.
      assert ((k', p) ∈ loose (items (cache s1)) →
              ∃ a x, p = Elem a ∧ valP s2 (Elem a) = Some (Some x) ∧
                     key x = k' ∧ selfEqual k' = false) as Hin1.
      { intros Hin.
        destruct (rep_loose _ _ Hr _ _ Hin) as (a & x & -> & Hx' & ? & ?).
        exists a, x. by rewrite (Hkeep a (Some x)). }
      destruct (selfEqual k) eqn:Hse; [done|].
      intros [[= -> ->]|Hin]%elem_of_cons; [|by apply Hin1].
      by exists b, (mk_entry now' k v).
    + intros a x Ha. change (valP (set_items _ s2)) with (valP s2). simpl.
      rewrite Hi2, loose_insert. intros Hx' Hsx.
      apply elem_of_cons in Ha as [->|Ha].
      * rewrite Hnew in Hx'. injection Hx' as <-. simpl in *.
        rewrite Hsx. left.
      * rewrite Hold in Hx' by done.
        pose proof (rep_listed _ _ Hr a x Ha Hx' Hsx).
        destruct (selfEqual k); [done|by right].
    + simpl. rewrite Hi2, loose_insert.
      destruct (selfEqual k) eqn:Hse; [apply (rep_apart _ _ Hr)|].
      rewrite fmap_cons. apply NoDup_cons. split; [|apply (rep_apart _ _ Hr)].
      intros ([k' p] & Heq & Hin)%list_elem_of_fmap. simpl in Heq. subst p.
      destruct (rep_loose _ _ Hr _ _ Hin) as (a & x & [= <-] & Hx' & _).
      apply (Rep_val_lt _ _ _ _ Hr) in Hx'. unfold b in Hx'. lia.
  - constructor; [done|]. eapply Ents_ext; [|exact Hx].
    intros a Ha. by apply Hold.
Qed.

Lemma Rep_touch l1 a l2 xs1 xs2 x y s1 s2 s4 :
  Rep (l1 ++ a :: l2) s1 → Ents s1 l1 xs1 → Ents s1 l2 xs2 →
  valP s1 (Elem a) = Some (Some x) → key y = key x →
  LRep (a :: l1 ++ l2) s2 →
  (∀ r, nextP s4 r = nextP s2 r) → (∀ r, prevP s4 r = prevP s2 r) →
  (∀ r, listP s4 r = listP s2 r) → brk s4 = brk s2 →
  len (evictList (cache s4)) = len (evictList (cache s2)) →
  (∀ r, valP s4 r = fupd (Elem a) (Some y) (valP s1) r) →
  items (cache s4) = items (cache s1) →
  Rep (a :: l1 ++ l2) s4 ∧ Ents s4 (a :: l1 ++ l2) (y :: xs1 ++ xs2).
Proof.
  intros Hr Hx1 Hx2 Hx Hk Hl2 HN HP HL Hb Hlen HV Hi.
  destruct (LRep_at _ _ _ _ (rep_list _ _ Hr)) as (_ & _ & _ & _ & Ha1 & Ha2 & _).
  assert (valP s4 (Elem a) = Some (Some y)) as Hnew.
  { rewrite HV. unfold fupd. by rewrite decide_True. }
  assert (∀ b, b ≠ a → valP s4 (Elem b) = valP s1 (Elem b)) as Hold.
  { intros b Hb'. rewrite HV. unfold fupd. rewrite decide_False; [done|].
    by intros [= ->]. }
  assert (∀ b, b ∈ a :: l1 ++ l2 ↔ b ∈ l1 ++ a :: l2) as Hperm.
  { intros b. rewrite elem_of_cons, !elem_of_app, elem_of_cons. tauto. }
  split; [split|].
  - by eapply LRep_ext.
  - intros b Hb'. destruct (decide (b = a)) as [->|Hne]; [by eexists|].
    rewrite Hold by done. apply (rep_vals _ _ Hr). by apply Hperm.
  - intros k p. rewrite Hi, (rep_items _ _ Hr). split.
    + intros (b & z & -> & Hb' & Hz & <- & Hsz).
      destruct (decide (b = a)) as [->|Hne].
      * exists a, y. rewrite Hperm. repeat split; try done; congruence.
      * exists b, z. rewrite Hperm, Hold by done. done.
    + intros (b & z & -> & Hb' & Hz & <- & Hsz).
      destruct (decide (b = a)) as [->|Hne].
      * exists a, x. rewrite <-Hperm. repeat split; try done; congruence.
      * exists b, z. rewrite <-Hperm, <-Hold by done. done.
  - intros k p. rewrite Hi. intros Hin.
    destruct (rep_loose _ _ Hr _ _ Hin) as (b & z & -> & Hz & Hkz & Hsz).
    destruct (decide (b = a)) as [->|Hne].
    + exists a, y. repeat split; try done. congruence.
    + exists b, z. by rewrite Hold.
  - intros b z Hb' Hz Hsz. rewrite Hi.
    destruct (decide (b = a)) as [->|Hne].
    + assert (z = y) as -> by congruence. rewrite Hk.
      apply (rep_listed _ _ Hr); [apply elem_of_mid|done|congruence].
    + rewrite Hold in Hz by done.
      apply (rep_listed _ _ Hr); [by apply Hperm|done..].
  - rewrite Hi. apply (rep_apart _ _ Hr).
  - constructor; [done|]. apply Forall2_app.
    + eapply Ents_ext; [|exact Hx1]. intros b Hb'. apply Hold. by intros ->.
    + eapply Ents_ext; [|exact Hx2]. intros b Hb'. apply Hold. by intros ->.
Qed.

(** [Update] after the sweep has left [s1], on a key that is present. *)
Lemma Update_rest l1 a l2 xs1 xs2 x now' v s1 :
  Rep (l1 ++ a :: l2) s1 → Ents s1 l1 xs1 → Ents s1 l2 xs2 →
  valP s1 (Elem a) = Some (Some x) →
  wp (List_MoveToFront (Elem a);;
      y ← asEntry (Elem a); y ← deref y;
      wr_Value (Elem a) (Some (mk_entry (tm y) (key y) v));;
      y ← asEntry (Elem a); y ← deref y;
      wr_Value (Elem a) (Some (mk_entry now' (key y) (value y)));;
      mret true) s1
     (λ r s2, r = true ∧
        Rep (a :: l1 ++ l2) s2 ∧
        Ents s2 (a :: l1 ++ l2) (mk_entry now' (key x) v :: xs1 ++ xs2) ∧
        items (cache s2) = items (cache s1) ∧
        duration (cache s2) = duration (cache s1) ∧
        onEvictCall (cache s2) = onEvictCall (cache s1) ∧
        world s2 = world s1).
Proof.
  intros Hr Hx1 Hx2 Hx.
  apply wp_bind. eapply wp_mono; [apply List_MoveToFront_spec, (rep_list _ _ Hr)|].
  intros _ s2 [Hl2 Hf]. destruct Hf.
  pose proof (Views_refl s2) as Hv.
  assert (valP s2 (Elem a) = Some (Some x)) as Hx' by (by rewrite fr_val0).
  assert (is_Some (nextP s2 (Elem a))) as Ha.
  { apply cell_next_val. by eexists. }
  repeat step. split; [done|].
  match goal with Hv4 : Views s2 ?s4 _ _ _ _ _ |- _ =>
    destruct Hv4;
    destruct (Rep_touch l1 a l2 xs1 xs2 x (mk_entry now' (key x) v)
                s1 s2 s4) as [Hr4 Hx4]; try done
  end.
  { intros r. rewrite vw_val0. unfold fupd. case_decide; [done|].
    by rewrite fr_val0. }
  { congruence. }
  split; [done|]. split; [done|]. repeat split; congruence.
Qed.

(** [Get] after the sweep has left [s1], on a key that is present. *)
Lemma Get_rest l1 a l2 xs1 xs2 x now' s1 :
  Rep (l1 ++ a :: l2) s1 → Ents s1 l1 xs1 → Ents s1 l2 xs2 →
  valP s1 (Elem a) = Some (Some x) →
  wp (List_MoveToFront (Elem a);;
      y ← asEntry (Elem a);
      match y with
      | None => mret (None, false)
      | Some _ =>
          y ← asEntry (Elem a); y ← deref y;
          wr_Value (Elem a) (Some (mk_entry now' (key y) (value y)));;
          y ← asEntry (Elem a); y ← deref y;
          mret (Some (value y), true)
      end) s1
     (λ r s2, r = (Some (value x), true) ∧
        Rep (a :: l1 ++ l2) s2 ∧
        Ents s2 (a :: l1 ++ l2) (mk_entry now' (key x) (value x) :: xs1 ++ xs2) ∧
        items (cache s2) = items (cache s1) ∧
        duration (cache s2) = duration (cache s1) ∧
        onEvictCall (cache s2) = onEvictCall (cache s1) ∧
        world s2 = world s1).
Proof.
  intros Hr Hx1 Hx2 Hx.
  apply wp_bind. eapply wp_mono; [apply List_MoveToFront_spec, (rep_list _ _ Hr)|].
  intros _ s2 [Hl2 Hf]. destruct Hf.
  pose proof (Views_refl s2) as Hv.
  assert (valP s2 (Elem a) = Some (Some x)) as Hx' by (by rewrite fr_val0).
  assert (is_Some (nextP s2 (Elem a))) as Ha.
  { apply cell_next_val. by eexists. }
  repeat step. cbv beta iota. repeat step. split; [done|].
  match goal with Hv4 : Views s2 ?s4 _ _ _ _ _ |- _ =>
    destruct Hv4;
    destruct (Rep_touch l1 a l2 xs1 xs2 x (mk_entry now' (key x) (value x))
                s1 s2 s4) as [Hr4 Hx4]; try done
  end.
  { intros r. rewrite vw_val0. unfold fupd. case_decide; [done|].
    by rewrite fr_val0. }
  { congruence. }
  split; [done|]. split; [done|]. repeat split; congruence.
Qed.

Lemma GoMap_eq (m1 m2 : GoMap) :
  keyed m1 = keyed m2 → loose m1 = loose m2 → m1 = m2.
Proof. destruct m1, m2. simpl. by intros -> ->. Qed.

Lemma pick_Some k i (es : list (K * ptr)) e rest :
  pick k i es = Some (e, rest) → es ≡ₚ e :: rest ∧ e.1 = k.
Proof.
  revert i e rest. induction es as [|e' es IH]; intros i e rest; simpl; [done|].
  destruct (decide (e'.1 = k)) as [Hk|Hk].
  - destruct i as [|i]; [by intros [= <- <-]|].
    destruct (pick k i es) as [[x r]|] eqn:Hp; [|done]. intros [= <- <-].
    destruct (IH i x r Hp) as [Hperm ?]. split; [|done].
    rewrite Hperm. apply Permutation_swap.
  - destruct (pick k i es) as [[x r]|] eqn:Hp; [|done]. intros [= <- <-].
    destruct (IH i x r Hp) as [Hperm ?]. split; [|done].
    rewrite Hperm. apply Permutation_swap.
Qed.

(** [range] produces every entry of the map, once. *)
Lemma rangeBy_perm (order : list (K * nat)) (es : list (K * ptr)) :
  rangeBy order es ≡ₚ es.
Proof.
  revert es. induction order as [|[k i] order IH]; intros es; simpl; [done|].
  destruct (pick k i es) as [[e rest]|] eqn:Hp; [|done].
  apply pick_Some in Hp as [-> _]. by rewrite IH.
Qed.

Lemma pick_mid k (l1 l2 : list (K * ptr)) e :
  e.1 = k →
  pick k (length (filter (λ e', e'.1 = k) l1)) (l1 ++ e :: l2) =
    Some (e, l1 ++ l2).
Proof.
  intros He. induction l1 as [|e' l1 IH]; simpl.
  - by rewrite decide_True.
  - destruct (decide (e'.1 = k)) as [Hk|Hk].
    + rewrite filter_cons_True by done. simpl. by rewrite IH.
    + rewrite filter_cons_False by done. by rewrite IH.
Qed.

(** Every order of the entries is the choice of some [order]. *)
Lemma rangeBy_complete (es es' : list (K * ptr)) :
  es' ≡ₚ es → ∃ order, rangeBy order es = es'.
Proof.
  revert es. induction es' as [|e es' IH]; intros es Hperm.
  - apply Permutation_nil_l in Hperm as ->. by exists [].
  - assert (e ∈ es) as Hin by (rewrite <-Hperm; left).
    apply list_elem_of_split in Hin as (l1 & l2 & ->).
    apply Permutation_cons_app_inv in Hperm.
    destruct (IH _ Hperm) as [order Ho].
    exists ((e.1, length (filter (λ e', e'.1 = e.1) l1)) :: order).
    simpl. by rewrite pick_mid, Ho.
Qed.

Lemma rangeOrder_perm (order : list (K * nat)) (m : GoMap) :
  rangeOrder order m ≡ₚ map_to_list (keyed m) ++ loose m.
Proof. apply rangeBy_perm. Qed.

Lemma elem_of_rangeOrder (order : list (K * nat)) (m : GoMap) k p :
  (k, p) ∈ rangeOrder order m ↔ keyed m !! k = Some p ∨ (k, p) ∈ loose m.
Proof.
  by rewrite rangeOrder_perm, elem_of_app, elem_of_map_to_list.
Qed.

Lemma length_rangeOrder (order : list (K * nat)) (m : GoMap) :
  length (rangeOrder order m) = size m.
Proof.
  rewrite rangeOrder_perm, length_app, length_map_to_list. done.
Qed.

Lemma loose_foldl_delete (es : list (K * ptr)) (m : GoMap) :
  loose (foldl (λ m e, delete e.1 m) m es) = loose m.
Proof.
  revert m. induction es as [|e es IH]; intros m; simpl; [done|].
  by rewrite IH, loose_delete.
Qed.

Lemma keyed_foldl_delete (es : list (K * ptr)) (m : GoMap) k :
  keyed m !! k = None ∨ (selfEqual k = true ∧ k ∈ es.*1) →
  keyed (foldl (λ m e, delete e.1 m) m es) !! k = None.
Proof.
  revert m. induction es as [|e es IH]; intros m; simpl.
  { intros [?|[_ Hin]]; [done|by inversion Hin]. }
  intros Hk. apply IH. rewrite keyed_delete.
  destruct Hk as [Hk|[Hse Hin]].
  - left. destruct (selfEqual e.1); [|done].
    apply lookup_delete_None. by right.
  - apply elem_of_cons in Hin as [->|Hin]; [|by right].
    left. rewrite Hse. apply lookup_delete_eq.
Qed.

Lemma notifyItem_ext s s' (w : W) (e : K * ptr) :
  (∀ r, valP s' r = valP s r) →
  onEvictCall (cache s') = onEvictCall (cache s) →
  notifyItem s' w e = notifyItem s w e.
Proof. intros Hv Hc. unfold notifyItem, entryAt. by rewrite Hv, Hc. Qed.

Lemma foldl_ext_all {A B} (f g : A → B → A) (l : list B) (a : A) :
  (∀ a' b, f a' b = g a' b) → foldl f a l = foldl g a l.
Proof.
  intros Hfg. revert a. induction l as [|b l IH]; intros a; [done|].
  simpl. by rewrite Hfg, IH.
Qed.

(** The loop of [Purge] over entries that point to cells with an entry:
    the callback is called on each in turn, [delete] is applied to the key
    of each, and nothing else changes. *)
Lemma purgeRange_spec (es : list (K * ptr)) s :
  (∀ k p, (k, p) ∈ es →
     ∃ a x, p = Elem a ∧ valP s (Elem a) = Some (Some x)) →
  wp (purgeRange es) s (λ _ s',
    items (cache s') = foldl (λ m e, delete e.1 m) (items (cache s)) es ∧
    (∀ r, nextP s' r = nextP s r) ∧ (∀ r, prevP s' r = prevP s r) ∧
    (∀ r, listP s' r = listP s r) ∧ (∀ r, valP s' r = valP s r) ∧
    len (evictList (cache s')) = len (evictList (cache s)) ∧
    brk s' = brk s ∧
    duration (cache s') = duration (cache s) ∧
    onEvictCall (cache s') = onEvictCall (cache s) ∧
    world s' = foldl (notifyItem s) (world s) es).
Proof.
  revert s. induction es as [|[k p] es IH]; intros s Hs.
  - apply wp_ret. repeat split; try done.
  - destruct (Hs k p) as (a & x & -> & Hx); [left|].
    simpl. apply wp_bind, wp_gets. apply wp_bind.
    assert (wp (if decide (onEvictCall (cache s) ≠ None) then
                  ent ← asEntry (Elem a); y ← deref ent;
                  call (onEvictCall (cache s)) k (value y)
                else mret ()) s
              (λ _ s1, cache s1 = cache s ∧ heap s1 = heap s ∧
                 brk s1 = brk s ∧
                 world s1 = fire (onEvictCall (cache s)) k (value x) (world s)))
      as Hcb.
    { destruct (onEvictCall (cache s)) as [f|].
      - rewrite decide_True by done.
        apply wp_bind. eapply wp_asEntry; [done|].
        apply wp_bind, wp_deref. by apply wp_modify.
      - rewrite decide_False by (by intros ?). by apply wp_ret. }
    eapply wp_mono; [exact Hcb|]. intros _ s1 (Hc1 & Hh1 & Hb1 & Hw1).
    apply wp_bind, wp_modify.
    set (s2 := set_items _ s1).
    assert (∀ r, elemP s2 r = elemP s r) as He.
    { intros [| |b]; simpl; [done|by rewrite Hc1|by rewrite Hh1]. }
    assert (∀ r, valP s2 r = valP s r) as Hv2.
    { intros r. unfold valP. by rewrite He. }
    eapply wp_mono.
    { apply (IH s2). intros k' p' Hin.
      destruct (Hs k' p') as (b & y & -> & Hy); [by right|].
      exists b, y. by rewrite Hv2. }
    intros _ s' (Hi & HN & HP & HL & HV & Hlen & Hb & Hd & Hc & Hw).
    unfold nextP, prevP, listP in *.
    repeat split.
    * rewrite Hi. simpl. by rewrite Hc1.
    * intros r. by rewrite HN, He.
    * intros r. by rewrite HP, He.
    * intros r. by rewrite HL, He.
    * intros r. by rewrite HV, Hv2.
    * rewrite Hlen. simpl. by rewrite Hc1.
    * by rewrite Hb.
    * rewrite Hd. simpl. by rewrite Hc1.
    * rewrite Hc. simpl. by rewrite Hc1.
    * rewrite Hw. simpl. rewrite Hw1.
      unfold notifyItem at 3, entryAt. simpl. rewrite Hx.
      apply foldl_ext_all. intros w e. apply notifyItem_ext; [done|].
      simpl. by rewrite Hc1.
Qed.

Lemma Purge_spec order ls s :
  Rep ls s →
  wp (Purge order) s (λ _ s',
    Rep [] s' ∧
    items (cache s') = mk_GoMap ∅ (loose (items (cache s))) ∧
    (∀ r, valP s' r = valP s r) ∧
    duration (cache s') = duration (cache s) ∧
    onEvictCall (cache s') = onEvictCall (cache s) ∧
    brk s' = brk s ∧
    world s' = foldl (notifyItem s) (world s)
                 (rangeOrder order (items (cache s)))).
Proof.
  intros Hr. unfold Purge. apply wp_bind, wp_gets. apply wp_bind.
  eapply wp_mono.
  { apply purgeRange_spec. intros k p [Hp|Hp]%elem_of_rangeOrder.
    - apply (rep_items _ _ Hr) in Hp as (a & x & -> & _ & Hx & _).
      by exists a, x.
    - destruct (rep_loose _ _ Hr _ _ Hp) as (a & x & -> & Hx & _).
      by exists a, x. }
  intros _ s1 (Hi & HN & HP & HL & HV & Hlen & Hb & Hd & Hc & Hw).
  assert (items (cache s1) = mk_GoMap ∅ (loose (items (cache s)))) as Hempty.
  { rewrite Hi. apply GoMap_eq; simpl; [|apply loose_foldl_delete].
    apply map_eq. intros k. rewrite lookup_empty.
    apply keyed_foldl_delete.
    destruct (keyed (items (cache s)) !! k) as [p|] eqn:Hk; [right|by left].
    split.
    - by apply (rep_items _ _ Hr) in Hk as (a & x & _ & _ & _ & _ & ?).
    - apply list_elem_of_fmap. exists (k, p). split; [done|].
      apply elem_of_rangeOrder. by left. }
  pose proof (Views_refl s1) as Hv1.
  eapply wp_mono; [apply (List_Init_views s1 s1 _ _ _ _ _ Hv1)|].
  intros [] s2 Hv2. destruct Hv2.
  assert (∀ r, valP s2 r = valP s r) as HV2.
  { intros r. by rewrite vw_val0, HV. }
  split; [|repeat split; try congruence].
  split; [split|..].
  - constructor.
  - simpl. rewrite vw_next0, vw_prev0. unfold fupd. by rewrite !decide_True.
  - intros a Ha. by inversion Ha.
  - intros a Ha. rewrite vw_next0. unfold fupd.
    rewrite decide_False by done. rewrite HN.
    apply (lr_fresh _ _ (rep_list _ _ Hr)). lia.
  - done.
  - intros a Ha. by inversion Ha.
  - intros k p. rewrite vw_items0, Hempty. simpl. rewrite lookup_empty.
    split; [done|]. intros (a & x & _ & Ha & _). by inversion Ha.
  - intros k p. rewrite vw_items0, Hempty. simpl. setoid_rewrite HV2.
    apply (rep_loose _ _ Hr).
  - intros a x Ha. by inversion Ha.
  - rewrite vw_items0, Hempty. simpl. apply (rep_apart _ _ Hr).
Qed.

End CacheRep.

(** ** The public operations on well-formed caches *)

Section Operations.

Context {K : Type} `{Countable K} `{!GoKey K} {V W : Type}.

Local Abbreviation State := (State (K:=K) (V:=V) (W:=W)).
Local Abbreviation entry := (entry (K:=K) (V:=V)).

Implicit Types (s : State) (ls : list addr) (xs : list entry) (k : K).

Lemma wf_contents s : wf s → ∃ ls, Rep ls s ∧ Ents s ls (contents s).
Proof.
  intros [ls Hr]. destruct (Rep_Ents _ _ Hr) as [xs Hx].
  exists ls. split; [done|]. by rewrite (contents_Ents ls xs s).
Qed.

(** A key of the map is the key of exactly one element of the list. *)
Lemma Rep_lookup ls xs s k p :
  Rep ls s → Ents s ls xs → items (cache s) !! k = Some p →
  ∃ l1 a l2 xs1 x xs2,
    p = Elem a ∧ ls = l1 ++ a :: l2 ∧ xs = xs1 ++ x :: xs2 ∧
    Ents s l1 xs1 ∧ Ents s l2 xs2 ∧
    valP s (Elem a) = Some (Some x) ∧ key x = k.
Proof.
  intros Hr Hx Hp.
  apply (Rep_items _ _ _ _ Hr) in Hp as (a & x & -> & Ha & Hv & Hk & _).
  apply list_elem_of_split in Ha as (l1 & l2 & ->).
  apply Ents_app_inv in Hx as (xs1 & ys & -> & Hx1 & Hys).
  apply Forall2_cons_inv_l in Hys as (y & xs2 & Hy & Hx2 & ->).
  assert (y = x) as -> by congruence.
  by exists l1, a, l2, xs1, x, xs2.
Qed.

Lemma Add_wf_items now now' k v s :
  wf s →
  ∃ s1, purgeExpired now s = Ok (tt, s1) ∧ wf s1 ∧
    ((items (cache s1) !! k = None ∧
      ∃ s2, Add now now' k v s = Ok (true, s2) ∧ wf s2 ∧
        contents s2 = mk_entry now' k v :: contents s1 ∧
        items (cache s2) = <[k := Elem (brk s1)]> (items (cache s1)) ∧
        duration (cache s2) = duration (cache s1) ∧
        onEvictCall (cache s2) = onEvictCall (cache s1) ∧
        world s2 = world s1) ∨
     (is_Some (items (cache s1) !! k) ∧ Add now now' k v s = Ok (false, s1))).
Proof.
  intros Hwf. destruct (purgeExpired_wf now s Hwf) as (s1 & Hs1 & Hwf1).
  exists s1. split; [done|]. split; [done|].
  destruct (wf_contents s1 Hwf1) as (ls & Hr & Hx).
  unfold Add. rewrite (bind_Ok _ _ _ _ _ Hs1).
  rewrite !gets_bind.
  destruct (items (cache s1) !! k) as [p|] eqn:Hk.
  - right. split; [by eexists|done].
  - left. split; [done|].
    pose proof (Add_rest ls _ now' k v s1 Hr Hx Hk) as Hw.
    apply wp_ok in Hw as (r & s2 & Hs2 & -> & Hr2 & Hx2 & Hi2 & Hd2 & Hc2 & Hw2).
    exists s2. split; [done|]. split; [by eexists|].
    split; [by apply (contents_Ents _ _ _ Hr2)|]. done.
Qed.

Lemma Add_wf now now' k v s :
  wf s →
  ∃ s1, purgeExpired now s = Ok (tt, s1) ∧ wf s1 ∧
    ((items (cache s1) !! k = None ∧
      ∃ s2, Add now now' k v s = Ok (true, s2) ∧ wf s2 ∧
        contents s2 = mk_entry now' k v :: contents s1 ∧
        dom (items (cache s2)) = {[k]} ∪ dom (items (cache s1)) ∧
        duration (cache s2) = duration (cache s1) ∧
        onEvictCall (cache s2) = onEvictCall (cache s1) ∧
        world s2 = world s1) ∨
     (is_Some (items (cache s1) !! k) ∧ Add now now' k v s = Ok (false, s1))).
Proof.
  intros Hwf.
  destruct (Add_wf_items now now' k v s Hwf)
    as (s1 & Hs1 & Hwf1 & [(Hk & s2 & Hs2 & Hwf2 & Hc & Hi & Hrest)|Hp]).
  - exists s1. split; [done|]. split; [done|]. left. split; [done|].
    exists s2. split; [done|]. split; [done|]. split; [done|].
    split; [|done]. by rewrite Hi, dom_GoMap_insert.
  - exists s1. split; [done|]. split; [done|]. by right.
Qed.

Lemma Update_wf now now' k v s :
  wf s →
  ∃ s1, purgeExpired now s = Ok (tt, s1) ∧ wf s1 ∧
    ((items (cache s1) !! k = None ∧ Update now now' k v s = Ok (false, s1)) ∨
     (∃ xs1 x xs2 s2,
        contents s1 = xs1 ++ x :: xs2 ∧ key x = k ∧
        Update now now' k v s = Ok (true, s2) ∧ wf s2 ∧
        contents s2 = mk_entry now' k v :: xs1 ++ xs2 ∧
        items (cache s2) = items (cache s1) ∧
        duration (cache s2) = duration (cache s1) ∧
        onEvictCall (cache s2) = onEvictCall (cache s1) ∧
        world s2 = world s1)).
Proof.
  intros Hwf. destruct (purgeExpired_wf now s Hwf) as (s1 & Hs1 & Hwf1).
  exists s1. split; [done|]. split; [done|].
  destruct (wf_contents s1 Hwf1) as (ls & Hr & Hx).
  unfold Update. rewrite (bind_Ok _ _ _ _ _ Hs1).
  rewrite !gets_bind.
  destruct (items (cache s1) !! k) as [p|] eqn:Hk; [right|by left].
  destruct (Rep_lookup _ _ _ _ _ Hr Hx Hk)
    as (l1 & a & l2 & xs1 & x & xs2 & -> & -> & Hxs & Hx1 & Hx2 & Hv & <-).
  pose proof (Update_rest l1 a l2 xs1 xs2 x now' v s1 Hr Hx1 Hx2 Hv) as Hw.
  apply wp_ok in Hw as (r & s2 & Hs2 & -> & Hr2 & Hx4 & Hi2 & Hd2 & Hc2 & Hw2).
  exists xs1, x, xs2, s2. repeat split; try done.
  - by eexists.
  - by apply (contents_Ents _ _ _ Hr2).
Qed.

Lemma Get_wf now now' k s :
  wf s →
  ∃ s1, purgeExpired now s = Ok (tt, s1) ∧ wf s1 ∧
    ((items (cache s1) !! k = None ∧
      Get now now' k s = Ok ((None, false), s1)) ∨
     (∃ xs1 x xs2 s2,
        contents s1 = xs1 ++ x :: xs2 ∧ key x = k ∧
        Get now now' k s = Ok ((Some (value x), true), s2) ∧ wf s2 ∧
        contents s2 = mk_entry now' k (value x) :: xs1 ++ xs2 ∧
        items (cache s2) = items (cache s1) ∧
        duration (cache s2) = duration (cache s1) ∧
        onEvictCall (cache s2) = onEvictCall (cache s1) ∧
        world s2 = world s1)).
Proof.
  intros Hwf. destruct (purgeExpired_wf now s Hwf) as (s1 & Hs1 & Hwf1).
  exists s1. split; [done|]. split; [done|].
  destruct (wf_contents s1 Hwf1) as (ls & Hr & Hx).
  unfold Get. rewrite (bind_Ok _ _ _ _ _ Hs1).
  rewrite !gets_bind.
  destruct (items (cache s1) !! k) as [p|] eqn:Hk; [right|by left].
  destruct (Rep_lookup _ _ _ _ _ Hr Hx Hk)
    as (l1 & a & l2 & xs1 & x & xs2 & -> & -> & Hxs & Hx1 & Hx2 & Hv & <-).
  pose proof (Get_rest l1 a l2 xs1 xs2 x now' s1 Hr Hx1 Hx2 Hv) as Hw.
  apply wp_ok in Hw as (r & s2 & Hs2 & -> & Hr2 & Hx4 & Hi2 & Hd2 & Hc2 & Hw2).
  exists xs1, x, xs2, s2. repeat split; try done.
  - by eexists.
  - by apply (contents_Ents _ _ _ Hr2).
Qed.

Lemma Contains_wf now k s :
  wf s →
  ∃ s1, purgeExpired now s = Ok (tt, s1) ∧ wf s1 ∧
    Contains now k s = Ok (bool_decide (is_Some (items (cache s1) !! k)), s1).
Proof.
  intros Hwf. destruct (purgeExpired_wf now s Hwf) as (s1 & Hs1 & Hwf1).
  exists s1. split; [done|]. split; [done|].
  unfold Contains. by rewrite (bind_Ok _ _ _ _ _ Hs1).
Qed.

Lemma Peek_wf now k s :
  wf s →
  ∃ s1, purgeExpired now s = Ok (tt, s1) ∧ wf s1 ∧
    ((items (cache s1) !! k = None ∧ Peek now k s = Ok ((None, false), s1)) ∨
     (∃ x, x ∈ contents s1 ∧ key x = k ∧
           Peek now k s = Ok ((Some (value x), true), s1))).
Proof.
  intros Hwf. destruct (purgeExpired_wf now s Hwf) as (s1 & Hs1 & Hwf1).
  exists s1. split; [done|]. split; [done|].
  destruct (wf_contents s1 Hwf1) as (ls & Hr & Hx).
  unfold Peek. rewrite (bind_Ok _ _ _ _ _ Hs1). rewrite !gets_bind.
  destruct (items (cache s1) !! k) as [p|] eqn:Hk; [right|by left].
  destruct (Rep_lookup _ _ _ _ _ Hr Hx Hk)
    as (l1 & a & l2 & xs1 & x & xs2 & -> & -> & Hxs & Hx1 & Hx2 & Hv & <-).
  exists x. split; [rewrite Hxs; set_solver|]. split; [done|].
  assert (wp (y ← asEntry (Elem a); y ← deref y; mret (Some (value y), true)) s1
             (λ r s2, r = (Some (value x), true) ∧ s2 = s1)) as Hw.
  { apply wp_bind. eapply wp_asEntry; [done|]. by apply wp_bind, wp_deref. }
  by apply wp_ok in Hw as (r & s2 & -> & -> & ->).
Qed.

Lemma Len_wf now s :
  wf s →
  ∃ s1, purgeExpired now s = Ok (tt, s1) ∧ wf s1 ∧
    Len now s = Ok (Z.of_nat (length (contents s1)), s1).
Proof.
  intros Hwf. destruct (purgeExpired_wf now s Hwf) as (s1 & Hs1 & Hwf1).
  exists s1. split; [done|]. split; [done|].
  destruct (wf_contents s1 Hwf1) as (ls & Hr & Hx).
  unfold Len. rewrite (bind_Ok _ _ _ _ _ Hs1).
  unfold List_Len, rd_len, gets.
  by rewrite (lr_len _ _ (rep_list _ _ Hr)), (Ents_length _ _ _ Hx).
Qed.

(** [Keys] fills the slots of its slice from the first on with the keys of
    the list, the oldest first; the slots that are left, one for every
    entry that the map has and the list has not, hold the nil interface. *)
Lemma Keys_wf now s :
  wf s →
  ∃ s1, purgeExpired now s = Ok (tt, s1) ∧ wf s1 ∧
    Keys now s =
      Ok ((Some ∘ key <$> reverse (contents s1)) ++
          replicate (size (items (cache s1)) - length (contents s1)) None, s1).
Proof.
  intros Hwf. destruct (purgeExpired_wf now s Hwf) as (s1 & Hs1 & Hwf1).
  exists s1. split; [done|]. split; [done|].
  destruct (wf_contents s1 Hwf1) as (ls & Hr & Hx).
  unfold Keys. rewrite (bind_Ok _ _ _ _ _ Hs1). rewrite gets_bind.
  pose proof (rep_list _ _ Hr) as Hl.
  pose proof (Rep_size_le _ _ _ Hr Hx) as Hsz.
  pose proof (Ents_length _ _ _ Hx) as Hlen.
  assert (wp (e ← List_Back;
              keysLoop (S (size (items (cache s1)))) e 0
                       (replicate (size (items (cache s1))) None)) s1
             (λ r s2, s2 = s1 ∧
                r = (Some ∘ key <$> reverse (contents s1)) ++
                    replicate (size (items (cache s1)) - length (contents s1))
                              None)) as Hw.
  { apply wp_bind. eapply wp_mono; [by apply List_Back_spec|].
    intros r s2 [-> ->].
    eapply wp_mono.
    { apply (keysLoop_spec ls [] (contents s1)).
      - by rewrite app_nil_r.
      - done.
      - lia.
      - rewrite length_replicate. lia. }
    intros r s2 [-> ->]. split; [done|].
    rewrite drop_replicate. simpl. by rewrite Hlen. }
  by apply wp_ok in Hw as (r & s2 & -> & -> & ->).
Qed.

Lemma Remove_wf now k s :
  wf s →
  ∃ s1, purgeExpired now s = Ok (tt, s1) ∧ wf s1 ∧
    ((items (cache s1) !! k = None ∧ Remove now k s = Ok (false, s1)) ∨
     (∃ xs1 x xs2 s2,
        contents s1 = xs1 ++ x :: xs2 ∧ key x = k ∧
        Remove now k s = Ok (true, s2) ∧ wf s2 ∧
        contents s2 = xs1 ++ xs2 ∧
        items (cache s2) = delete k (items (cache s1)) ∧
        duration (cache s2) = duration (cache s1) ∧
        onEvictCall (cache s2) = onEvictCall (cache s1) ∧
        world s2 = fire (onEvictCall (cache s1)) k (value x) (world s1))).
Proof.
  intros Hwf. destruct (purgeExpired_wf now s Hwf) as (s1 & Hs1 & Hwf1).
  exists s1. split; [done|]. split; [done|].
  destruct (wf_contents s1 Hwf1) as (ls & Hr & Hx).
  unfold Remove. rewrite (bind_Ok _ _ _ _ _ Hs1). rewrite !gets_bind.
  destruct (items (cache s1) !! k) as [p|] eqn:Hk; [right|by left].
  destruct (Rep_lookup _ _ _ _ _ Hr Hx Hk)
    as (l1 & a & l2 & xs1 & x & xs2 & -> & -> & Hxs & Hx1 & Hx2 & Hv & <-).
  pose proof (removeElement_spec l1 a l2 x s1 Hr Hv) as Hw.
  apply wp_ok in Hw as ([] & s2 & Hs2 & Hr2 & Hv2 & Hi2 & Hd2 & Hc2 & _ & Hw2 & _).
  exists xs1, x, xs2, s2. rewrite (bind_Ok _ _ _ _ _ Hs2).
  repeat split; try done.
  - by eexists.
  - apply (contents_Ents _ _ _ Hr2). apply Forall2_app.
    + eapply Ents_ext; [|exact Hx1]. intros b _. apply Hv2.
    + eapply Ents_ext; [|exact Hx2]. intros b _. apply Hv2.
Qed.

Lemma notifyItem_None s (w : W) (es : list (K * ptr)) :
  onEvictCall (cache s) = None → foldl (notifyItem s) w es = w.
Proof.
  intros Hn. induction es as [|e es IH]; [done|]. simpl.
  unfold notifyItem at 2. rewrite Hn. simpl. by destruct (entryAt s e.2).
Qed.

Lemma Purge_wf order s :
  wf s →
  ∃ s2, Purge order s = Ok (tt, s2) ∧ wf s2 ∧
    contents s2 = [] ∧
    items (cache s2) = mk_GoMap ∅ (loose (items (cache s))) ∧
    duration (cache s2) = duration (cache s) ∧
    onEvictCall (cache s2) = onEvictCall (cache s) ∧
    (onEvictCall (cache s) = None → world s2 = world s).
Proof.
  intros [ls Hr]. pose proof (Purge_spec order ls s Hr) as Hw.
  apply wp_ok in Hw as ([] & s2 & Hs2 & Hr2 & Hi & _ & Hd & Hc & _ & Hw).
  exists s2. repeat split; try done.
  - by exists [].
  - apply (contents_Ents [] [] s2 Hr2). constructor.
  - intros Hn. by rewrite Hw, notifyItem_None.
Qed.

Lemma Purge_world order s s2 :
  wf s → Purge order s = Ok (tt, s2) →
  world s2 = foldl (notifyItem s) (world s)
               (rangeOrder order (items (cache s))).
Proof.
  intros [ls Hr] Hs2. pose proof (Purge_spec order ls s Hr) as Hw.
  apply wp_ok in Hw as ([] & s2' & Hs2' & _ & _ & _ & _ & _ & _ & Hw).
  congruence.
Qed.

(** One run of the sweep removes the back entry when it is expired, and
    nothing else. *)
Lemma PurgeExpired_wf now s :
  wf s →
  ∃ s1, purgeExpired now s = Ok (tt, s1) ∧ wf s1 ∧
    ((contents s = [] ∧ s1 = s) ∨
     (∃ xs x, contents s = xs ++ [x] ∧
        ((¬ expired now (duration (cache s)) x ∧ s1 = s) ∨
         (expired now (duration (cache s)) x ∧ contents s1 = xs ∧
          items (cache s1) = delete (key x) (items (cache s)) ∧
          duration (cache s1) = duration (cache s) ∧
          onEvictCall (cache s1) = onEvictCall (cache s) ∧
          world s1 =
            fire (onEvictCall (cache s)) (key x) (value x) (world s))))).
Proof.
  intros Hwf. destruct (wf_contents s Hwf) as (ls & Hr & Hx).
  pose proof (purgeExpired_spec now ls s Hr) as Hw.
  apply wp_ok in Hw as ([] & s1 & Hs1 & ls' & Hpost & Hr').
  exists s1. split; [done|]. split; [by exists ls'|].
  destruct Hpost as [(-> & -> & ->)|(l1 & a & x & -> & Hv & Hpost)].
  - left. split; [|done]. by apply Forall2_nil_inv_l in Hx.
  - right. apply Ents_app_inv in Hx as (xs1 & ys & Hxs & Hx1 & Hys).
    apply Forall2_cons_inv_l in Hys as (y & zs & Hy & Hnil & ->).
    apply Forall2_nil_inv_l in Hnil as ->.
    assert (y = x) as -> by congruence.
    exists xs1, x. split; [done|].
    destruct Hpost as [(Hne & -> & ->)|(He & -> & Hv1 & Hi & Hd & Hc & Hb & Hw)].
    + by left.
    + right. repeat split; try done.
      apply (contents_Ents _ _ _ Hr').
      eapply Ents_ext; [|exact Hx1]. intros b _. apply Hv1.
Qed.

(** The sweep leaves the configuration alone, and the world too when there
    is no callback. *)
Lemma sweep_config now s s1 :
  wf s → purgeExpired now s = Ok (tt, s1) →
  duration (cache s1) = duration (cache s) ∧
  onEvictCall (cache s1) = onEvictCall (cache s) ∧
  (onEvictCall (cache s) = None → world s1 = world s).
Proof.
  intros Hwf Hs1.
  destruct (PurgeExpired_wf now s Hwf) as (s1' & Hs1' & _ & Hcase).
  assert (s1' = s1) as -> by congruence.
  destruct Hcase as [[_ ->]|(xs & x & _ & [[_ ->]|(_ & _ & _ & Hd & Hc & Hw)])];
    try done.
  repeat split; try done. intros Hn. by rewrite Hw, Hn.
Qed.

Lemma Kept_refl s : wf s → Kept s s.
Proof. by intros ?. Qed.

Lemma Kept_trans s1 s2 s3 : Kept s1 s2 → Kept s2 s3 → Kept s1 s3.
Proof.
  intros (? & Hd & Hc & Hw) (? & Hd' & Hc' & Hw'). repeat split; try congruence.
  intros Hn. rewrite Hw', Hw; [done..|congruence].
Qed.

Lemma sweep_Kept now s s1 :
  wf s → purgeExpired now s = Ok (tt, s1) → Kept s s1.
Proof.
  intros Hwf Hs1. destruct (sweep_config now s s1 Hwf Hs1) as (? & ? & ?).
  destruct (purgeExpired_wf now s Hwf) as (s1' & Hs1' & Hwf1).
  assert (s1' = s1) as -> by congruence. done.
Qed.

Lemma exec_wf (o : Op) s : wf s → ∃ s', exec o s = Ok (tt, s') ∧ Kept s s'.
Proof.
  intros Hwf. destruct o as [now now' k v|now now' k v|now now' k|now k|now k
                            |now k|now|now|order|now]; simpl.
  - destruct (Add_wf now now' k v s Hwf)
      as (s1 & Hs1 & Hwf1 & [(_ & s2 & Hs2 & Hwf2 & _ & _ & ? & ? & ?)|(_ & Hs2)]);
      rewrite (bind_Ok _ _ _ _ _ Hs2); eexists; (split; [done|]);
      (eapply Kept_trans; [by eapply sweep_Kept|]); [|by apply Kept_refl].
    repeat split; try done; congruence.
  - destruct (Update_wf now now' k v s Hwf)
      as (s1 & Hs1 & Hwf1 &
          [(_ & Hs2)|(? & ? & ? & s2 & _ & _ & Hs2 & Hwf2 & _ & _ & ? & ? & ?)]);
      rewrite (bind_Ok _ _ _ _ _ Hs2); eexists; (split; [done|]);
      (eapply Kept_trans; [by eapply sweep_Kept|]); [by apply Kept_refl|].
    repeat split; try done; congruence.
  - destruct (Get_wf now now' k s Hwf)
      as (s1 & Hs1 & Hwf1 &
          [(_ & Hs2)|(? & ? & ? & s2 & _ & _ & Hs2 & Hwf2 & _ & _ & ? & ? & ?)]);
      rewrite (bind_Ok _ _ _ _ _ Hs2); eexists; (split; [done|]);
      (eapply Kept_trans; [by eapply sweep_Kept|]); [by apply Kept_refl|].
    repeat split; try done; congruence.
  - destruct (Contains_wf now k s Hwf) as (s1 & Hs1 & Hwf1 & Hs2).
    rewrite (bind_Ok _ _ _ _ _ Hs2). eexists. split; [done|].
    by eapply sweep_Kept.
  - destruct (Peek_wf now k s Hwf)
      as (s1 & Hs1 & Hwf1 & [(_ & Hs2)|(? & _ & _ & Hs2)]);
      rewrite (bind_Ok _ _ _ _ _ Hs2); eexists; (split; [done|]);
      by eapply sweep_Kept.
  - destruct (Remove_wf now k s Hwf)
      as (s1 & Hs1 & Hwf1 &
          [(_ & Hs2)|(? & ? & ? & s2 & _ & _ & Hs2 & Hwf2 & _ & _ & ? & Hc & Hw)]);
      rewrite (bind_Ok _ _ _ _ _ Hs2); eexists; (split; [done|]);
      (eapply Kept_trans; [by eapply sweep_Kept|]); [by apply Kept_refl|].
    repeat split; try done; intros Hn; by rewrite Hw, Hn.
  - destruct (Keys_wf now s Hwf) as (s1 & Hs1 & Hwf1 & Hs2).
    rewrite (bind_Ok _ _ _ _ _ Hs2). eexists. split; [done|].
    by eapply sweep_Kept.
  - destruct (Len_wf now s Hwf) as (s1 & Hs1 & Hwf1 & Hs2).
    rewrite (bind_Ok _ _ _ _ _ Hs2). eexists. split; [done|].
    by eapply sweep_Kept.
  - destruct (Purge_wf order s Hwf) as (s2 & Hs2 & Hwf2 & _ & _ & ? & ? & ?).
    by exists s2.
  - destruct (purgeExpired_wf now s Hwf) as (s1 & Hs1 & Hwf1).
    exists s1. split; [done|]. by eapply sweep_Kept.
Qed.

Lemma run_wf (ops : list Op) s : wf s → ∃ s', run ops s = Ok s' ∧ Kept s s'.
Proof.
  revert s. induction ops as [|o ops IH]; intros s Hwf; simpl.
  { exists s. split; [done|]. by apply Kept_refl. }
  destruct (exec_wf o s Hwf) as (s' & -> & Hk).
  destruct (IH s') as (s'' & Hs'' & Hk'); [by destruct Hk|].
  exists s''. split; [done|]. by eapply Kept_trans.
Qed.




End Operations.

(** ** Properties of the cache *)

Section Properties.

Context {K : Type} `{Countable K} `{!GoKey K} {V W : Type}.

Local Abbreviation State := (State (K:=K) (V:=V) (W:=W)).
Local Abbreviation entry := (entry (K:=K) (V:=V)).

Implicit Types (s : State) (k : K).

Lemma reachable_wf s : reachable s → wf s.
Proof.
  intros (d & cb & w & ops & Hrun).
  destruct (run_wf ops (NewTimedCache d cb w)) as (s' & Hs' & Hwf & _).
  { exists []. apply NewTimedCache_Rep. }
  congruence.
Qed.

(** X1: what one run of the sweep does to a reachable cache: if the entry at
    the back of the list is expired (its age strictly exceeds the
    duration), that entry is removed from the list, [delete] is applied to
    the map at its key, and the callback is called on its key and value;
    nothing else changes, and nothing at all when the back entry is not
    expired.  After the [delete] the key is not found in the map; when the
    key is not equal to itself, that is because it never is, and the map
    is left as it was, with the entry of the removed element in it. *)
Theorem sweep_removes_expired_back_entry now s :
  reachable s →
  ∃ s1, purgeExpired now s = Ok (tt, s1) ∧
    ((contents s = [] ∧ s1 = s) ∨
     (∃ xs x, contents s = xs ++ [x] ∧
        ((age now x ≤ duration (cache s) ∧ s1 = s) ∨
         (age now x > duration (cache s) ∧ contents s1 = xs ∧
          items (cache s1) = delete (key x) (items (cache s)) ∧
          items (cache s1) !! key x = None ∧
          (selfEqual (key x) = false →
           items (cache s1) = items (cache s)) ∧
          world s1 =
            fire (onEvictCall (cache s)) (key x) (value x) (world s))))).
Proof.
  intros Hwf%reachable_wf.
  destruct (PurgeExpired_wf now s Hwf) as (s1 & Hs1 & _ & Hcase).
  exists s1. split; [done|].
  destruct Hcase as [?|(xs & x & Hxs & Hcase)]; [by left|right].
  exists xs, x. split; [done|]. unfold expired in Hcase.
  destruct Hcase as [[Hne ->]|(He & Hc & Hi & _ & _ & Hw)].
  - left. split; [lia|done].
  - right. split; [done|]. split; [done|]. split; [done|].
    split; [by rewrite Hi, lookup_GoMap_delete|]. split; [|done].
    intros Hse. rewrite Hi. unfold delete, GoMap_delete. by rewrite Hse.
Qed.

(** C2, as the code has it: [Add], [Update], [Get], [Peek], [Contains],
    [Remove], [Keys] and [Len] each run the sweep before their own logic,
    and the sweep returns in every state the cache can reach.  [Purge] is
    not among them: after every sequence of calls on a new cache it
    returns and leaves the list empty and the map without a key that can
    be found, whatever the ages of the entries. *)
Theorem operations_sweep_first :
  (∀ now' k (v : V), sweeps_first (W:=W) (λ now, Add now now' k v)) ∧
  (∀ now' k (v : V), sweeps_first (W:=W) (λ now, Update now now' k v)) ∧
  (∀ now' k, sweeps_first (V:=V) (W:=W) (λ now, Get now now' k)) ∧
  (∀ k, sweeps_first (V:=V) (W:=W) (λ now, Peek now k)) ∧
  (∀ k, sweeps_first (V:=V) (W:=W) (λ now, Contains now k)) ∧
  (∀ k, sweeps_first (V:=V) (W:=W) (λ now, Remove now k)) ∧
  sweeps_first (K:=K) (V:=V) (W:=W) Keys ∧
  sweeps_first (K:=K) (V:=V) (W:=W) Len ∧
  (∀ now (s : State),
     reachable s → ∃ s1, purgeExpired now s = Ok (tt, s1)) ∧
  (∀ d cb (w : W) (ops : list (Op (K:=K) (V:=V))) (order : list (K * nat)),
     ∃ s s2, run ops (NewTimedCache d cb w) = Ok s ∧
       Purge order s = Ok (tt, s2) ∧
       contents s2 = [] ∧ ∀ k, items (cache s2) !! k = None).
Proof.
  repeat split; try (intros; eexists; intros now s; reflexivity).
  { intros now s Hwf%reachable_wf.
    destruct (PurgeExpired_wf now s Hwf) as (s1 & Hs1 & _). by exists s1. }
  intros d cb w ops order.
  destruct (run_wf ops (NewTimedCache d cb w)) as (s & Hs & Hwf & _).
  { exists []. apply NewTimedCache_Rep. }
  destruct (Purge_wf order s Hwf) as (s2 & Hs2 & _ & Hc & Hi & _).
  exists s, s2. repeat split; try done.
  intros k. rewrite Hi, lookup_GoMap. simpl. rewrite lookup_empty.
  by destruct (selfEqual k).
Qed.


(** C6: [Add] first sweeps.  If the key is then absent from [items], a new
    entry stamped with the clock reading taken for it is put at the front
    of the list and registered in the map, and [true] is returned; if the
    key is present, [false] is returned and the state is the swept state,
    untouched. *)
Theorem Add_inserts_at_front_or_keeps now now' k (v : V) s :
  reachable s →
  ∃ s1, purgeExpired now s = Ok (tt, s1) ∧
    ((items (cache s1) !! k = None ∧
      ∃ s2, Add now now' k v s = Ok (true, s2) ∧
        contents s2 = mk_entry now' k v :: contents s1 ∧
        dom (items (cache s2)) = {[k]} ∪ dom (items (cache s1)) ∧
        world s2 = world s1) ∨
     (is_Some (items (cache s1) !! k) ∧ Add now now' k v s = Ok (false, s1))).
Proof.
  intros Hwf%reachable_wf.
  destruct (Add_wf now now' k v s Hwf) as (s1 & Hs1 & _ & [Hn|Hp]).
  - exists s1. split; [done|]. left.
    destruct Hn as (Hk & s2 & Hs2 & _ & Hc & Hd & _ & _ & Hw). eauto 10.
  - exists s1. split; [done|]. by right.
Qed.

(** C7: [Update] first sweeps.  If the key is then present, its entry gets
    the new value and the clock reading taken for it, and is moved to the
    front of the list, the other entries keeping their order, and [true]
    is returned; if the key is absent, [false] is returned and the state
    is the swept state, untouched. *)
Theorem Update_refreshes_or_keeps now now' k (v : V) s :
  reachable s →
  ∃ s1, purgeExpired now s = Ok (tt, s1) ∧
    ((items (cache s1) !! k = None ∧ Update now now' k v s = Ok (false, s1)) ∨
     (∃ xs1 x xs2 s2,
        contents s1 = xs1 ++ x :: xs2 ∧ key x = k ∧
        Update now now' k v s = Ok (true, s2) ∧
        contents s2 = mk_entry now' k v :: xs1 ++ xs2 ∧
        items (cache s2) = items (cache s1) ∧
        world s2 = world s1)).
Proof.
  intros Hwf%reachable_wf.
  destruct (Update_wf now now' k v s Hwf) as (s1 & Hs1 & _ & [Hn|Hp]).
  - exists s1. split; [done|]. by left.
  - exists s1. split; [done|]. right.
    destruct Hp as (xs1 & x & xs2 & s2 & ? & ? & ? & _ & ? & ? & _ & _ & ?).
    by exists xs1, x, xs2, s2.
Qed.

(** C8: after the sweep, [Get] of a present key returns its value, stamps
    the entry with the clock reading taken for it and moves it to the
    front of the list; [Peek], [Contains], [Keys] and [Len] return and
    leave the swept state as it is.  What [Keys] returns is the keys of
    the list from the back to the front, followed by one nil for every
    entry the map has beyond those of the list. *)
Theorem Get_refreshes_others_do_not now now' k s :
  reachable s →
  ∃ s1, purgeExpired now s = Ok (tt, s1) ∧
    (is_Some (items (cache s1) !! k) →
     ∃ xs1 x xs2 s2,
       contents s1 = xs1 ++ x :: xs2 ∧ key x = k ∧
       Get now now' k s = Ok ((Some (value x), true), s2) ∧
       contents s2 = mk_entry now' k (value x) :: xs1 ++ xs2) ∧
    (∃ r, Peek now k s = Ok (r, s1)) ∧
    Contains now k s = Ok (bool_decide (is_Some (items (cache s1) !! k)), s1) ∧
    Keys now s =
      Ok ((Some ∘ key <$> reverse (contents s1)) ++
          replicate (size (items (cache s1)) - length (contents s1)) None,
          s1) ∧
    Len now s = Ok (Z.of_nat (length (contents s1)), s1).
Proof.
  intros Hwf%reachable_wf.
  destruct (Get_wf now now' k s Hwf) as (s1 & Hs1 & _ & Hget).
  destruct (Peek_wf now k s Hwf) as (s1' & Hs1' & _ & Hpeek).
  destruct (Contains_wf now k s Hwf) as (s1c & Hs1c & _ & Hcont).
  destruct (Keys_wf now s Hwf) as (s1k & Hs1k & _ & Hkeys).
  destruct (Len_wf now s Hwf) as (s1l & Hs1l & _ & Hlen).
  assert (s1' = s1) as -> by congruence.
  assert (s1c = s1) as -> by congruence.
  assert (s1k = s1) as -> by congruence.
  assert (s1l = s1) as -> by congruence.
  exists s1. split; [done|]. repeat split; try done.
  - intros [p Hp].
    destruct Hget as [[Hn _]|(xs1 & x & xs2 & s2 & ? & ? & ? & _ & ? & _)];
      [congruence|].
    by exists xs1, x, xs2, s2.
  - destruct Hpeek as [[_ ?]|(x & _ & _ & ?)]; eauto.
Qed.

(** C9, as the code has it: a cache may be built with a non-positive
    duration, and every sequence of calls on it returns.  A sweep then
    removes the entry at the back of the list when its age exceeds the
    duration (any positive age does, and with a negative duration the age
    zero does too); with the duration zero an entry of age zero at the
    back is not expired and the sweep changes nothing. *)
Theorem nonpositive_duration_expiry d cb (w : W) (ops : list (Op (K:=K) (V:=V))) now :
  d ≤ 0 →
  ∃ s, run ops (NewTimedCache d cb w) = Ok s ∧ duration (cache s) = d ∧
    ∀ xs x, contents s = xs ++ [x] →
      (0 < age now x ∨ (d < 0 ∧ 0 ≤ age now x) →
       ∃ s1, purgeExpired now s = Ok (tt, s1) ∧ contents s1 = xs ∧
             items (cache s1) !! key x = None) ∧
      (d = 0 → age now x = 0 → purgeExpired now s = Ok (tt, s)).
Proof.
  intros Hd.
  destruct (run_wf ops (NewTimedCache d cb w)) as (s & Hs & Hwf & Hdur & _).
  { exists []. apply NewTimedCache_Rep. }
  exists s. split; [done|]. split; [done|]. intros xs x Hxs.
  destruct (PurgeExpired_wf now s Hwf) as (s1 & Hs1 & _ & Hcase).
  destruct Hcase as [[Hnil _]|(xs' & x' & Hxs' & Hcase)].
  { rewrite Hxs in Hnil. by destruct xs. }
  rewrite Hxs in Hxs'. apply app_inj_tail in Hxs' as [<- <-].
  rewrite Hdur in Hcase. simpl in Hcase. unfold expired, age in *.
  destruct Hcase as [[Hne ->]|(He & Hc & Hi & _)].
  - split; [lia|done].
  - split; [|lia]. intros _. exists s1. split; [done|]. split; [done|].
    by rewrite Hi, lookup_GoMap_delete.
Qed.

(** C10: on a cache built without callback, [Remove], [Purge] and the sweep
    return normally and leave the caller's world as it is: the nil
    function is never called. *)
Theorem nil_callback_never_called now k (order : list (K * nat)) s :
  reachable s → onEvictCall (cache s) = None →
  (∃ r s', Remove now k s = Ok (r, s') ∧ world s' = world s) ∧
  (∃ s', Purge order s = Ok (tt, s') ∧ world s' = world s) ∧
  (∃ s', PurgeExpired now s = Ok (tt, s') ∧ world s' = world s).
Proof.
  intros Hwf%reachable_wf Hnil. split; [|split].
  - destruct (exec_wf (OpRemove now k) s Hwf) as (s' & Hs' & _ & _ & _ & Hw).
    simpl in Hs'. unfold mbind, M_bind, bind in Hs'.
    destruct (Remove now k s) as [[r s'']| |]; [|done..].
    injection Hs' as ->. exists r, s'. split; [done|]. by apply Hw.
  - destruct (exec_wf (OpPurge order) s Hwf) as (s' & Hs' & _ & _ & _ & Hw).
    exists s'. split; [done|]. by apply Hw.
  - destruct (exec_wf (OpPurgeExpired now) s Hwf) as (s' & Hs' & _ & _ & _ & Hw).
    exists s'. split; [done|]. by apply Hw.
Qed.

End Properties.

(** ** The demonstration program, run *)

Section Demo.

Local Abbreviation State := (State (K:=Z) (V:=string) (W:=list (Z * string))).

(** C1: the four entries are added at times 0, 2, 4 and 6 to a cache of
    duration 4 (the sweep in the fourth [Add] has already evicted key 1),
    and [PurgeExpired] runs at time 10.  It evicts key 2 and stops: key 3,
    of age 6, is still in the list and in the map.  A call of [Len]
    afterwards sweeps once more and only then returns 1, and [Keys] after
    that returns the key 4 alone. *)
Theorem PurgeExpired_leaves_expired_entry :
  ∃ s s', run (fourAdds ++ [OpPurgeExpired 10]) tc = Ok s ∧
    contents s = [mk_entry 6 4 "d"; mk_entry 4 3 "c"] ∧
    is_Some (items (cache s) !! 3) ∧
    world s = [(1, "a"); (2, "b")] ∧
    age 10 (mk_entry 4 3 "c") = 6 ∧ duration (cache s) = 4 ∧
    Len 10 s = Ok (1, s') ∧
    Keys 10 s' = Ok ([Some 4], s').
Proof.
  eexists _, _. split; [vm_compute; reflexivity|].
  split; [vm_compute; reflexivity|].
  split; [vm_compute; by eexists|].
  split; [vm_compute; reflexivity|].
  split; [vm_compute; reflexivity|].
  split; [vm_compute; reflexivity|].
  split; [vm_compute; reflexivity|].
  vm_compute. reflexivity.
Qed.

(** C3: two entries are added at time 0 to a cache of duration 4 and
    [PurgeExpired] runs twice at time 10.  The first run leaves key 2 in
    the cache, the second run removes it: the contents differ. *)
Theorem PurgeExpired_twice_differs :
  ∃ s1 s2, run twoAdds tc = Ok (state_after twoAdds tc) ∧
    PurgeExpired 10 (state_after twoAdds tc) = Ok (tt, s1) ∧
    PurgeExpired 10 s1 = Ok (tt, s2) ∧
    contents s1 = [mk_entry 0 2 "b"] ∧ contents s2 = [] ∧
    contents s1 ≠ contents s2.
Proof.
  eexists _, _. split; [vm_compute; reflexivity|].
  split; [vm_compute; reflexivity|].
  split; [vm_compute; reflexivity|].
  split; [vm_compute; reflexivity|].
  split; [vm_compute; reflexivity|].
  vm_compute. discriminate.
Qed.

(** C4: two entries are added at times 0 and 1 to a cache of duration 4.
    At time 10 the entry of key 2 has age 9, and the sweep leaves it in
    the list and in the map. *)
Theorem expired_entry_survives_sweep :
  ∃ s1, run twoAddsApart tc = Ok (state_after twoAddsApart tc) ∧
    contents (state_after twoAddsApart tc) =
      [mk_entry 1 2 "b"; mk_entry 0 1 "a"] ∧
    duration (cache (state_after twoAddsApart tc)) = 4 ∧
    age 10 (mk_entry 1 2 "b") = 9 ∧
    purgeExpired 10 (state_after twoAddsApart tc) = Ok (tt, s1) ∧
    contents s1 = [mk_entry 1 2 "b"] ∧
    is_Some (items (cache s1) !! 2).
Proof.
  eexists. split; [vm_compute; reflexivity|].
  split; [vm_compute; reflexivity|].
  split; [vm_compute; reflexivity|].
  split; [vm_compute; reflexivity|].
  split; [vm_compute; reflexivity|].
  split; [vm_compute; reflexivity|].
  vm_compute. by eexists.
Qed.

(** What [main] does at time 10: [tc.Get(3)] finds the entry of key 3,
    whose age is 6, and returns its value. *)
Lemma Get_returns_expired_entry :
  ∃ s', Get 10 10 3 (state_after fourAdds tc) = Ok ((Some "c", true), s') ∧
    age 10 (mk_entry 4 3 "c") = 6 ∧
    contents s' = [mk_entry 10 3 "c"; mk_entry 6 4 "d"].
Proof.
  eexists. split; [vm_compute; reflexivity|].
  split; vm_compute; reflexivity.
Qed.

(** C2, as stated, fails for [Purge]: it does not begin with the sweep.
    With key 1 expired at time 6 behind the live key 2, a [Purge] that
    ranges over key 2 first calls the callback on key 2 before key 1,
    which nothing that sweeps first can do. *)
Lemma Purge_does_not_sweep_first :
  ¬ sweeps_first (K:=Z) (V:=string) (W:=list (Z * string))
      (λ _, Purge (inTurn [2; 1])).
Proof.
  intros [rest Hrest].
  set (sa := state_after oldAndNew tc).
  set (sb := match purgeExpired 6 sa with Ok (_, s') => s' | _ => sa end).
  assert (purgeExpired 6 sa = Ok (tt, sb)) as Ha by (vm_compute; reflexivity).
  assert (purgeExpired 6 sb = Ok (tt, sb)) as Hb by (vm_compute; reflexivity).
  pose proof (Hrest 6 sa) as H1. pose proof (Hrest 6 sb) as H2.
  cbv beta in H1, H2.
  rewrite (bind_Ok _ _ _ _ _ Ha) in H1. rewrite (bind_Ok _ _ _ _ _ Hb) in H2.
  rewrite <-H2 in H1.
  assert (∀ r : Res (unit * State),
            r = Purge (inTurn [2; 1]) sb →
            match r with Ok (_, s') => world s' | _ => [] end =
            [(1, "a"); (2, "b")]) as Hw.
  { intros r ->. vm_compute. reflexivity. }
  specialize (Hw _ H1). vm_compute in Hw. discriminate.
Qed.

(** C9, as stated, fails: in a cache of duration zero the entry put in at
    time 5 is still there after a sweep at time 5. *)
Lemma zero_duration_keeps_fresh_entry :
  reachable zeroDuration ∧ duration (cache zeroDuration) ≤ 0 ∧
  contents zeroDuration = [mk_entry 5 1 "a"] ∧
  ∃ s1, purgeExpired 5 zeroDuration = Ok (tt, s1) ∧
        contents s1 = [mk_entry 5 1 "a"] ∧
        is_Some (items (cache s1) !! 1).
Proof.
  split.
  { exists 0, (Some purgeCall), [], [OpAdd 5 5 1 "a"]. vm_compute. reflexivity. }
  split; [vm_compute; discriminate|].
  split; [vm_compute; reflexivity|].
  eexists. split; [vm_compute; reflexivity|].
  split; [vm_compute; reflexivity|].
  vm_compute. by eexists.
Qed.



(** C6 at the cache of the demonstration after its four calls of [Add]. *)
Lemma Add_inserts_at_front_or_keeps_witness :
  reachable (state_after fourAdds tc) ∧
  ∃ s1, purgeExpired 7 (state_after fourAdds tc) = Ok (tt, s1) ∧
    ((items (cache s1) !! 5 = None ∧
      ∃ s2, Add 7 7 5 "e" (state_after fourAdds tc) = Ok (true, s2) ∧
        contents s2 = mk_entry 7 5 "e" :: contents s1 ∧
        dom (items (cache s2)) = {[5]} ∪ dom (items (cache s1)) ∧
        world s2 = world s1) ∨
     (is_Some (items (cache s1) !! 5) ∧
      Add 7 7 5 "e" (state_after fourAdds tc) = Ok (false, s1))).
Proof.
  assert (reachable (state_after fourAdds tc)) as Hreach.
  { exists 4, (Some purgeCall), [], fourAdds. vm_compute. reflexivity. }
  split; [exact Hreach|].
  apply (Add_inserts_at_front_or_keeps 7 7 5 "e" _ Hreach).
Defined.

(** C7 at the same cache, for the key 3. *)
Lemma Update_refreshes_or_keeps_witness :
  reachable (state_after fourAdds tc) ∧
  ∃ s1, purgeExpired 7 (state_after fourAdds tc) = Ok (tt, s1) ∧
    ((items (cache s1) !! 3 = None ∧
      Update 7 7 3 "z" (state_after fourAdds tc) = Ok (false, s1)) ∨
     (∃ xs1 x xs2 s2,
        contents s1 = xs1 ++ x :: xs2 ∧ key x = 3 ∧
        Update 7 7 3 "z" (state_after fourAdds tc) = Ok (true, s2) ∧
        contents s2 = mk_entry 7 3 "z" :: xs1 ++ xs2 ∧
        items (cache s2) = items (cache s1) ∧
        world s2 = world s1)).
Proof.
  assert (reachable (state_after fourAdds tc)) as Hreach.
  { exists 4, (Some purgeCall), [], fourAdds. vm_compute. reflexivity. }
  split; [exact Hreach|].
  apply (Update_refreshes_or_keeps 7 7 3 "z" _ Hreach).
Defined.

(** C8 at the same cache, for the key 3. *)
Lemma Get_refreshes_others_do_not_witness :
  reachable (state_after fourAdds tc) ∧
  ∃ s1, purgeExpired 7 (state_after fourAdds tc) = Ok (tt, s1) ∧
    (is_Some (items (cache s1) !! 3) →
     ∃ xs1 x xs2 s2,
       contents s1 = xs1 ++ x :: xs2 ∧ key x = 3 ∧
       Get 7 7 3 (state_after fourAdds tc) = Ok ((Some (value x), true), s2) ∧
       contents s2 = mk_entry 7 3 (value x) :: xs1 ++ xs2) ∧
    (∃ r, Peek 7 3 (state_after fourAdds tc) = Ok (r, s1)) ∧
    Contains 7 3 (state_after fourAdds tc) =
      Ok (bool_decide (is_Some (items (cache s1) !! 3)), s1) ∧
    Keys 7 (state_after fourAdds tc) =
      Ok ((Some ∘ key <$> reverse (contents s1)) ++
          replicate (size (items (cache s1)) - length (contents s1)) None,
          s1) ∧
    Len 7 (state_after fourAdds tc) =
      Ok (Z.of_nat (length (contents s1)), s1).
Proof.
  assert (reachable (state_after fourAdds tc)) as Hreach.
  { exists 4, (Some purgeCall), [], fourAdds. vm_compute. reflexivity. }
  split; [exact Hreach|].
  apply (Get_refreshes_others_do_not 7 7 3 _ Hreach).
Defined.

(** C9 at a cache of duration zero after one call of [Add]. *)
Lemma nonpositive_duration_expiry_witness :
  0 ≤ 0 ∧
  ∃ s, run [OpAdd 5 5 1 "a"] (NewTimedCache 0 (Some purgeCall) []) = Ok s ∧
    duration (cache s) = 0 ∧
    ∀ xs x, contents s = xs ++ [x] →
      (0 < age 6 x ∨ (0 < 0 ∧ 0 ≤ age 6 x) →
       ∃ s1, purgeExpired 6 s = Ok (tt, s1) ∧ contents s1 = xs ∧
             items (cache s1) !! key x = None) ∧
      (0 = 0 → age 6 x = 0 → purgeExpired 6 s = Ok (tt, s)).
Proof.
  split; [lia|].
  apply (nonpositive_duration_expiry 0 (Some purgeCall) []
           [OpAdd 5 5 1 "a"] 6). lia.
Defined.

(** C10 at a cache built without callback that holds two entries. *)
Lemma nil_callback_never_called_witness :
  reachable noCallback ∧ onEvictCall (cache noCallback) = None ∧
  (∃ r s', Remove 1 2 noCallback = Ok (r, s') ∧ world s' = world noCallback) ∧
  (∃ s', Purge (inTurn [2; 1]) noCallback = Ok (tt, s') ∧
         world s' = world noCallback) ∧
  (∃ s', PurgeExpired 1 noCallback = Ok (tt, s') ∧ world s' = world noCallback).
Proof.
  assert (reachable noCallback) as Hreach.
  { exists 4, None, [], twoAdds. vm_compute. reflexivity. }
  split; [exact Hreach|]. split; [reflexivity|].
  apply (nil_callback_never_called 1 2 (inTurn [2; 1]) _ Hreach). reflexivity.
Defined.

End Demo.


(** ** Further properties: lookups, removals and the clock *)

Section Further.

Context {K : Type} `{Countable K} `{!GoKey K} {V W : Type}.

Local Abbreviation State := (State (K:=K) (V:=V) (W:=W)).
Local Abbreviation entry := (entry (K:=K) (V:=V)).

Implicit Types (s : State) (k : K) (xs ys : list entry).

Lemma wf_keys_NoDup s :
  wf s → NoDup (filter (λ k, selfEqual k = true) (key <$> contents s)).
Proof.
  intros Hwf. destruct (wf_contents s Hwf) as (ls & Hr & Hx).
  by apply (Rep_keys_NoDup ls _ s).
Qed.

(** The keys the map finds are the keys of the list that are equal to
    themselves. *)
Lemma wf_lookup_key s k :
  wf s →
  is_Some (items (cache s) !! k) ↔
  k ∈ key <$> contents s ∧ selfEqual k = true.
Proof.
  intros Hwf. destruct (wf_contents s Hwf) as (ls & Hr & Hx). split.
  - intros [p Hp].
    apply (Rep_items _ _ _ _ Hr) in Hp as (a & x & -> & Ha & Hv & <- & Hse).
    split; [|done].
    destruct (Ents_lookup _ _ _ _ Hx Ha) as (y & Hy & Hv').
    apply list_elem_of_fmap. exists y. split; [congruence|done].
  - intros [(x & -> & Hin)%list_elem_of_fmap Hse].
    destruct (Ents_lookup_r _ _ _ _ Hx Hin) as (a & Ha & Hv).
    exists (Elem a). apply (Rep_items _ _ _ _ Hr). by exists a, x.
Qed.

(** A key that is equal to itself is the key of one entry at most. *)
Lemma wf_key_eq s (x y : entry) :
  wf s → x ∈ contents s → y ∈ contents s →
  key x = key y → selfEqual (key x) = true → x = y.
Proof.
  intros Hwf Hx Hy Hk Hse. destruct (wf_contents s Hwf) as (ls & Hr & Hc).
  destruct (Ents_lookup_r _ _ _ _ Hc Hx) as (a & Ha & Hva).
  destruct (Ents_lookup_r _ _ _ _ Hc Hy) as (b & Hb & Hvb).
  assert (a = b) as -> by (by apply (Rep_key_inj ls s a b x y)).
  congruence.
Qed.

(** The sweep only takes entries away. *)
Lemma sweep_sublist now s s1 :
  wf s → purgeExpired now s = Ok (tt, s1) → contents s1 `sublist_of` contents s.
Proof.
  intros Hwf Hs1.
  destruct (PurgeExpired_wf now s Hwf) as (s1' & Hs1' & _ & Hcase).
  assert (s1' = s1) as -> by congruence.
  destruct Hcase as [[_ ->]|(xs & x & Hxs & [[_ ->]|(_ & -> & _)])]; [done..|].
  rewrite Hxs. by apply sublist_inserts_r.
Qed.

(** An entry at the front that is not expired is still at the front after
    the sweep, and still in the map. *)
Lemma sweep_keeps_front now s s1 x rest :
  wf s → purgeExpired now s = Ok (tt, s1) →
  contents s = x :: rest → ¬ expired now (duration (cache s)) x →
  selfEqual (key x) = true →
  (∃ rest', contents s1 = x :: rest') ∧
  is_Some (items (cache s1) !! key x).
Proof.
  intros Hwf Hs1 Hc Hne Hse.
  assert (is_Some (items (cache s) !! key x)) as Hin.
  { apply wf_lookup_key; [done|]. split; [|done]. rewrite Hc, fmap_cons. left. }
  destruct (PurgeExpired_wf now s Hwf) as (s1' & Hs1' & _ & Hcase).
  assert (s1' = s1) as -> by congruence.
  destruct Hcase as [[_ ->]|(xs & y & Hxs & [[_ ->]|(He & Hc1 & Hi & _)])];
    [by eauto..|].
  rewrite Hc in Hxs. destruct xs as [|z xs]; simplify_eq/=; [done|].
  split; [by eauto|]. rewrite Hi, lookup_GoMap_delete_ne; [done|].
  intros Hk. apply Hne.
  assert (z = y) as ->; [|done].
  apply (wf_key_eq s); [done|rewrite Hc; left| |done..].
  rewrite Hc. right. apply elem_of_app. right. left.
Qed.

(** Looking up the key of an unexpired front entry finds that entry. *)
Lemma Peek_front now s x rest :
  wf s → contents s = x :: rest → ¬ expired now (duration (cache s)) x →
  selfEqual (key x) = true →
  ∃ s1, purgeExpired now s = Ok (tt, s1) ∧
    Peek now (key x) s = Ok ((Some (value x), true), s1) ∧
    Contains now (key x) s = Ok (true, s1).
Proof.
  intros Hwf Hc Hne Hse.
  destruct (Peek_wf now (key x) s Hwf) as (s1 & Hs1 & Hwf1 & Hpeek).
  destruct (Contains_wf now (key x) s Hwf) as (s1' & Hs1' & _ & Hcont).
  assert (s1' = s1) as -> by congruence.
  destruct (sweep_keeps_front now s s1 x rest Hwf Hs1 Hc Hne Hse)
    as [[rest' Hc1] Hin].
  exists s1. split; [done|]. split.
  - destruct Hpeek as [[Hn _]|(y & Hy & Hk & Hp)].
    { rewrite Hn in Hin. by destruct Hin. }
    assert (y = x) as ->; [|done].
    apply (wf_key_eq s1); [done..|rewrite Hc1; left|done|by rewrite Hk].
  - by rewrite Hcont, bool_decide_eq_true_2.
Qed.

(** After the sweep a key that is not in the map is not found by any
    lookup, and none of them changes the swept state. *)
Lemma missing_key now now' k s s1 :
  wf s → purgeExpired now s = Ok (tt, s1) → items (cache s1) !! k = None →
  Get now now' k s = Ok ((None, false), s1) ∧
  Peek now k s = Ok ((None, false), s1) ∧
  Contains now k s = Ok (false, s1) ∧
  Remove now k s = Ok (false, s1) ∧
  ∀ v, Update now now' k v s = Ok (false, s1).
Proof.
  intros Hwf Hs1 Hk.
  unfold Get, Peek, Contains, Remove, Update.
  rewrite !(bind_Ok _ _ _ _ _ Hs1), !gets_bind, Hk.
  repeat split; try done.
  intros v. by rewrite (bind_Ok _ _ _ _ _ Hs1), gets_bind, Hk.
Qed.

(** A key that is not equal to itself is a key that is not in the map. *)
Lemma loose_key_missing now now' k s :
  wf s → selfEqual k = false →
  ∃ s1, purgeExpired now s = Ok (tt, s1) ∧ wf s1 ∧
    Get now now' k s = Ok ((None, false), s1) ∧
    Peek now k s = Ok ((None, false), s1) ∧
    Contains now k s = Ok (false, s1) ∧
    Remove now k s = Ok (false, s1) ∧
    ∀ v, Update now now' k v s = Ok (false, s1).
Proof.
  intros Hwf Hse. destruct (purgeExpired_wf now s Hwf) as (s1 & Hs1 & Hwf1).
  exists s1. split; [done|]. split; [done|].
  apply (missing_key now now' k s s1 Hwf Hs1).
  apply lookup_GoMap_None. by left.
Qed.

Lemma lookup_GoMap_delete_None (m : GoMap (K:=K)) k k' :
  m !! k = None → delete k' m !! k = None.
Proof.
  intros Hk. destruct (decide (k' = k)) as [->|Hne].
  - apply lookup_GoMap_delete.
  - by rewrite lookup_GoMap_delete_ne.
Qed.

(** X2: [Remove] first sweeps.  If the key is then in the map, its entry is
    taken out of the list, the others keeping their order, the key is
    deleted from the map, the callback is called once, on that key and its
    value, and [true] is returned; otherwise [false] is returned and the
    swept state is left as it is. *)
Theorem Remove_removes_and_notifies now k s :
  reachable s →
  ∃ s1, purgeExpired now s = Ok (tt, s1) ∧
    ((items (cache s1) !! k = None ∧ Remove now k s = Ok (false, s1)) ∨
     (∃ xs1 x xs2 s2,
        contents s1 = xs1 ++ x :: xs2 ∧ key x = k ∧
        Remove now k s = Ok (true, s2) ∧
        contents s2 = xs1 ++ xs2 ∧
        items (cache s2) = delete k (items (cache s1)) ∧
        world s2 = notify (onEvictCall (cache s1)) (world s1) x)).
Proof.
  intros Hwf%reachable_wf.
  destruct (Remove_wf now k s Hwf) as (s1 & Hs1 & _ & [Hn|Hp]).
  - exists s1. split; [done|]. by left.
  - exists s1. split; [done|]. right.
    destruct Hp as (xs1 & x & xs2 & s2 & ? & <- & ? & _ & ? & ? & _ & _ & ?).
    by exists xs1, x, xs2, s2.
Qed.

(** X4: a key that is equal to itself and that [Add] has just put in is
    found by [Peek], with the value given to [Add], and by [Contains], at
    every later reading of the clock at which the new entry's age does not
    exceed the duration. *)
Theorem Add_then_Peek now now' now2 k (v : V) s s2 :
  reachable s →
  selfEqual k = true →
  Add now now' k v s = Ok (true, s2) →
  age now2 (mk_entry now' k v) ≤ duration (cache s2) →
  ∃ s3, Peek now2 k s2 = Ok ((Some v, true), s3) ∧
        Contains now2 k s2 = Ok (true, s3).
Proof.
  intros Hwf%reachable_wf Hse Hadd Hage.
  destruct (Add_wf now now' k v s Hwf)
    as (s1 & _ & _ & [(_ & s2' & Hs2 & Hwf2 & Hc & _)|(_ & Hs2)]); [|congruence].
  assert (s2' = s2) as -> by congruence.
  destruct (Peek_front now2 s2 (mk_entry now' k v) (contents s1) Hwf2 Hc)
    as (s3 & _ & ? & ?); [unfold expired; lia|done|].
  by exists s3.
Qed.

(** X5: a key that [Update] has just given a value is found by [Peek], with
    that value, and by [Contains], at every later reading of the clock at
    which the age counted from the update does not exceed the duration. *)
Theorem Update_then_Peek now now' now2 k (v : V) s s2 :
  reachable s →
  Update now now' k v s = Ok (true, s2) →
  age now2 (mk_entry now' k v) ≤ duration (cache s2) →
  ∃ s3, Peek now2 k s2 = Ok ((Some v, true), s3) ∧
        Contains now2 k s2 = Ok (true, s3).
Proof.
  intros Hwf%reachable_wf Hupd Hage.
  assert (selfEqual k = true) as Hse.
  { destruct (selfEqual k) eqn:Hse; [done|].
    destruct (loose_key_missing now now' k s Hwf Hse)
      as (s1 & _ & _ & _ & _ & _ & _ & Hu).
    by rewrite Hu in Hupd. }
  destruct (Update_wf now now' k v s Hwf)
    as (s1 & _ & _ & [(_ & Hs2)|(xs1 & x & xs2 & s2' & _ & _ & Hs2 & Hwf2 & Hc & _)]);
    [congruence|].
  assert (s2' = s2) as -> by congruence.
  destruct (Peek_front now2 s2 (mk_entry now' k v) (xs1 ++ xs2) Hwf2 Hc)
    as (s3 & _ & ? & ?); [unfold expired; lia|done|].
  by exists s3.
Qed.

(** X6: a key that [Get] has just found is found again by [Peek], with the
    same value, at every later reading of the clock at which the age
    counted from that [Get] does not exceed the duration: [Get] renews the
    entry's lease. *)
Theorem Get_renews_lease now now' now2 k (v : V) s s2 :
  reachable s →
  Get now now' k s = Ok ((Some v, true), s2) →
  age now2 (mk_entry now' k v) ≤ duration (cache s2) →
  ∃ s3, Peek now2 k s2 = Ok ((Some v, true), s3) ∧
        Contains now2 k s2 = Ok (true, s3).
Proof.
  intros Hwf%reachable_wf Hget Hage.
  assert (selfEqual k = true) as Hse.
  { destruct (selfEqual k) eqn:Hse; [done|].
    destruct (loose_key_missing now now' k s Hwf Hse)
      as (s1 & _ & _ & Hg & _).
    by rewrite Hg in Hget. }
  destruct (Get_wf now now' k s Hwf)
    as (s1 & _ & _ & [(_ & Hs2)|(xs1 & x & xs2 & s2' & _ & _ & Hs2 & Hwf2 & Hc & _)]);
    [congruence|].
  assert (s2' = s2 ∧ value x = v) as [-> <-] by (split; congruence).
  destruct (Peek_front now2 s2 (mk_entry now' k (value x)) (xs1 ++ xs2) Hwf2 Hc)
    as (s3 & _ & ? & ?); [unfold expired; lia|done|].
  by exists s3.
Qed.

(** X7: once [Remove] has returned, whatever it returned, the key is found
    by no lookup at any reading of the clock, until it is added again. *)
Theorem Remove_then_missing now now2 now2' k s r s2 :
  reachable s →
  Remove now k s = Ok (r, s2) →
  ∃ s3, Contains now2 k s2 = Ok (false, s3) ∧
        Peek now2 k s2 = Ok ((None, false), s3) ∧
        Get now2 now2' k s2 = Ok ((None, false), s3).
Proof.
  intros Hwf%reachable_wf Hrem.
  assert (wf s2 ∧ items (cache s2) !! k = None) as [Hwf2 Hk2].
  { destruct (Remove_wf now k s Hwf)
      as (s1 & _ & Hwf1 & [(Hn & Hs2)|(? & ? & ? & s2' & _ & _ & Hs2 & Hwf2 & _ & Hi & _)]).
    - by assert (s1 = s2) as <- by congruence.
    - assert (s2' = s2) as -> by congruence.
      split; [done|]. by rewrite Hi, lookup_GoMap_delete. }
  destruct (PurgeExpired_wf now2 s2 Hwf2) as (s3 & Hs3 & _ & Hcase).
  assert (items (cache s3) !! k = None) as Hk3.
  { destruct Hcase as [[_ ->]|(xs & x & _ & [[_ ->]|(_ & _ & Hi & _)])];
      [done..|].
    rewrite Hi. by apply lookup_GoMap_delete_None. }
  exists s3.
  by destruct (missing_key now2 now2' k s2 s3 Hwf2 Hs3 Hk3)
    as (? & ? & ? & _).
Qed.


(** X9: at the same reading of the clock [Get] and [Peek] give the same
    answer for every key; they differ only in the state they leave. *)
Theorem Get_Peek_same_answer now now' k s :
  reachable s →
  ∃ r s1 s2, Peek now k s = Ok (r, s1) ∧ Get now now' k s = Ok (r, s2) ∧
    items (cache s2) = items (cache s1).
Proof.
  intros Hwf%reachable_wf.
  destruct (Get_wf now now' k s Hwf) as (s1 & Hs1 & Hwf1 & Hget).
  destruct (Peek_wf now k s Hwf) as (s1' & Hs1' & _ & Hpeek).
  assert (s1' = s1) as -> by congruence.
  destruct Hget as [[Hn Hget]|(xs1 & x & xs2 & s2 & Hc & Hk & Hget & _ & _ & Hi & _)].
  - destruct Hpeek as [[_ Hpeek]|(y & Hy & Hky & _)].
    + by exists (None, false), s1, s1.
    + destruct (selfEqual k) eqn:Hse.
      * assert (is_Some (items (cache s1) !! k)) as [? ?]; [|congruence].
        apply wf_lookup_key; [done|]. split; [|done].
        rewrite <-Hky. by apply list_elem_of_fmap_2.
      * destruct (loose_key_missing now now' k s Hwf Hse)
          as (s1' & Hs1'' & _ & _ & Hp & _).
        assert (s1' = s1) as -> by congruence.
        by exists (None, false), s1, s1.
  - assert (selfEqual k = true) as Hse.
    { destruct (selfEqual k) eqn:Hse; [done|].
      destruct (loose_key_missing now now' k s Hwf Hse)
        as (s1' & _ & _ & Hg & _).
      by rewrite Hg in Hget. }
    destruct Hpeek as [[Hn _]|(y & Hy & Hky & Hpeek)].
    + assert (is_Some (items (cache s1) !! k)) as [? ?]; [|congruence].
      apply wf_lookup_key; [done|]. split; [|done]. rewrite <-Hk, Hc.
      apply list_elem_of_fmap_2, elem_of_app. right. by left.
    + assert (y = x) as ->.
      { apply (wf_key_eq s1); [done..| |congruence|congruence].
        rewrite Hc. apply elem_of_app. right. by left. }
      by exists (Some (value x), true), s1, s2.
Qed.

(** X10: [Add] returns the negation of what [Contains] returns for the same
    key at the same reading of the clock: it reports whether the key was
    new, and never replaces an entry. *)
Theorem Add_returns_not_Contains now now' k (v : V) s :
  reachable s →
  ∃ b s1 s2, Contains now k s = Ok (b, s1) ∧
    Add now now' k v s = Ok (negb b, s2) ∧
    (b = true → s2 = s1).
Proof.
  intros Hwf%reachable_wf.
  destruct (Add_wf now now' k v s Hwf) as (s1 & Hs1 & _ & Hadd).
  destruct (Contains_wf now k s Hwf) as (s1c & Hs1c & _ & Hcont).
  assert (s1c = s1) as -> by congruence.
  destruct Hadd as [(Hn & s2 & Hadd & _)|[Hsome Hadd]].
  - exists false, s1, s2. rewrite Hcont, Hn.
    split; [by rewrite bool_decide_eq_false_2 by (by intros [? ?])|].
    by split.
  - exists true, s1, s1. rewrite Hcont.
    split; [by rewrite bool_decide_eq_true_2|]. by split.
Qed.

(** X11: when [Contains] says [false] of a key, then at the same reading of
    the clock [Get] and [Peek] return no value and [false], [Remove] and
    [Update] return [false], and each of them leaves exactly the state
    [Contains] leaves: a call on a missing key does nothing beyond the
    sweep, and calls the callback for nothing beyond it. *)
Theorem absent_key_calls_only_sweep now now' k (v : V) s s1 :
  reachable s →
  Contains now k s = Ok (false, s1) →
  Get now now' k s = Ok ((None, false), s1) ∧
  Peek now k s = Ok ((None, false), s1) ∧
  Remove now k s = Ok (false, s1) ∧
  Update now now' k v s = Ok (false, s1).
Proof.
  intros Hwf%reachable_wf Hcont.
  destruct (Contains_wf now k s Hwf) as (s1c & Hs1c & _ & Hc).
  rewrite Hc in Hcont. injection Hcont as Hb ->.
  apply bool_decide_eq_false_1 in Hb.
  assert (items (cache s1) !! k = None) as Hk.
  { destruct (items (cache s1) !! k); [|done]. by destruct Hb. }
  by destruct (missing_key now now' k s s1 Hwf Hs1c Hk) as (? & ? & _ & ? & ?).
Qed.

(** X12: what [Keys] returns and what [Print] then shows are the same
    entries in opposite orders: [Keys] lists the keys from the back of the
    list (the oldest) to the front, [Print] prints from the front to the
    back, and [Print] changes nothing.  After the keys the slice of [Keys]
    has a nil slot for every entry that the map has and the list has
    not. *)
Theorem Keys_reverses_Print now s ks s1 :
  reachable s →
  Keys now s = Ok (ks, s1) →
  ∃ xs, Print s1 = Ok (xs, s1) ∧
    ks = (Some ∘ key <$> reverse xs) ++
         replicate (size (items (cache s1)) - length xs) None.
Proof.
  intros Hwf%reachable_wf Hkeys.
  destruct (Keys_wf now s Hwf) as (s1' & _ & Hwf1 & Hk).
  rewrite Hk in Hkeys. injection Hkeys as <- ->.
  destruct (wf_contents s1 Hwf1) as (ls & Hr & Hx).
  exists (contents s1). split; [|done].
  apply (Print_spec ls); [apply Hr|done].
Qed.


(** The entries behind the pointers of the map's entries. *)
Lemma entries_of_items s (es : list (K * ptr)) (w : W) :
  (∀ k p, (k, p) ∈ es → ∃ x, entryAt s p = Some x ∧ key x = k) →
  key <$> omap (entryAt s) es.*2 = es.*1 ∧
  foldl (notifyItem s) w es =
    foldl (notify (onEvictCall (cache s))) w (omap (entryAt s) es.*2).
Proof.
  revert w. induction es as [|[k p] es IH]; intros w Hes; [done|].
  destruct (Hes k p) as (x & Hx & Hk); [left|].
  destruct (IH (notifyItem s w (k, p))) as [IH1 IH2].
  { intros k' p' Hin. apply Hes. by right. }
  rewrite !fmap_cons. cbn [fst snd omap list_omap foldl]. rewrite Hx.
  rewrite fmap_cons, IH1, Hk. split; [done|].
  cbn [foldl]. rewrite IH2. f_equal.
  unfold notifyItem, notify. cbn [fst snd]. by rewrite Hx, Hk.
Qed.

Lemma entries_of_list s ls xs :
  Ents s ls xs → omap (entryAt s) (Elem <$> ls) = xs.
Proof.
  induction 1 as [|a x ls xs Ha _ IH]; [done|].
  rewrite fmap_cons. cbn [omap list_omap]. unfold entryAt at 1.
  rewrite Ha. by rewrite IH.
Qed.

(** No two entries of the map point to the same cell. *)
Lemma Rep_items_apart ls s :
  Rep ls s →
  NoDup (map_to_list (keyed (items (cache s))) ++ loose (items (cache s))).*2.
Proof.
  intros Hr. rewrite fmap_app. apply NoDup_app. split; [|split].
  - apply NoDup_fmap_2_strong; [|apply NoDup_map_to_list].
    intros [k1 p1] [k2 p2] H1%elem_of_map_to_list H2%elem_of_map_to_list.
    simpl. intros <-.
    apply (rep_items _ _ Hr) in H1 as (a & x & -> & _ & Hx & <- & _).
    apply (rep_items _ _ Hr) in H2 as (b & y & [= <-] & _ & Hy & <- & _).
    congruence.
  - intros p ([k1 p1] & -> & H1%elem_of_map_to_list)%list_elem_of_fmap
             ([k2 p2] & Heq & H2)%list_elem_of_fmap.
    simpl in *. subst p2.
    apply (rep_items _ _ Hr) in H1 as (a & x & -> & _ & Hx & <- & Hse).
    by apply (Rep_loose_ne _ _ _ _ a x Hr H2).
  - apply (rep_apart _ _ Hr).
Qed.

(** X3: [Purge] returns, leaving the list empty and the map without a key
    that can be found, and on the way calls the callback exactly once for
    every entry of the map, in the order in which [range] produces them.
    These are the entries of the list, whatever their ages, since [Purge]
    does not sweep, and besides them the entries under keys that are not
    equal to themselves which had left the list but not the map.  The
    entries under such keys are still in the map when [Purge] returns, its
    [delete] leaving them there. *)
Theorem Purge_notifies_every_entry_once (order : list (K * nat)) s :
  reachable s →
  ∃ ys stale s2, Purge order s = Ok (tt, s2) ∧
    contents s2 = [] ∧ (∀ k, items (cache s2) !! k = None) ∧
    loose (items (cache s2)) = loose (items (cache s)) ∧
    ys ≡ₚ contents s ++ stale ∧
    Forall (λ y, selfEqual (key y) = false) stale ∧
    length ys = size (items (cache s)) ∧
    key <$> ys = (rangeOrder order (items (cache s))).*1 ∧
    world s2 = foldl (notify (onEvictCall (cache s))) (world s) ys.
Proof.
  intros Hwf%reachable_wf.
  destruct (Purge_wf order s Hwf) as (s2 & Hs2 & _ & Hc2 & Hi2 & _).
  pose proof (Purge_world order s s2 Hwf Hs2) as Hw.
  destruct (wf_contents s Hwf) as (ls & Hr & Hx).
  set (es := rangeOrder order (items (cache s))) in *.
  assert (∀ k p, (k, p) ∈ es →
            ∃ x, entryAt s p = Some x ∧ key x = k ∧
                 (selfEqual k = true → ∃ a, p = Elem a ∧ a ∈ ls)) as Hes.
  { intros k p [Hp|Hp]%elem_of_rangeOrder.
    - apply (rep_items _ _ Hr) in Hp as (a & x & -> & Ha & Hv & Hk & _).
      exists x. unfold entryAt. rewrite Hv. repeat split; [done|]. by exists a.
    - destruct (rep_loose _ _ Hr _ _ Hp) as (a & x & -> & Hv & Hk & Hse).
      exists x. unfold entryAt. rewrite Hv. repeat split; [done|]. congruence. }
  destruct (entries_of_items s es (world s)) as [Hkeys Hfold].
  { intros k p Hin. destruct (Hes k p Hin) as (x & ? & ? & _). by exists x. }
  assert (NoDup es.*2) as Hnd.
  { unfold es. rewrite rangeOrder_perm. by apply (Rep_items_apart ls). }
  assert ((Elem <$> ls) ⊆+ es.*2) as Hsub.
  { apply NoDup_submseteq.
    - apply NoDup_fmap_2_strong; [|apply (lr_nodup _ _ (rep_list _ _ Hr))].
      by intros a b _ _ [= ->].
    - intros p (a & -> & Ha)%list_elem_of_fmap.
      destruct (rep_vals _ _ Hr a Ha) as [x Hv].
      apply list_elem_of_fmap. exists (key x, Elem a). split; [done|].
      apply elem_of_rangeOrder. destruct (selfEqual (key x)) eqn:Hse.
      + left. apply (rep_items _ _ Hr). by exists a, x.
      + right. by apply (rep_listed _ _ Hr). }
  apply submseteq_Permutation in Hsub as [rest Hperm].
  exists (omap (entryAt s) es.*2), (omap (entryAt s) rest), s2.
  split; [done|]. split; [done|]. split.
  { intros k. rewrite Hi2, lookup_GoMap. simpl. rewrite lookup_empty.
    by destruct (selfEqual k). }
  split; [by rewrite Hi2|].
  split.
  { rewrite Hperm, omap_app. by rewrite (entries_of_list s ls _ Hx). }
  split.
  { apply Forall_forall. intros y (p & Hp & Hy)%list_elem_of_omap.
    destruct (selfEqual (key y)) eqn:Hse; [exfalso|done].
    assert (p ∈ es.*2) as Hin.
    { rewrite Hperm. apply elem_of_app. by right. }
    apply list_elem_of_fmap in Hin as ([k p'] & -> & Hin). simpl in *.
    destruct (Hes k p' Hin) as (x & Hx' & Hk & Hl).
    assert (x = y) as -> by congruence.
    destruct Hl as (a & -> & Ha); [congruence|].
    rewrite Hperm in Hnd. apply NoDup_app in Hnd as (_ & Hd & _).
    apply (Hd (Elem a)); [|done]. apply list_elem_of_fmap. by exists a. }
  split.
  { rewrite <-(length_fmap key), Hkeys, length_fmap. apply length_rangeOrder. }
  split; [done|]. by rewrite Hw, Hfold.
Qed.

(** What a call makes of the list: it takes entries out, and a call that
    stamps an entry puts that one entry, stamped with the call's second
    reading of the clock, at the front. *)
Lemma exec_contents (o : Op) s :
  wf s →
  ∃ s', exec o s = Ok (tt, s') ∧ wf s' ∧
    duration (cache s') = duration (cache s) ∧
    (contents s' `sublist_of` contents s ∨
     ∃ x rest now now', contents s' = x :: rest ∧
       rest `sublist_of` contents s ∧ readings o = [now; now'] ∧ tm x = now').
Proof.
  intros Hwf.
  assert (∀ xs1 (x : entry) xs2, xs1 ++ xs2 `sublist_of` xs1 ++ x :: xs2) as Hmid.
  { intros. apply sublist_app; [done|]. by apply sublist_cons_r; left. }
  destruct o as [now now' k v|now now' k v|now now' k|now k|now k
                |now k|now|now|order|now]; simpl.
  - destruct (Add_wf now now' k v s Hwf)
      as (s1 & Hs1 & Hwf1 & [(_ & s2 & Hs2 & Hwf2 & Hc & _ & Hd & _)|(_ & Hs2)]);
      rewrite (bind_Ok _ _ _ _ _ Hs2); eexists; (split; [done|]);
      pose proof (sweep_sublist now s s1 Hwf Hs1) as Hsub;
      destruct (sweep_config now s s1 Hwf Hs1) as (Hd1 & _).
    + split; [done|]. split; [congruence|]. right.
      by exists (mk_entry now' k v), (contents s1), now, now'.
    + split; [done|]. split; [done|]. by left.
  - destruct (Update_wf now now' k v s Hwf)
      as (s1 & Hs1 & Hwf1 &
          [(_ & Hs2)|(xs1 & x & xs2 & s2 & Hc1 & _ & Hs2 & Hwf2 & Hc & _ & Hd & _)]);
      rewrite (bind_Ok _ _ _ _ _ Hs2); eexists; (split; [done|]);
      pose proof (sweep_sublist now s s1 Hwf Hs1) as Hsub;
      destruct (sweep_config now s s1 Hwf Hs1) as (Hd1 & _).
    + split; [done|]. split; [done|]. by left.
    + split; [done|]. split; [congruence|]. right.
      exists (mk_entry now' k v), (xs1 ++ xs2), now, now'.
      split; [done|]. split; [|done]. etrans; [apply Hmid|]. by rewrite <-Hc1.
  - destruct (Get_wf now now' k s Hwf)
      as (s1 & Hs1 & Hwf1 &
          [(_ & Hs2)|(xs1 & x & xs2 & s2 & Hc1 & _ & Hs2 & Hwf2 & Hc & _ & Hd & _)]);
      rewrite (bind_Ok _ _ _ _ _ Hs2); eexists; (split; [done|]);
      pose proof (sweep_sublist now s s1 Hwf Hs1) as Hsub;
      destruct (sweep_config now s s1 Hwf Hs1) as (Hd1 & _).
    + split; [done|]. split; [done|]. by left.
    + split; [done|]. split; [congruence|]. right.
      exists (mk_entry now' k (value x)), (xs1 ++ xs2), now, now'.
      split; [done|]. split; [|done]. etrans; [apply Hmid|]. by rewrite <-Hc1.
  - destruct (Contains_wf now k s Hwf) as (s1 & Hs1 & Hwf1 & Hs2).
    rewrite (bind_Ok _ _ _ _ _ Hs2). eexists. split; [done|]. split; [done|].
    split; [by apply (sweep_config now s s1)|].
    left. by apply (sweep_sublist now).
  - destruct (Peek_wf now k s Hwf)
      as (s1 & Hs1 & Hwf1 & [(_ & Hs2)|(? & _ & _ & Hs2)]);
      rewrite (bind_Ok _ _ _ _ _ Hs2); eexists; (split; [done|]);
      (split; [done|]); (split; [by apply (sweep_config now s s1)|]);
      left; by apply (sweep_sublist now).
  - destruct (Remove_wf now k s Hwf)
      as (s1 & Hs1 & Hwf1 &
          [(_ & Hs2)|(xs1 & x & xs2 & s2 & Hc1 & _ & Hs2 & Hwf2 & Hc & _ & Hd & _)]);
      rewrite (bind_Ok _ _ _ _ _ Hs2); eexists; (split; [done|]);
      pose proof (sweep_sublist now s s1 Hwf Hs1) as Hsub;
      destruct (sweep_config now s s1 Hwf Hs1) as (Hd1 & _).
    + split; [done|]. split; [done|]. by left.
    + split; [done|]. split; [congruence|]. left.
      rewrite Hc. etrans; [apply Hmid|]. by rewrite <-Hc1.
  - destruct (Keys_wf now s Hwf) as (s1 & Hs1 & Hwf1 & Hs2).
    rewrite (bind_Ok _ _ _ _ _ Hs2). eexists. split; [done|]. split; [done|].
    split; [by apply (sweep_config now s s1)|].
    left. by apply (sweep_sublist now).
  - destruct (Len_wf now s Hwf) as (s1 & Hs1 & Hwf1 & Hs2).
    rewrite (bind_Ok _ _ _ _ _ Hs2). eexists. split; [done|]. split; [done|].
    split; [by apply (sweep_config now s s1)|].
    left. by apply (sweep_sublist now).
  - destruct (Purge_wf order s Hwf) as (s2 & Hs2 & Hwf2 & Hc & _ & Hd & _).
    exists s2. split; [done|]. split; [done|]. split; [done|].
    left. rewrite Hc. apply sublist_nil_l.
  - destruct (purgeExpired_wf now s Hwf) as (s1 & Hs1 & Hwf1).
    exists s1. split; [done|]. split; [done|].
    split; [by apply (sweep_config now s s1)|].
    left. by apply (sweep_sublist now).
Qed.

Lemma newestFirst_mono hi hi' xs :
  hi ≤ hi' → newestFirst hi xs → newestFirst hi' xs.
Proof. destruct xs; [done|]. simpl. intros ? [? ?]. split; [lia|done]. Qed.

Lemma newestFirst_sublist hi xs ys :
  ys `sublist_of` xs → newestFirst hi xs → newestFirst hi ys.
Proof.
  intros Hsub. revert hi. induction Hsub as [|x ys xs _ IH|x ys xs _ IH];
    intros hi; simpl; [done|..].
  - intros [? ?]. split; [done|]. by apply IH.
  - intros [? ?]. apply IH. by apply (newestFirst_mono (tm x)); [lia|].
Qed.

Lemma newestFirst_bound hi xs (y : entry) :
  newestFirst hi xs → y ∈ xs → 0 ≤ tm y ≤ hi.
Proof.
  revert hi. induction xs as [|z xs IH]; intros hi; simpl.
  - intros _ Hy. by inversion Hy.
  - intros [? Hn] [->|Hy]%elem_of_cons; [done|].
    specialize (IH (tm z) Hn Hy). lia.
Qed.

(** The last entry of a list ordered by stamp has the smallest stamp. *)
Lemma newestFirst_back hi xs (x y : entry) :
  newestFirst hi (xs ++ [x]) → y ∈ xs ++ [x] → 0 ≤ tm x ≤ tm y ∧ tm y ≤ hi.
Proof.
  revert hi. induction xs as [|z xs IH]; intros hi; simpl.
  - intros [? _] ->%list_elem_of_singleton. lia.
  - intros [? Hn] [Heq|Hy]%elem_of_cons.
    + subst z. assert (0 ≤ tm x ≤ tm y); [|lia].
      apply (newestFirst_bound _ (xs ++ [x])); [done|].
      apply elem_of_app. right. by left.
    + destruct (IH (tm z) Hn Hy). lia.
Qed.

Lemma ticking_app lo ts1 ts2 :
  ticking lo (ts1 ++ ts2) ↔ ticking lo ts1 ∧ ticking (lastTick lo ts1) ts2.
Proof.
  unfold lastTick. revert lo. induction ts1 as [|t ts1 IH]; intros lo; simpl.
  - tauto.
  - rewrite IH. tauto.
Qed.

Lemma ticking_last lo ts : ticking lo ts → lo ≤ lastTick lo ts.
Proof.
  unfold lastTick. revert lo. induction ts as [|t ts IH]; intros lo; simpl.
  - lia.
  - intros [? Ht]. specialize (IH t Ht). lia.
Qed.

(** Under a clock that does not go back a call leaves the list ordered by
    stamp. *)
Lemma exec_newestFirst (o : Op) lo s :
  wf s → 0 ≤ lo → newestFirst lo (contents s) → ticking lo (readings o) →
  ∃ s', exec o s = Ok (tt, s') ∧ wf s' ∧
    duration (cache s') = duration (cache s) ∧
    newestFirst (lastTick lo (readings o)) (contents s').
Proof.
  intros Hwf Hlo Hn Ht.
  destruct (exec_contents o s Hwf) as (s' & Hs' & Hwf' & Hd & Hc).
  exists s'. split; [done|]. split; [done|]. split; [done|].
  destruct Hc as [Hsub|(x & rest & now & now' & -> & Hsub & Hr & Hx)].
  - apply (newestFirst_mono lo); [by apply ticking_last|].
    by apply (newestFirst_sublist _ (contents s)).
  - rewrite Hr in *. simpl in Ht. unfold lastTick. simpl.
    split; [lia|]. apply (newestFirst_mono lo); [lia|].
    by apply (newestFirst_sublist _ (contents s)).
Qed.

Lemma run_newestFirst (ops : list Op) lo s :
  wf s → 0 ≤ lo → newestFirst lo (contents s) →
  ticking lo (ops ≫= readings) →
  ∃ s', run ops s = Ok s' ∧ wf s' ∧
    duration (cache s') = duration (cache s) ∧
    newestFirst (lastTick lo (ops ≫= readings)) (contents s').
Proof.
  revert lo s. induction ops as [|o ops IH]; intros lo s Hwf Hlo Hn Ht.
  { by exists s. }
  rewrite bind_cons in *. apply ticking_app in Ht as [Ht1 Ht2].
  destruct (exec_newestFirst o lo s Hwf Hlo Hn Ht1) as (s1 & Hs1 & Hwf1 & Hd1 & Hn1).
  destruct (IH (lastTick lo (readings o)) s1 Hwf1)
    as (s' & Hs' & Hwf' & Hd' & Hn');
    [pose proof (ticking_last _ _ Ht1); lia|done|done|].
  exists s'. simpl. rewrite Hs1. split; [done|]. split; [done|].
  split; [congruence|]. unfold lastTick in *. by rewrite foldl_app.
Qed.

Lemma new_contents d cb (w : W) :
  contents (NewTimedCache (K:=K) (V:=V) d cb w) = [].
Proof.
  apply (contents_Ents []); [apply NewTimedCache_Rep|constructor].
Qed.

(** In a list ordered by stamp, read at [now] not before its newest stamp,
    the age of an entry is the difference of the readings, and no entry
    is older than the one at the back. *)
Lemma newestFirst_age hi now xs (x y : entry) :
  newestFirst hi (xs ++ [x]) → hi ≤ now < 2 ^ 63 → y ∈ xs ++ [x] →
  age now y ≤ age now x.
Proof.
  intros Hn Hnow Hy. destruct (newestFirst_back hi xs x y Hn Hy).
  unfold age. rewrite !sub64_exact; [lia|unfold in_int64; lia..].
Qed.

(** X14: under a clock that does not go back, every sequence of calls on a
    new cache leaves the list ordered by stamp: from the front to the
    back the stamps do not increase, and none is later than the last
    reading of the clock. *)
Theorem list_is_ordered_by_stamp d cb (w : W) (ops : list (Op (K:=K) (V:=V))) :
  clocked ops →
  ∃ s, run ops (NewTimedCache d cb w) = Ok s ∧
    newestFirst (lastTick 0 (ops ≫= readings)) (contents s).
Proof.
  intros Ht.
  destruct (run_newestFirst ops 0 (NewTimedCache d cb w))
    as (s & Hs & _ & _ & Hn); [|done| |done|by exists s].
  - exists []. apply NewTimedCache_Rep.
  - by rewrite new_contents.
Qed.

(** X15: under a clock that does not go back, the sweep stops where the
    code says it may: when a sweep after a sequence of calls on a new
    cache removes nothing, no entry of the cache is expired. *)
Theorem sweep_stops_only_when_none_expired d cb (w : W)
    (ops : list (Op (K:=K) (V:=V))) now :
  clocked (ops ++ [OpPurgeExpired now]) →
  ∃ s s1, run ops (NewTimedCache d cb w) = Ok s ∧
    PurgeExpired now s = Ok (tt, s1) ∧
    (contents s1 = contents s → ∀ x, x ∈ contents s → age now x ≤ d).
Proof.
  unfold clocked. rewrite bind_app. intros [Ht Hnow]%ticking_app.
  simpl in Hnow. destruct Hnow as [Hnow _].
  destruct (run_newestFirst ops 0 (NewTimedCache d cb w))
    as (s & Hs & Hwf & Hd & Hn); [|done| |done|].
  { exists []. apply NewTimedCache_Rep. }
  { by rewrite new_contents. }
  simpl in Hd.
  destruct (PurgeExpired_wf now s Hwf) as (s1 & Hs1 & _ & Hcase).
  exists s, s1. split; [done|]. split; [done|]. intros Hsame y Hy.
  destruct Hcase as [[Hnil _]|(xs & x & Hc & [[Hne _]|(_ & Hc1 & _)])].
  - rewrite Hnil in Hy. by inversion Hy.
  - rewrite Hc in Hn, Hy.
    pose proof (newestFirst_age _ now xs x y Hn Hnow Hy).
    unfold expired in Hne. lia.
  - rewrite Hsame, Hc in Hc1. apply (f_equal length) in Hc1.
    rewrite length_app in Hc1. simpl in Hc1. lia.
Qed.

(** When the entry at the back is not expired, sweeping again and again
    changes nothing. *)
Lemma sweeps_idle n now s :
  purgeExpired now s = Ok (tt, s) → sweeps n now s = Ok (tt, s).
Proof.
  intros Hs. induction n as [|n IH]; [done|].
  simpl. unfold PurgeExpired. by rewrite (bind_Ok _ _ _ _ _ Hs).
Qed.

Lemma sweeps_filter n now hi s :
  wf s → newestFirst hi (contents s) → hi ≤ now < 2 ^ 63 →
  (length (filter (λ x, (age now x > duration (cache s))%Z) (contents s)) ≤ n)%nat →
  ∃ s', sweeps n now s = Ok (tt, s') ∧
    contents s' = filter (λ x, age now x ≤ duration (cache s)) (contents s) ∧
    world s' = foldl (notify (onEvictCall (cache s))) (world s)
                 (reverse (filter (λ x, age now x > duration (cache s))
                                  (contents s))).
Proof.
  revert s. induction n as [|n IH]; intros s Hwf Hn Hnow Hlen.
  { exists s. split; [done|].
    assert (filter (λ x, age now x > duration (cache s)) (contents s) = [])
      as Hnil by (apply length_zero_iff_nil; lia).
    rewrite Hnil. split; [|done]. rewrite filter_all; [done|].
    intros y Hy. destruct (decide (age now y > duration (cache s))); [|lia].
    by destruct (filter_nil_not_elem_of _ _ y Hnil). }
  destruct (PurgeExpired_wf now s Hwf) as (s1 & Hs1 & Hwf1 & Hcase).
  destruct Hcase as [[Hnil ->]|(xs & x & Hc & [[Hne ->]|Hex])].
  - exists s. split; [by apply sweeps_idle|]. by rewrite Hnil.
  - exists s. split; [by apply sweeps_idle|].
    assert (∀ y, y ∈ contents s → age now y ≤ duration (cache s)) as Hall.
    { intros y Hy. rewrite Hc in Hn, Hy.
      pose proof (newestFirst_age _ now xs x y Hn Hnow Hy).
      unfold expired in Hne. lia. }
    rewrite filter_all by done. split; [done|].
    rewrite filter_none; [done|]. intros y Hy. specialize (Hall y Hy). lia.
  - destruct Hex as (He & Hc1 & _ & Hd & Hcb & Hw). unfold expired in He.
    rewrite Hc, filter_app, filter_cons_True, length_app in Hlen by done.
    simpl in Hlen.
    destruct (IH s1) as (s' & Hs' & Hc' & Hw'); [done| |done| |].
    { rewrite Hc1. apply (newestFirst_sublist _ (contents s)); [|done].
      rewrite Hc. by apply sublist_inserts_r. }
    { rewrite Hc1, Hd. lia. }
    exists s'. simpl. unfold PurgeExpired. rewrite (bind_Ok _ _ _ _ _ Hs1).
    split; [done|]. rewrite Hc', Hw', Hd, Hcb, Hc1, Hc, Hw, !filter_app.
    simpl.
    rewrite !filter_cons_False, !filter_cons_True by (simpl; lia).
    simpl. rewrite app_nil_r. split; [done|].
    by rewrite reverse_app.
Qed.

(** X16: under a clock that does not go back, a call of [PurgeExpired]
    removes at most one entry, and as many calls within one second as the
    cache has expired entries remove all of them and no other: what stays
    is the list without its expired entries, and the callback has been
    called once on each expired entry, the oldest first. *)
Theorem repeated_sweeps_remove_all_expired d cb (w : W)
    (ops : list (Op (K:=K) (V:=V))) now n :
  clocked (ops ++ [OpPurgeExpired now]) →
  ∃ s s', run ops (NewTimedCache d cb w) = Ok s ∧
    ((length (filter (λ x, (age now x > d)%Z) (contents s)) ≤ n)%nat →
     sweeps n now s = Ok (tt, s') ∧
     contents s' = filter (λ x, age now x ≤ d) (contents s) ∧
     world s' = foldl (notify cb) (world s)
                  (reverse (filter (λ x, age now x > d) (contents s)))).
Proof.
  unfold clocked. rewrite bind_app. intros [Ht Hnow]%ticking_app.
  simpl in Hnow. destruct Hnow as [Hnow _].
  destruct (run_wf ops (NewTimedCache d cb w))
    as (s0 & Hs0 & _ & _ & Hcb & _); [exists []; apply NewTimedCache_Rep|].
  destruct (run_newestFirst ops 0 (NewTimedCache d cb w))
    as (s & Hs & Hwf & Hd & Hn); [|done| |done|].
  { exists []. apply NewTimedCache_Rep. }
  { by rewrite new_contents. }
  assert (s0 = s) as -> by congruence. simpl in Hd, Hcb.
  destruct (decide (length (filter (λ x, (age now x > d)%Z) (contents s)) ≤ n)%nat)
    as [Hlen|Hlen].
  - rewrite <-Hd in Hlen.
    destruct (sweeps_filter n now _ s Hwf Hn Hnow Hlen) as (s' & Hs' & Hc' & Hw').
    exists s, s'. split; [done|]. intros _. by rewrite <-Hd, <-Hcb.
  - exists s, s. split; [done|]. intros ?. lia.
Qed.

(** X17: a new cache is empty whatever it is built with: [Len] is 0,
    [Keys] is the empty slice, no key is found, [Remove] removes nothing,
    and the sweep and these calls leave the cache as it was built. *)
Theorem new_cache_is_empty d cb (w : W) now now' k :
  let s0 := NewTimedCache (K:=K) (V:=V) d cb w in
  Len now s0 = Ok (0, s0) ∧ Keys now s0 = Ok ([], s0) ∧
  Contains now k s0 = Ok (false, s0) ∧
  Peek now k s0 = Ok ((None, false), s0) ∧
  Get now now' k s0 = Ok ((None, false), s0) ∧
  Remove now k s0 = Ok (false, s0) ∧
  PurgeExpired now s0 = Ok (tt, s0).
Proof.
  intros s0.
  assert (wf s0) as Hwf by (exists []; apply NewTimedCache_Rep).
  assert (purgeExpired now s0 = Ok (tt, s0)) as Hs by reflexivity.
  assert (items (cache s0) !! k = None) as Hk.
  { apply lookup_GoMap_None. right. apply lookup_empty. }
  destruct (missing_key now now' k s0 s0 Hwf Hs Hk) as (? & ? & ? & ? & _).
  repeat split; done.
Qed.

(** X18: [Add], [Update], [Get], [Peek], [Contains], [Keys] and [Len] call
    the callback for nothing but what their sweep evicts: the world each
    of them leaves is the world the sweep alone leaves. *)
Theorem only_evictions_notify now now' k (v : V) s :
  reachable s →
  ∃ s1, purgeExpired now s = Ok (tt, s1) ∧
    ∀ o, o ∈ [OpAdd now now' k v; OpUpdate now now' k v; OpGet now now' k;
              OpPeek now k; OpContains now k; OpKeys now; OpLen now] →
      ∃ s', exec o s = Ok (tt, s') ∧ world s' = world s1.
Proof.
  intros Hwf%reachable_wf.
  destruct (purgeExpired_wf now s Hwf) as (s1 & Hs1 & Hwf1).
  exists s1. split; [done|]. intros o Ho.
  repeat (apply elem_of_cons in Ho as [->|Ho]); [..|by inversion Ho]; simpl.
  - destruct (Add_wf now now' k v s Hwf)
      as (s1' & Hs1' & _ & [(_ & s2 & Hs2 & _ & _ & _ & _ & _ & Hw)|(_ & Hs2)]);
      assert (s1' = s1) as -> by congruence;
      rewrite (bind_Ok _ _ _ _ _ Hs2); by eexists.
  - destruct (Update_wf now now' k v s Hwf)
      as (s1' & Hs1' & _ &
          [(_ & Hs2)|(? & ? & ? & s2 & _ & _ & Hs2 & _ & _ & _ & _ & _ & Hw)]);
      assert (s1' = s1) as -> by congruence;
      rewrite (bind_Ok _ _ _ _ _ Hs2); by eexists.
  - destruct (Get_wf now now' k s Hwf)
      as (s1' & Hs1' & _ &
          [(_ & Hs2)|(? & ? & ? & s2 & _ & _ & Hs2 & _ & _ & _ & _ & _ & Hw)]);
      assert (s1' = s1) as -> by congruence;
      rewrite (bind_Ok _ _ _ _ _ Hs2); by eexists.
  - destruct (Peek_wf now k s Hwf)
      as (s1' & Hs1' & _ & [(_ & Hs2)|(? & _ & _ & Hs2)]);
      assert (s1' = s1) as -> by congruence;
      rewrite (bind_Ok _ _ _ _ _ Hs2); by eexists.
  - destruct (Contains_wf now k s Hwf) as (s1' & Hs1' & _ & Hs2).
    assert (s1' = s1) as -> by congruence.
    rewrite (bind_Ok _ _ _ _ _ Hs2). by eexists.
  - destruct (Keys_wf now s Hwf) as (s1' & Hs1' & _ & Hs2).
    assert (s1' = s1) as -> by congruence.
    rewrite (bind_Ok _ _ _ _ _ Hs2). by eexists.
  - destruct (Len_wf now s Hwf) as (s1' & Hs1' & _ & Hs2).
    assert (s1' = s1) as -> by congruence.
    rewrite (bind_Ok _ _ _ _ _ Hs2). by eexists.
Qed.

(** X19: a key that is not equal to itself is never found: [Contains],
    [Get], [Peek], [Remove] and [Update] answer as for a missing key and do
    nothing beyond the sweep, and [Add] returns [true] every time, putting
    one more entry at the front of the list and one more entry into the
    map. *)
Theorem key_not_equal_to_itself_is_never_found now now' k (v : V) s :
  reachable s →
  selfEqual k = false →
  ∃ s1 s2, purgeExpired now s = Ok (tt, s1) ∧
    Contains now k s = Ok (false, s1) ∧
    Get now now' k s = Ok ((None, false), s1) ∧
    Peek now k s = Ok ((None, false), s1) ∧
    Remove now k s = Ok (false, s1) ∧
    Update now now' k v s = Ok (false, s1) ∧
    Add now now' k v s = Ok (true, s2) ∧
    contents s2 = mk_entry now' k v :: contents s1 ∧
    size (items (cache s2)) = S (size (items (cache s1))).
Proof.
  intros Hwf%reachable_wf Hse.
  destruct (loose_key_missing now now' k s Hwf Hse)
    as (s1 & Hs1 & _ & Hget & Hpeek & Hcont & Hrem & Hupd).
  destruct (Add_wf_items now now' k v s Hwf)
    as (s1' & Hs1' & _ & [(_ & s2 & Hadd & _ & Hc & Hi & _)|([p Hp] & _)]).
  - assert (s1' = s1) as -> by congruence.
    exists s1, s2. repeat split; try done.
    rewrite Hi, !size_GoMap, keyed_insert, loose_insert, Hse. simpl. lia.
  - apply lookup_GoMap_Some in Hp as [? _]. congruence.
Qed.

(** X20: after every sequence of calls of the ten operations on a new
    cache, whatever the keys: the list's length field is the number of its
    entries; the keys the map finds are exactly the keys of the list that
    are equal to themselves, and none of them is the key of two entries
    of the list; and the map has at least as many entries as the list. *)
Theorem index_over_all_keys d cb (w : W) (ops : list (Op (K:=K) (V:=V))) :
  ∃ s, run ops (NewTimedCache d cb w) = Ok s ∧
    len (evictList (cache s)) = Z.of_nat (length (contents s)) ∧
    (∀ k, is_Some (items (cache s) !! k) ↔
          k ∈ key <$> contents s ∧ selfEqual k = true) ∧
    NoDup (filter (λ k, selfEqual k = true) (key <$> contents s)) ∧
    (length (contents s) ≤ size (items (cache s)))%nat.
Proof.
  destruct (run_wf ops (NewTimedCache d cb w)) as (s & Hs & Hwf & _).
  { exists []. apply NewTimedCache_Rep. }
  exists s. split; [done|].
  destruct (wf_contents s Hwf) as (ls & Hr & Hx).
  split.
  { by rewrite (lr_len _ _ (rep_list _ _ Hr)), (Ents_length _ _ _ Hx). }
  split; [intros k; by apply wf_lookup_key|].
  split; [by apply wf_keys_NoDup|].
  by apply (Rep_size_le ls).
Qed.

End Further.

(** ** The further properties at the caches of the demonstration *)

Section FurtherDemo.

Local Abbreviation State := (State (K:=Z) (V:=string) (W:=list (Z * string))).

(** X1 at the cache of the demonstration after its four calls of [Add],
    swept at time 7. *)
Lemma sweep_removes_expired_back_entry_witness :
  reachable (state_after fourAdds tc) ∧
  ∃ s1, purgeExpired 7 (state_after fourAdds tc) = Ok (tt, s1) ∧
    ((contents (state_after fourAdds tc) = [] ∧ s1 = state_after fourAdds tc) ∨
     (∃ xs x, contents (state_after fourAdds tc) = xs ++ [x] ∧
        ((age 7 x ≤ duration (cache (state_after fourAdds tc)) ∧
          s1 = state_after fourAdds tc) ∨
         (age 7 x > duration (cache (state_after fourAdds tc)) ∧
          contents s1 = xs ∧
          items (cache s1) =
            delete (key x) (items (cache (state_after fourAdds tc))) ∧
          items (cache s1) !! key x = None ∧
          (selfEqual (key x) = false →
           items (cache s1) = items (cache (state_after fourAdds tc))) ∧
          world s1 =
            fire (onEvictCall (cache (state_after fourAdds tc)))
                 (key x) (value x) (world (state_after fourAdds tc)))))).
Proof.
  assert (reachable (state_after fourAdds tc)) as Hreach.
  { exists 4, (Some purgeCall), [], fourAdds. vm_compute. reflexivity. }
  split; [exact Hreach|].
  apply (sweep_removes_expired_back_entry 7 _ Hreach).
Defined.

(** X2 at the same cache, for the key 3. *)
Lemma Remove_removes_and_notifies_witness :
  reachable (state_after fourAdds tc) ∧
  ∃ s1, purgeExpired 7 (state_after fourAdds tc) = Ok (tt, s1) ∧
    ((items (cache s1) !! 3 = None ∧
      Remove 7 3 (state_after fourAdds tc) = Ok (false, s1)) ∨
     (∃ xs1 x xs2 s2,
        contents s1 = xs1 ++ x :: xs2 ∧ key x = 3 ∧
        Remove 7 3 (state_after fourAdds tc) = Ok (true, s2) ∧
        contents s2 = xs1 ++ xs2 ∧
        items (cache s2) = delete 3 (items (cache s1)) ∧
        world s2 = notify (onEvictCall (cache s1)) (world s1) x)).
Proof.
  assert (reachable (state_after fourAdds tc)) as Hreach.
  { exists 4, (Some purgeCall), [], fourAdds. vm_compute. reflexivity. }
  split; [exact Hreach|].
  apply (Remove_removes_and_notifies 7 3 _ Hreach).
Defined.

(** X3 at the same cache, ranged over from the key 4 down. *)
Lemma Purge_notifies_every_entry_once_witness :
  reachable (state_after fourAdds tc) ∧
  ∃ ys stale s2,
    Purge (inTurn [4; 3; 2]) (state_after fourAdds tc) = Ok (tt, s2) ∧
    contents s2 = [] ∧ (∀ k, items (cache s2) !! k = None) ∧
    loose (items (cache s2)) = loose (items (cache (state_after fourAdds tc))) ∧
    ys ≡ₚ contents (state_after fourAdds tc) ++ stale ∧
    Forall (λ y, selfEqual (key y) = false) stale ∧
    length ys = size (items (cache (state_after fourAdds tc))) ∧
    key <$> ys =
      (rangeOrder (inTurn [4; 3; 2])
                  (items (cache (state_after fourAdds tc)))).*1 ∧
    world s2 =
      foldl (notify (onEvictCall (cache (state_after fourAdds tc))))
            (world (state_after fourAdds tc)) ys.
Proof.
  assert (reachable (state_after fourAdds tc)) as Hreach.
  { exists 4, (Some purgeCall), [], fourAdds. vm_compute. reflexivity. }
  split; [exact Hreach|].
  apply (Purge_notifies_every_entry_once (inTurn [4; 3; 2]) _ Hreach).
Defined.

(** X4 at the same cache: the key 5 is added at time 7 and looked up at
    time 9. *)
Lemma Add_then_Peek_witness :
  reachable (state_after fourAdds tc) ∧
  selfEqual 5 = true ∧
  Add 7 7 5 "e" (state_after fourAdds tc) =
    Ok (true, state_after (fourAdds ++ [OpAdd 7 7 5 "e"]) tc) ∧
  age 9 (mk_entry 7 5 "e") ≤
    duration (cache (state_after (fourAdds ++ [OpAdd 7 7 5 "e"]) tc)) ∧
  ∃ s3,
    Peek 9 5 (state_after (fourAdds ++ [OpAdd 7 7 5 "e"]) tc) =
      Ok ((Some "e", true), s3) ∧
    Contains 9 5 (state_after (fourAdds ++ [OpAdd 7 7 5 "e"]) tc) =
      Ok (true, s3).
Proof.
  assert (reachable (state_after fourAdds tc)) as Hreach.
  { exists 4, (Some purgeCall), [], fourAdds. vm_compute. reflexivity. }
  assert (Add 7 7 5 "e" (state_after fourAdds tc) =
            Ok (true, state_after (fourAdds ++ [OpAdd 7 7 5 "e"]) tc)) as Hadd
    by (vm_compute; reflexivity).
  assert (age 9 (mk_entry 7 5 "e") ≤
            duration (cache (state_after (fourAdds ++ [OpAdd 7 7 5 "e"]) tc)))
    as Hage by (vm_compute; discriminate).
  split; [exact Hreach|]. split; [reflexivity|].
  split; [exact Hadd|]. split; [exact Hage|].
  apply (Add_then_Peek 7 7 9 5 "e" _ _ Hreach eq_refl Hadd Hage).
Defined.

(** X5 at the same cache: the key 3 is updated at time 7 and looked up at
    time 9. *)
Lemma Update_then_Peek_witness :
  reachable (state_after fourAdds tc) ∧
  Update 7 7 3 "z" (state_after fourAdds tc) =
    Ok (true, state_after (fourAdds ++ [OpUpdate 7 7 3 "z"]) tc) ∧
  age 9 (mk_entry 7 3 "z") ≤
    duration (cache (state_after (fourAdds ++ [OpUpdate 7 7 3 "z"]) tc)) ∧
  ∃ s3,
    Peek 9 3 (state_after (fourAdds ++ [OpUpdate 7 7 3 "z"]) tc) =
      Ok ((Some "z", true), s3) ∧
    Contains 9 3 (state_after (fourAdds ++ [OpUpdate 7 7 3 "z"]) tc) =
      Ok (true, s3).
Proof.
  assert (reachable (state_after fourAdds tc)) as Hreach.
  { exists 4, (Some purgeCall), [], fourAdds. vm_compute. reflexivity. }
  assert (Update 7 7 3 "z" (state_after fourAdds tc) =
            Ok (true, state_after (fourAdds ++ [OpUpdate 7 7 3 "z"]) tc))
    as Hupd by (vm_compute; reflexivity).
  assert (age 9 (mk_entry 7 3 "z") ≤
            duration (cache (state_after (fourAdds ++ [OpUpdate 7 7 3 "z"]) tc)))
    as Hage by (vm_compute; discriminate).
  split; [exact Hreach|]. split; [exact Hupd|]. split; [exact Hage|].
  apply (Update_then_Peek 7 7 9 3 "z" _ _ Hreach Hupd Hage).
Defined.

(** X6 at the same cache: the key 3, stamped 4, is read at time 7 and is
    still found at time 11, when the stamp 4 would have expired. *)
Lemma Get_renews_lease_witness :
  reachable (state_after fourAdds tc) ∧
  Get 7 7 3 (state_after fourAdds tc) =
    Ok ((Some "c", true), state_after (fourAdds ++ [OpGet 7 7 3]) tc) ∧
  age 11 (mk_entry 7 3 "c") ≤
    duration (cache (state_after (fourAdds ++ [OpGet 7 7 3]) tc)) ∧
  ∃ s3,
    Peek 11 3 (state_after (fourAdds ++ [OpGet 7 7 3]) tc) =
      Ok ((Some "c", true), s3) ∧
    Contains 11 3 (state_after (fourAdds ++ [OpGet 7 7 3]) tc) =
      Ok (true, s3).
Proof.
  assert (reachable (state_after fourAdds tc)) as Hreach.
  { exists 4, (Some purgeCall), [], fourAdds. vm_compute. reflexivity. }
  assert (Get 7 7 3 (state_after fourAdds tc) =
            Ok ((Some "c", true), state_after (fourAdds ++ [OpGet 7 7 3]) tc))
    as Hget by (vm_compute; reflexivity).
  assert (age 11 (mk_entry 7 3 "c") ≤
            duration (cache (state_after (fourAdds ++ [OpGet 7 7 3]) tc)))
    as Hage by (vm_compute; discriminate).
  split; [exact Hreach|]. split; [exact Hget|]. split; [exact Hage|].
  apply (Get_renews_lease 7 7 11 3 "c" _ _ Hreach Hget Hage).
Defined.

(** X7 at the same cache: the key 3 is removed at time 7 and looked up at
    time 8. *)
Lemma Remove_then_missing_witness :
  reachable (state_after fourAdds tc) ∧
  Remove 7 3 (state_after fourAdds tc) =
    Ok (true, state_after (fourAdds ++ [OpRemove 7 3]) tc) ∧
  ∃ s3,
    Contains 8 3 (state_after (fourAdds ++ [OpRemove 7 3]) tc) =
      Ok (false, s3) ∧
    Peek 8 3 (state_after (fourAdds ++ [OpRemove 7 3]) tc) =
      Ok ((None, false), s3) ∧
    Get 8 8 3 (state_after (fourAdds ++ [OpRemove 7 3]) tc) =
      Ok ((None, false), s3).
Proof.
  assert (reachable (state_after fourAdds tc)) as Hreach.
  { exists 4, (Some purgeCall), [], fourAdds. vm_compute. reflexivity. }
  assert (Remove 7 3 (state_after fourAdds tc) =
            Ok (true, state_after (fourAdds ++ [OpRemove 7 3]) tc))
    as Hrem by (vm_compute; reflexivity).
  split; [exact Hreach|]. split; [exact Hrem|].
  apply (Remove_then_missing 7 8 8 3 _ _ _ Hreach Hrem).
Defined.


(** X9 at the same cache, for the key 3 at time 7. *)
Lemma Get_Peek_same_answer_witness :
  reachable (state_after fourAdds tc) ∧
  ∃ r s1 s2, Peek 7 3 (state_after fourAdds tc) = Ok (r, s1) ∧
    Get 7 7 3 (state_after fourAdds tc) = Ok (r, s2) ∧
    items (cache s2) = items (cache s1).
Proof.
  assert (reachable (state_after fourAdds tc)) as Hreach.
  { exists 4, (Some purgeCall), [], fourAdds. vm_compute. reflexivity. }
  split; [exact Hreach|].
  apply (Get_Peek_same_answer 7 7 3 _ Hreach).
Defined.

(** X10 at the same cache, for the key 3 at time 7. *)
Lemma Add_returns_not_Contains_witness :
  reachable (state_after fourAdds tc) ∧
  ∃ b s1 s2, Contains 7 3 (state_after fourAdds tc) = Ok (b, s1) ∧
    Add 7 7 3 "z" (state_after fourAdds tc) = Ok (negb b, s2) ∧
    (b = true → s2 = s1).
Proof.
  assert (reachable (state_after fourAdds tc)) as Hreach.
  { exists 4, (Some purgeCall), [], fourAdds. vm_compute. reflexivity. }
  split; [exact Hreach|].
  apply (Add_returns_not_Contains 7 7 3 "z" _ Hreach).
Defined.

(** X11 at the same cache, for the key 9, which was never added. *)
Lemma absent_key_calls_only_sweep_witness :
  reachable (state_after fourAdds tc) ∧
  Contains 7 9 (state_after fourAdds tc) =
    Ok (false, state_after (fourAdds ++ [OpPurgeExpired 7]) tc) ∧
  Get 7 7 9 (state_after fourAdds tc) =
    Ok ((None, false), state_after (fourAdds ++ [OpPurgeExpired 7]) tc) ∧
  Peek 7 9 (state_after fourAdds tc) =
    Ok ((None, false), state_after (fourAdds ++ [OpPurgeExpired 7]) tc) ∧
  Remove 7 9 (state_after fourAdds tc) =
    Ok (false, state_after (fourAdds ++ [OpPurgeExpired 7]) tc) ∧
  Update 7 7 9 "z" (state_after fourAdds tc) =
    Ok (false, state_after (fourAdds ++ [OpPurgeExpired 7]) tc).
Proof.
  assert (reachable (state_after fourAdds tc)) as Hreach.
  { exists 4, (Some purgeCall), [], fourAdds. vm_compute. reflexivity. }
  assert (Contains 7 9 (state_after fourAdds tc) =
            Ok (false, state_after (fourAdds ++ [OpPurgeExpired 7]) tc))
    as Hcont by (vm_compute; reflexivity).
  split; [exact Hreach|]. split; [exact Hcont|].
  apply (absent_key_calls_only_sweep 7 7 9 "z" _ _ Hreach Hcont).
Defined.

(** X12 at the same cache, at time 7. *)
Lemma Keys_reverses_Print_witness :
  reachable (state_after fourAdds tc) ∧
  Keys 7 (state_after fourAdds tc) =
    Ok ([Some 3; Some 4], state_after (fourAdds ++ [OpPurgeExpired 7]) tc) ∧
  ∃ xs,
    Print (state_after (fourAdds ++ [OpPurgeExpired 7]) tc) =
      Ok (xs, state_after (fourAdds ++ [OpPurgeExpired 7]) tc) ∧
    [Some 3; Some 4] =
      (Some ∘ key <$> reverse xs) ++
      replicate
        (size (items (cache (state_after (fourAdds ++ [OpPurgeExpired 7]) tc)))
         - length xs) None.
Proof.
  assert (reachable (state_after fourAdds tc)) as Hreach.
  { exists 4, (Some purgeCall), [], fourAdds. vm_compute. reflexivity. }
  assert (Keys 7 (state_after fourAdds tc) =
            Ok ([Some 3; Some 4],
                state_after (fourAdds ++ [OpPurgeExpired 7]) tc))
    as Hkeys by (vm_compute; reflexivity).
  split; [exact Hreach|]. split; [exact Hkeys|].
  apply (Keys_reverses_Print 7 _ _ _ Hreach Hkeys).
Defined.

(** X14 for the four calls of [Add] of the demonstration. *)
Lemma list_is_ordered_by_stamp_witness :
  clocked fourAdds ∧
  ∃ s, run fourAdds tc = Ok s ∧
    newestFirst (lastTick 0 (fourAdds ≫= readings)) (contents s).
Proof.
  assert (clocked fourAdds) as Hc by (unfold clocked; simpl; lia).
  split; [exact Hc|].
  apply (list_is_ordered_by_stamp 4 (Some purgeCall) [] fourAdds Hc).
Defined.

(** X15 for the same calls and a sweep at time 6, which finds the key 2
    of age 4 at the back and removes nothing. *)
Lemma sweep_stops_only_when_none_expired_witness :
  clocked (fourAdds ++ [OpPurgeExpired 6]) ∧
  ∃ s s1, run fourAdds tc = Ok s ∧
    PurgeExpired 6 s = Ok (tt, s1) ∧
    contents s1 = contents s ∧
    ∀ x, x ∈ contents s → age 6 x ≤ 4.
Proof.
  assert (clocked (fourAdds ++ [OpPurgeExpired 6])) as Hc
    by (unfold clocked; simpl; lia).
  split; [exact Hc|].
  destruct (sweep_stops_only_when_none_expired 4 (Some purgeCall) []
              fourAdds 6 Hc) as (s & s1 & Hrun & Hsweep & Hnone).
  exists s, s1. split; [exact Hrun|]. split; [exact Hsweep|].
  assert (contents s1 = contents s) as Hsame.
  { vm_compute in Hrun. injection Hrun as <-.
    vm_compute in Hsweep. injection Hsweep as <-. reflexivity. }
  split; [exact Hsame|]. exact (Hnone Hsame).
Defined.

(** X16 for the same calls and three sweeps at time 10, when the keys 2
    and 3 have expired. *)
Lemma repeated_sweeps_remove_all_expired_witness :
  clocked (fourAdds ++ [OpPurgeExpired 10]) ∧
  ∃ s s', run fourAdds tc = Ok s ∧
    ((length (filter (λ x, (age 10 x > 4)%Z) (contents s)) ≤ 3)%nat →
     sweeps 3 10 s = Ok (tt, s') ∧
     contents s' = filter (λ x, age 10 x ≤ 4) (contents s) ∧
     world s' = foldl (notify (Some purgeCall)) (world s)
                  (reverse (filter (λ x, age 10 x > 4) (contents s)))).
Proof.
  assert (clocked (fourAdds ++ [OpPurgeExpired 10])) as Hc
    by (unfold clocked; simpl; lia).
  split; [exact Hc|].
  apply (repeated_sweeps_remove_all_expired 4 (Some purgeCall) []
           fourAdds 10 3 Hc).
Defined.

(** X18 at the cache of the demonstration after its four calls of [Add],
    at time 7. *)
Lemma only_evictions_notify_witness :
  reachable (state_after fourAdds tc) ∧
  ∃ s1, purgeExpired 7 (state_after fourAdds tc) = Ok (tt, s1) ∧
    ∀ o, o ∈ [OpAdd 7 7 5 "e"; OpUpdate 7 7 5 "e"; OpGet 7 7 5;
              OpPeek 7 5; OpContains 7 5; OpKeys 7; OpLen 7] →
      ∃ s', exec o (state_after fourAdds tc) = Ok (tt, s') ∧
            world s' = world s1.
Proof.
  assert (reachable (state_after fourAdds tc)) as Hreach.
  { exists 4, (Some purgeCall), [], fourAdds. vm_compute. reflexivity. }
  split; [exact Hreach|].
  apply (only_evictions_notify 7 7 5 "e" _ Hreach).
Defined.

(** X19 at the cache that holds two entries under the key NaN. *)
Lemma key_not_equal_to_itself_is_never_found_witness :
  reachable nanCache ∧ selfEqual NaN = false ∧
  ∃ s1 s2, purgeExpired 1 nanCache = Ok (tt, s1) ∧
    Contains 1 NaN nanCache = Ok (false, s1) ∧
    Get 1 1 NaN nanCache = Ok ((None, false), s1) ∧
    Peek 1 NaN nanCache = Ok ((None, false), s1) ∧
    Remove 1 NaN nanCache = Ok (false, s1) ∧
    Update 1 1 NaN "z" nanCache = Ok (false, s1) ∧
    Add 1 1 NaN "z" nanCache = Ok (true, s2) ∧
    contents s2 = mk_entry 1 NaN "z" :: contents s1 ∧
    size (items (cache s2)) = S (size (items (cache s1))).
Proof.
  assert (reachable nanCache) as Hreach.
  { exists 4, (Some printCall), [], twoNaNs. vm_compute. reflexivity. }
  split; [exact Hreach|]. split; [reflexivity|].
  apply (key_not_equal_to_itself_is_never_found 1 1 NaN "z" _ Hreach eq_refl).
Defined.

End FurtherDemo.
